(** * A shallow embedding of the reactive runtime of [src/response.js]

    The file models the classes [Vue], [Observer], [Dep] and [Watcher] of
    the JavaScript source as state-passing functions over an explicit
    store, and proves the properties the specification states about them,
    followed by further properties of the code.

    Modelling conventions.
    - JavaScript values are [value]; numbers are the integer-valued ones.
      Strict equality [===] on these values is decidable equality, with
      object references compared by identity ([strict_eq]).
    - Objects live in a heap indexed by location.  An object is its list of
      own enumerable properties in [Object.keys] order, and a flag telling
      arrays apart.  Members inherited from prototypes, non-enumerable own
      properties (an array's [length]) and the built-in properties of
      primitives are not represented: reading such a key yields
      [undefined].
    - A property is a data property, the accessor pair installed by
      [Observer.defineReactive] (with its closure variables [val] and
      [dep]), or the accessor pair installed by [Vue._proxy].
    - A [Dep] is its [subs] array, kept in a table of all [Dep] instances;
      [Dep.target] is one field of the store.
    - A [Watcher] is immutable after construction, so a reference to it is
      represented by the record itself, tagged with an identity [w_id].
    - Exceptions propagate as in JavaScript: the store keeps every mutation
      made before the throw.  The source has no [try]/[catch].
    - Nested accessor and [observe] activations consume a call-stack budget
      [d]; exhausting it raises [RangeError], as engines do on unbounded
      recursion.
    - A [value] is never a function: data that holds functions is outside
      the model.
    - A watcher callback is a [script]: it may write to the outside world
      ([Emit], what the DOM callbacks of [Compile] do), read fields, and
      throw.  Callbacks that assign fields or build watchers are outside
      the model.
    - The [trace] of the store is a log of [update()] entries, callback
      entries and outside writes; the program never reads it.
    - Of [Compile], whose constructor and [replace] work on the DOM, the
      model has what [replace] does for an input with [v-model] once the
      attribute is found: the initial write of the value and the tracker
      ([bind_model]), and the body of the listener ([input_listener]). *)

From Stdlib Require Import ZArith Lia Ascii String DecimalString.
From stdpp Require Import base list strings.

Open Scope string_scope.
Open Scope list_scope.

(** ** Values, objects and exceptions *)

Abbreviation loc := nat (only parsing).

Inductive value : Type :=
| VUndef
| VNull
| VBool (b : bool)
| VNum (z : Z)
| VStr (s : string)
| VObj (l : loc).

(** [a === b] *)
Definition strict_eq (a b : value) : bool :=
  match a, b with
  | VUndef, VUndef => true
  | VNull, VNull => true
  | VBool x, VBool y => Bool.eqb x y
  | VNum x, VNum y => Z.eqb x y
  | VStr x, VStr y => String.eqb x y
  | VObj x, VObj y => Nat.eqb x y
  | _, _ => false
  end.

(** [v === undefined || v === null] *)
Definition absent (v : value) : bool :=
  match v with VUndef | VNull => true | _ => false end.

Inductive prop : Type :=
| PData (v : value)
| PReactive (val : value) (dep : nat)
| PProxy (key : string).

Record obj : Type := mkObj {
  is_array : bool;
  props : list (string * prop)
}.

Inductive exn : Type :=
| TypeErrorRead (v : value) (k : string)
| TypeErrorWrite (v : value) (k : string)
| TypeErrorObject (v : value)
| TypeErrorCall (f : value) (k : string)
| RangeError
| Thrown (e : value).

Inductive res (A : Type) : Type :=
| Ok (a : A)
| Err (e : exn).
Arguments Ok {A} a.
Arguments Err {A} e.

Definition is_ok {A} (r : res A) : bool :=
  match r with Ok _ => true | Err _ => false end.

(** ** Callbacks and watchers *)

Inductive script : Type :=
| Done
| Raise (e : value)
| Emit (v : value) (k : script)
| ReadField (o : value) (key : string) (k : value -> script).

Record watcher : Type := mkWatcher {
  w_id : nat;
  w_vm : value;
  w_key : string;
  w_cb : value -> script
}.

Inductive event : Type :=
| EUpdate (w : nat)
| ECallback (w : nat) (v : value) (ctx : option nat)
| EEmit (v : value).

(** ** The store *)

Record state : Type := mkState {
  heap : list obj;
  deps : list (list watcher);
  next_wid : nat;
  target : option watcher;
  trace : list event
}.

Definition with_heap (h : list obj) (st : state) : state :=
  mkState h (deps st) (next_wid st) (target st) (trace st).
Definition with_deps (ds : list (list watcher)) (st : state) : state :=
  mkState (heap st) ds (next_wid st) (target st) (trace st).
Definition with_next_wid (n : nat) (st : state) : state :=
  mkState (heap st) (deps st) n (target st) (trace st).
Definition with_target (t : option watcher) (st : state) : state :=
  mkState (heap st) (deps st) (next_wid st) t (trace st).
Definition with_trace (tr : list event) (st : state) : state :=
  mkState (heap st) (deps st) (next_wid st) (target st) tr.

(** ** State and exception monad *)

Definition M (A : Type) : Type := state -> res A * state.

Definition ret {A} (a : A) : M A := fun st => (Ok a, st).
Definition throw {A} (e : exn) : M A := fun st => (Err e, st).
Definition bind {A B} (m : M A) (f : A -> M B) : M B :=
  fun st =>
    match m st with
    | (Ok a, st1) => f a st1
    | (Err e, st1) => (Err e, st1)
    end.

Declare Scope js_scope.
Delimit Scope js_scope with js.
Notation "x <- m ;; k" := (bind m (fun x => k))
  (at level 100, m at next level, right associativity) : js_scope.
Notation "m ;;; k" := (bind m (fun _ => k))
  (at level 100, right associativity) : js_scope.
Open Scope js_scope.

(** [list.forEach(f)] over the elements present when the loop starts. *)
Fixpoint forEach {A} (l : list A) (f : A -> M unit) : M unit :=
  match l with
  | [] => ret tt
  | x :: rest => f x ;;; forEach rest f
  end.

Definition log (e : event) : M unit :=
  fun st => (Ok tt, with_trace (trace st ++ [e]) st).

(** [Dep.target = t] and the read of [Dep.target] *)
Definition set_target (t : option watcher) : M unit :=
  fun st => (Ok tt, with_target t st).
Definition get_target : M (option watcher) :=
  fun st => (Ok (target st), st).

(** ** Own properties *)

Fixpoint lookup_prop (k : string) (ps : list (string * prop)) : option prop :=
  match ps with
  | [] => None
  | (k', p) :: rest => if String.eqb k k' then Some p else lookup_prop k rest
  end.

(** [Object.defineProperty] on a configurable property: an existing key
    keeps its place, a new key goes last. *)
Fixpoint define_prop (k : string) (p : prop) (ps : list (string * prop))
  : list (string * prop) :=
  match ps with
  | [] => [(k, p)]
  | (k', p') :: rest =>
      if String.eqb k k' then (k, p) :: rest
      else (k', p') :: define_prop k p rest
  end.

Definition own_prop (st : state) (l : loc) (k : string) : option prop :=
  match heap st !! l with
  | Some o => lookup_prop k (props o)
  | None => None
  end.

Definition Object_keys (st : state) (l : loc) : list string :=
  match heap st !! l with
  | Some o => map fst (props o)
  | None => []
  end.

Definition defineProperty (l : loc) (k : string) (p : prop) : M unit :=
  fun st =>
    (Ok tt,
     with_heap
       (alter (fun o => mkObj (is_array o) (define_prop k p (props o))) l
          (heap st))
       st).

(** ** class Dep *)

Definition Dep_subs (st : state) (dep : nat) : list watcher :=
  default [] (deps st !! dep).

(** [new Dep()] *)
Definition Dep_constructor : M nat :=
  fun st => (Ok (length (deps st)), with_deps (deps st ++ [[]]) st).

(** [addSub(watcher) { this.subs.push(watcher) }] *)
Definition Dep_addSub (dep : nat) (w : watcher) : M unit :=
  fun st => (Ok tt, with_deps (alter (fun s => s ++ [w]) dep (deps st)) st).

(** ** Property reads *)

(** The getter installed by [defineReactive]. *)
Definition reactive_get (val : value) (dep : nat) : M value :=
  t <- get_target ;;
  match t with
  | Some w => Dep_addSub dep w
  | None => ret tt
  end ;;;
  ret val.

(** [o[k]] *)
Fixpoint get_field (d : nat) (o : value) (k : string) (st : state)
  : res value * state :=
  match o with
  | VUndef | VNull => (Err (TypeErrorRead o k), st)
  | VBool _ | VNum _ | VStr _ => (Ok VUndef, st)
  | VObj l =>
      match own_prop st l k with
      | None => (Ok VUndef, st)
      | Some (PData v) => (Ok v, st)
      | Some (PReactive val dep) => reactive_get val dep st
      | Some (PProxy key) =>
          (* get() { return this.$data[key] } *)
          match d with
          | 0 => (Err RangeError, st)
          | S d' =>
              (data <- get_field d' o "$data" ;; get_field d' data key) st
          end
      end
  end.

(** ** class Watcher *)

Fixpoint split_on (c : Ascii.ascii) (s : string) : list string :=
  match s with
  | EmptyString => [EmptyString]
  | String a s' =>
      if Ascii.eqb a c then EmptyString :: split_on c s'
      else match split_on c s' with
           | h :: t => String a h :: t
           | [] => [String a EmptyString]
           end
  end.

(** [key.split('.')] *)
Definition split_key (key : string) : list string := split_on "."%char key.

(** [segs.reduce((v, k) => v[k], v)] *)
Fixpoint reduce_path (d : nat) (segs : list string) (v : value) : M value :=
  match segs with
  | [] => ret v
  | k :: rest => v' <- get_field d v k ;; reduce_path d rest v'
  end.

Fixpoint run_script (d : nat) (s : script) : M unit :=
  match s with
  | Done => ret tt
  | Raise e => throw (Thrown e)
  | Emit v k => log (EEmit v) ;;; run_script d k
  | ReadField o key k => v <- get_field d o key ;; run_script d (k v)
  end.

(** [this.cb(value)]; the log entry records the tracking context the
    callback is entered with. *)
Definition call_cb (d : nat) (w : watcher) (v : value) : M unit :=
  ctx <- get_target ;;
  log (ECallback (w_id w) v (w_id <$> ctx)) ;;;
  run_script d (w_cb w v).

Definition Watcher_update (d : nat) (w : watcher) : M unit :=
  log (EUpdate (w_id w)) ;;;
  value <- reduce_path d (split_key (w_key w)) (w_vm w) ;;
  call_cb d w value.

Definition Watcher_constructor (d : nat) (vm : value) (key : string)
    (cb : value -> script) : M watcher :=
  fun st =>
    let this := mkWatcher (next_wid st) vm key cb in
    (set_target (Some this) ;;;
     Watcher_update d this ;;;
     set_target None ;;;
     ret this) (with_next_wid (S (next_wid st)) st).

(** [notify() { this.subs.forEach(watcher => { watcher.update() }) }];
    [forEach] visits the entries present when it starts, and [subs] only
    ever grows at its end. *)
Definition Dep_notify (d : nat) (dep : nat) : M unit :=
  subs <- (fun st => (Ok (Dep_subs st dep), st)) ;;
  forEach subs (Watcher_update d).

(** ** Property writes *)

(** The setter installed by [defineReactive] on [data[key]]. *)
Definition reactive_set (d : nat) (l : loc) (key : string) (val : value)
    (dep : nat) (newVal : value) : M unit :=
  if strict_eq val newVal then ret tt
  else defineProperty l key (PReactive newVal dep) ;;; Dep_notify d dep.

(** [o[k] = v] in strict-mode code. *)
Fixpoint set_field (d : nat) (o : value) (k : string) (v : value)
    (st : state) : res unit * state :=
  match o with
  | VObj l =>
      match own_prop st l k with
      | Some (PReactive val dep) => reactive_set d l k val dep v st
      | Some (PProxy key) =>
          (* set(newVal) { this.$data[key] = newVal } *)
          match d with
          | 0 => (Err RangeError, st)
          | S d' =>
              match get_field d' o "$data" st with
              | (Ok data, st1) => set_field d' data key v st1
              | (Err e, st1) => (Err e, st1)
              end
          end
      | Some (PData _) | None => defineProperty l k (PData v) st
      end
  | _ => (Err (TypeErrorWrite o k), st)
  end.

(** ** class Observer *)

Definition defineReactive (observe : value -> M unit) (l : loc)
    (key : string) (val : value) : M unit :=
  observe val ;;;
  dep <- Dep_constructor ;;
  defineProperty l key (PReactive val dep).

(** [observe(data)]; the guard [!data || typeof data !== 'object'] lets
    through exactly the object references, arrays included. *)
Fixpoint observe (d : nat) (data : value) (st : state) : res unit * state :=
  match data with
  | VObj l =>
      match d with
      | 0 => (Err RangeError, st)
      | S d' =>
          forEach (Object_keys st l)
            (fun key =>
               val <- get_field d' data key ;;
               defineReactive (observe d') l key val) st
      end
  | _ => (Ok tt, st)
  end.

(** [new Observer(data)]; the instance only holds [data] and is dropped by
    its single caller. *)
Definition Observer_constructor (d : nat) (data : value) : M unit :=
  observe d data.

(** ** class Vue *)

Definition Vue_proxy (this : loc) (key : string) : M unit :=
  defineProperty this key (PProxy key).

(** [this._proxy(key)].  The method is looked up on the instance: an own
    property [_proxy], which the instance has once [_proxy] has run for a
    data key of that name, shadows the method of the class.  Reading it
    yields a value of the data or raises, and a value is no function, so
    the call raises. *)
Definition call_proxy (d : nat) (this : loc) (key : string) : M unit :=
  fun st =>
    match own_prop st this "_proxy" with
    | None => Vue_proxy this key st
    | Some _ =>
        (f <- get_field d (VObj this) "_proxy" ;;
         throw (TypeErrorCall f "_proxy")) st
    end.

(** The keys ["0"], ..., of the first [n] indices. *)
Definition index_keys (n : nat) : list string :=
  map (fun i => NilZero.string_of_uint (Nat.to_uint i)) (seq 0 n).

(** [Object.keys(v)] of a value; [undefined] and [null] have no keys to
    list and raise, a string lists the indices of its characters, the
    other primitives have no keys. *)
Definition keys_of (v : value) : M (list string) :=
  fun st =>
    match v with
    | VUndef | VNull => (Err (TypeErrorObject v), st)
    | VObj l => (Ok (Object_keys st l), st)
    | VStr s => (Ok (index_keys (String.length s)), st)
    | VBool _ | VNum _ => (Ok [], st)
    end.

(** Steps 1 to 3 of the constructor (source lines 2-13), on a fresh
    object [this].  Step 4 hands the instance to [Compile], which belongs
    to the DOM side and builds trackers of its own: what is proved of
    [Vue_constructor] is proved of these three steps, not of a [new Vue]
    run to its end. *)
Definition Vue_constructor (d : nat) (options : value) : M loc :=
  fun st =>
    let this := length (heap st) in
    (set_field d (VObj this) "$options" options ;;;
     data <- get_field d options "data" ;;
     set_field d (VObj this) "$data" data ;;;
     data' <- get_field d (VObj this) "$data" ;;
     Observer_constructor d data' ;;;
     data'' <- get_field d (VObj this) "$data" ;;
     keys <- keys_of data'' ;;
     forEach keys (call_proxy d this) ;;;
     ret this)
      (with_heap (heap st ++ [mkObj false []]) st).

(** ** class Compile: the input listener

    The listener that [replace] registers on [<input v-model="key">]
    (source lines 180-186), for the [vm] and [key] of its closure and the
    text the input holds when the event fires:
    [keyArr.slice(0, len - 1).reduce((v, k) => v[k], this.vm)
       [keyArr[len - 1]] = event.target.value]. *)
Definition input_listener (d : nat) (vm : value) (key : string)
    (text : string) : M unit :=
  let keyArr := split_key key in
  let len := length keyArr in
  let value := VStr text in
  obj <- reduce_path d (take (len - 1) keyArr) vm ;;
  set_field d obj (default "undefined" (keyArr !! (len - 1))) value.

(** ** Operations a client can perform on the runtime *)

Inductive op : Type :=
| OGet (o : value) (k : string)
| OSet (o : value) (k : string) (v : value)
| OUpdate (w : watcher)
| ONewWatcher (vm : value) (key : string) (cb : value -> script)
| OObserve (data : value)
| ONewVue (options : value).

(** One top-level operation; an exception it raises ends that operation
    and leaves the store as it was at the throw. *)
Definition run_op (d : nat) (o : op) (st : state) : state :=
  match o with
  | OGet v k => snd (get_field d v k st)
  | OSet v k x => snd (set_field d v k x st)
  | OUpdate w => snd (Watcher_update d w st)
  | ONewWatcher vm key cb => snd (Watcher_constructor d vm key cb st)
  | OObserve data => snd (Observer_constructor d data st)
  | ONewVue options => snd (Vue_constructor d options st)
  end.

Definition run_ops (d : nat) (ops : list op) (st : state) : state :=
  fold_left (fun s o => run_op d o s) ops st.

(** ** Observations on stores and traces *)

Definition peek_prop (p : prop) : option value :=
  match p with
  | PData v | PReactive v _ => Some v
  | PProxy _ => None
  end.

(** The value a field currently holds, for fields that hold one. *)
Definition peek (st : state) (l : loc) (k : string) : option value :=
  match own_prop st l k with
  | Some p => peek_prop p
  | None => None
  end.

Definition is_reactive (p : option prop) : Prop :=
  match p with Some (PReactive _ _) => True | _ => False end.

(** Identities of the watchers whose [update()] was entered. *)
Fixpoint invoked (evs : list event) : list nat :=
  match evs with
  | [] => []
  | EUpdate w :: rest => w :: invoked rest
  | _ :: rest => invoked rest
  end.

(** Identities of the watchers whose callback was entered. *)
Fixpoint called (evs : list event) : list nat :=
  match evs with
  | [] => []
  | ECallback w _ _ :: rest => w :: called rest
  | _ :: rest => called rest
  end.

(** The values handed to the outside world. *)
Fixpoint emitted (evs : list event) : list value :=
  match evs with
  | [] => []
  | EEmit v :: rest => v :: emitted rest
  | _ :: rest => emitted rest
  end.

(** The events logged between two stores. *)
Definition new_events (st st' : state) : list event :=
  drop (length (trace st)) (trace st').

Definition has_id (i : nat) (w : watcher) : bool := Nat.eqb (w_id w) i.

(** The entries a tracker of identity [i] has in a subscription. *)
Definition memberships (i : nat) (st : state) (dep : nat) : list watcher :=
  filter (fun w => has_id i w = true) (Dep_subs st dep).

(** Objects reachable from a value through the values fields hold. *)
Inductive reach (st : state) : value -> loc -> Prop :=
| reach_here l : reach st (VObj l) l
| reach_field l k v l' :
    peek st l k = Some v -> reach st v l' -> reach st (VObj l) l'.

(** A heap of plain data holds no [Vue] instance. *)
Definition no_proxy (st : state) : Prop :=
  forall l k key, own_prop st l k <> Some (PProxy key).

(** Every property of every object is a data property: nothing has been
    converted and no [Vue] instance exists. *)
Definition plain_heap (st : state) : bool :=
  forallb
    (fun o =>
       forallb (fun kp => match snd kp with PData _ => true | _ => false end)
         (props o))
    (heap st).

(** Objects nest strictly: an object held by a field ranks below the
    object that owns the field, so the graph of field values has no
    cycle. *)
Definition nests (st : state) (rk : loc -> nat) : Prop :=
  forall l k l', peek st l k = Some (VObj l') -> rk l' < rk l.

(** The value last assigned to field [k] of object [l] by the writes in
    [ops], or [v0] when there is none. *)
Definition last_write (l : loc) (k : string) (ops : list op) (v0 : value)
  : value :=
  fold_left
    (fun acc o =>
       match o with
       | OSet (VObj l') k' x =>
           if Nat.eqb l l' && String.eqb k k' then x else acc
       | _ => acc
       end) ops v0.

Definition is_vue_op (o : op) : bool :=
  match o with ONewVue _ => true | _ => false end.

(** The operations of a client that builds no [Vue] instance. *)
Definition data_ops (ops : list op) : bool :=
  forallb (fun o => negb (is_vue_op o)) ops.

(** ** Stages of an update and of a construction *)

(** The store in which [update()] of [w] starts resolving its key path. *)
Definition entered (w : watcher) (st : state) : state :=
  with_trace (trace st ++ [EUpdate (w_id w)]) st.

(** The store in which the constructor of [this] starts resolving the key
    path: [this] has its identity, [Dep.target = this] is done, and
    [update()] has been entered. *)
Definition discovering (this : watcher) (st : state) : state :=
  with_trace (trace st ++ [EUpdate (w_id this)])
    (with_target (Some this) (with_next_wid (S (next_wid st)) st)).

(** Resolving [segs] from [root] reaches the absent value [a] after [i]
    segments, with segment [k] still to read. *)
Definition absent_at (d : nat) (root : value) (segs : list string) (i : nat)
    (st : state) (a : value) (k : string) (st1 : state) : Prop :=
  reduce_path d (take i segs) root st = (Ok a, st1) /\
  absent a = true /\ segs !! i = Some k.

(** ** A small program logic for the monad

    [keeps P R m]: from a store satisfying [P], running [m] leads, whether
    it returns or throws, to a store that satisfies [P] again and is
    related to the first by [R].  The relations and invariants below are
    the instances the proofs use. *)

Definition keeps (P : state -> Prop) (R : state -> state -> Prop) {A}
    (m : M A) : Prop :=
  forall st, P st -> P (snd (m st)) /\ R st (snd (m st)).

Definition any_state (st : state) : Prop := True.

Definition anything (st st' : state) : Prop := True.

(** A read changes nothing but subscriber lists. *)
Definition reads (st st' : state) : Prop :=
  heap st' = heap st /\ target st' = target st /\
  next_wid st' = next_wid st /\ trace st' = trace st /\
  length (deps st') = length (deps st).

(** [update()] and [notify()] leave the heap and the tracking context. *)
Definition frame (st st' : state) : Prop :=
  heap st' = heap st /\ target st' = target st /\
  next_wid st' = next_wid st /\ length (deps st') = length (deps st).

(** The log grows, and by no [update()] or callback entry. *)
Definition quiet (st st' : state) : Prop :=
  exists evs, trace st' = trace st ++ evs /\ invoked evs = [] /\ called evs = [].

(** Subscriber lists only gain entries, at their end. *)
Definition subs_grow (st st' : state) : Prop :=
  forall dep, Dep_subs st dep `prefix_of` Dep_subs st' dep.

(** The tracker of identity [i] has been built and the tracking context
    does not point at it. *)
Definition idle (i : nat) (st : state) : Prop :=
  i < next_wid st /\ w_id <$> target st <> Some i.

Definition same_memberships (i : nat) (st st' : state) : Prop :=
  forall dep, memberships i st' dep = memberships i st dep.

(** How one property may change under conversion: it stays as it is, or it
    is redefined as a converted field with a subscription numbered [n] or
    later, holding the value the property held. *)
Definition prop_evolves (n : nat) (p p' : option prop) : Prop :=
  match p, p' with
  | None, None => True
  | Some q, Some q' =>
      q' = q \/
      exists v dep, q' = PReactive v dep /\ n <= dep /\
                    forall v0, peek_prop q = Some v0 -> v0 = v
  | _, _ => False
  end.

(** What [observe] may do to a store. *)
Definition converts (st st' : state) : Prop :=
  target st' = target st /\ next_wid st' = next_wid st /\
  trace st' = trace st /\
  length (deps st) <= length (deps st') /\
  (forall l, Object_keys st' l = Object_keys st l) /\
  (forall l, is_array <$> heap st' !! l = is_array <$> heap st !! l) /\
  (forall l k,
     prop_evolves (length (deps st)) (own_prop st l k) (own_prop st' l k)).

(** Converted fields refer to existing subscriptions, one each. *)
Definition deps_wf (st : state) : Prop :=
  (forall l k v dep,
     own_prop st l k = Some (PReactive v dep) -> dep < length (deps st)) /\
  (forall l k v dep l' k' v',
     own_prop st l k = Some (PReactive v dep) ->
     own_prop st l' k' = Some (PReactive v' dep) -> l = l' /\ k = k').

(** ** Sample stores and callbacks *)

(** [v => { out(v) }], the shape of the callbacks [Compile] installs. *)
Definition cb_emit : value -> script := fun v => Emit v Done.

(** [v => { if (v === x) throw "boom"; out(v) }] *)
Definition cb_raise_on (x : value) : value -> script :=
  fun v => if strict_eq v x then Raise (VStr "boom") else Emit v Done.

(** [v => { o[k] }] *)
Definition cb_read (o : value) (k : string) : value -> script :=
  fun _ => ReadField o k (fun _ => Done).

(** Location 0 holds [{ a: 1, b: { c: 2 }, list: [10, 20] }], with the
    nested object at 1 and the array at 2; location 3 holds the options
    object [{ el: "#app", data: <0> }], location 4 a separate [{ c: 7 }]. *)
Definition ex_plain : state :=
  mkState
    [ mkObj false [("a", PData (VNum 1)); ("b", PData (VObj 1));
                   ("list", PData (VObj 2))];
      mkObj false [("c", PData (VNum 2))];
      mkObj true [("0", PData (VNum 10)); ("1", PData (VNum 20))];
      mkObj false [("el", PData (VStr "#app")); ("data", PData (VObj 0))];
      mkObj false [("c", PData (VNum 7))] ]
    [] 0 None [].

(** The same store after [new Observer(<0>)]. *)
Definition ex_converted : state := snd (Observer_constructor 4 (VObj 0) ex_plain).

(** The converted store with two trackers on [a]: the first throws when it
    is handed 2, the second only reports. *)
Definition ex_two_trackers : state :=
  snd (Watcher_constructor 2 (VObj 0) "a" cb_emit
         (snd (Watcher_constructor 2 (VObj 0) "a" (cb_raise_on (VNum 2))
                 ex_converted))).

(** The two trackers of [ex_two_trackers]. *)
Definition ex_tracker0 : watcher :=
  mkWatcher 0 (VObj 0) "a" (cb_raise_on (VNum 2)).
Definition ex_tracker1 : watcher := mkWatcher 1 (VObj 0) "a" cb_emit.

(** [ex_two_trackers] once the setter of [a] has stored 2 and is about to
    notify. *)
Definition ex_two_stored : state :=
  snd (defineProperty 0 "a" (PReactive (VNum 2) 0) ex_two_trackers).

(** A tracker on [b.c] built over the converted store, and a later history
    in which [b] is replaced by another converted object, the tracker is
    re-run, and a failed construction leaves the context set. *)
Definition ex_tracker_bc : watcher := mkWatcher 0 (VObj 0) "b.c" cb_emit.
Definition ex_tracked_bc : state :=
  snd (Watcher_constructor 2 (VObj 0) "b.c" cb_emit ex_converted).
Definition ex_history : list op :=
  [ OObserve (VObj 4);
    OSet (VObj 0) "b" (VObj 4);
    OUpdate ex_tracker_bc;
    ONewWatcher (VObj 0) "x.y" cb_emit;
    OGet (VObj 0) "a";
    OUpdate ex_tracker_bc;
    OSet (VObj 4) "c" (VNum 8) ].

(** A history of reads and writes over a converted object: writes to one
    field interleaved with a tracker that throws on the value 6. *)
Definition ex_writes : list op :=
  [ OSet (VObj 1) "c" (VNum 5);
    ONewWatcher (VObj 0) "b.c" (cb_raise_on (VNum 6));
    OSet (VObj 1) "c" (VNum 6);
    OGet (VObj 1) "c";
    OSet (VObj 0) "a" (VNum 9) ].

(** The plain store after [new Vue(<3>)]; the instance is at location 5. *)
Definition ex_instance : state := snd (Vue_constructor 4 (VObj 3) ex_plain).

(** [{ count: 1 }] at location 0, and [{ a: { b: 5 } }] at location 0 with
    the inner object at 1: the data of the specification's scenarios. *)
Definition ex_counter : state :=
  mkState [mkObj false [("count", PData (VNum 1))]] [] 0 None [].
Definition ex_nested : state :=
  mkState [mkObj false [("a", PData (VObj 1))];
           mkObj false [("b", PData (VNum 5))]] [] 0 None [].

(** ** Further relations and observations *)

(** What reads, writes and updates may do to subscriptions: the tracking
    context stays, and every list gains at its end only entries that are
    the tracker the context holds. *)
Definition tracks (st st' : state) : Prop :=
  target st' = target st /\
  forall dep, exists ext,
    Dep_subs st' dep = Dep_subs st dep ++ ext /\
    Forall (fun w => target st = Some w) ext.

Definition is_new_watcher (o : op) : bool :=
  match o with ONewWatcher _ _ _ => true | _ => false end.

(** No character of the string is a dot. *)
Fixpoint dot_free (s : string) : bool :=
  match s with
  | EmptyString => true
  | String a s' => negb (Ascii.eqb a "."%char) && dot_free s'
  end.

(** What a read of a property that holds a value yields, and the
    subscription it passes, if any. *)
Definition stored (p : option prop) : option (value * list nat) :=
  match p with
  | None => Some (VUndef, [])
  | Some (PData x) => Some (x, [])
  | Some (PReactive x dep) => Some (x, [dep])
  | Some (PProxy _) => None
  end.

(** The value [v[k]] evaluates to and the subscriptions of the converted
    fields the evaluation passes, read off the store: for a field that
    holds a value, and for a proxy of a [Vue] instance whose [$data] is an
    ordinary property holding the data object. *)
Definition field_of (st : state) (v : value) (k : string)
  : option (value * list nat) :=
  match v with
  | VUndef | VNull => None
  | VBool _ | VNum _ | VStr _ => Some (VUndef, [])
  | VObj l =>
      match own_prop st l k with
      | Some (PProxy key) =>
          match own_prop st l "$data" with
          | Some (PData (VObj ld)) => stored (own_prop st ld key)
          | _ => None
          end
      | p => stored p
      end
  end.

(** The same along a list of segments. *)
Fixpoint path_walk (st : state) (v : value) (segs : list string)
  : option (value * list nat) :=
  match segs with
  | [] => Some (v, [])
  | k :: rest =>
      match field_of st v k with
      | Some (x, ds) =>
          match path_walk st x rest with
          | Some (y, ds') => Some (y, ds ++ ds')
          | None => None
          end
      | None => None
      end
  end.

(** The store after the tracking context [t] has been recorded, in order,
    by the subscriptions [ds]. *)
Definition record (t : option watcher) (ds : list nat) (st : state) : state :=
  match t with
  | Some w => fold_left (fun s dep => snd (Dep_addSub dep w s)) ds st
  | None => st
  end.

(** The callback reads no field. *)
Fixpoint silent (s : script) : bool :=
  match s with
  | Done | Raise _ => true
  | Emit _ k => silent k
  | ReadField _ _ _ => false
  end.

(** A [Vue] instance, at location 2, built over data that has a key
    [$data] of its own: [new Vue({ data: { $data: 0, n: 1 } })]. *)
Definition ex_shadowing : state :=
  snd (Vue_constructor 4 (VObj 1)
         (mkState
            [ mkObj false [("$data", PData (VNum 0)); ("n", PData (VNum 1))];
              mkObj false [("data", PData (VObj 0))] ]
            [] 0 None [])).

(** A chain of [n] field steps starts at the value, through objects
    only. *)
Inductive deep (st : state) : nat -> value -> Prop :=
| deep_here l : deep st 0 (VObj l)
| deep_field n l k v :
    peek st l k = Some v -> deep st n v -> deep st (S n) (VObj l).

(** [nests], checked on the heap. *)
Definition ranked (st : state) (rk : loc -> nat) : bool :=
  forallb
    (fun lo : loc * obj =>
       forallb
         (fun kp : string * prop =>
            match peek_prop (snd kp) with
            | Some (VObj l') => Nat.ltb (rk l') (rk (fst lo))
            | _ => true
            end)
         (props (snd lo)))
    (imap pair (heap st)).

(** The ranks of the objects of [ex_plain]. *)
Definition ex_rank (l : loc) : nat :=
  match l with 0 => 1 | 3 => 2 | _ => 0 end.

(** Two objects that hold each other: [p.next = q; q.back = p]. *)
Definition ex_cyclic : state :=
  mkState
    [ mkObj false [("n", PData (VNum 1)); ("next", PData (VObj 1))];
      mkObj false [("back", PData (VObj 0))] ]
    [] 0 None [].

(** [ex_two_trackers] after a second [new Observer(<0>)]. *)
Definition ex_reconverted : state :=
  snd (Observer_constructor 4 (VObj 0) ex_two_trackers).

(** The field an assignment [l[k] = v] stores into: the field itself, or,
    for a proxy of an instance whose [$data] is an ordinary property
    holding another object, the field of that object. *)
Definition write_target (st : state) (l : loc) (k : string)
  : option (loc * string) :=
  match own_prop st l k with
  | Some (PProxy key) =>
      match own_prop st l "$data" with
      | Some (PData (VObj ld)) =>
          if Nat.eqb ld l then None
          else match own_prop st ld key with
               | Some (PProxy _) => None
               | _ => Some (ld, key)
               end
      | _ => None
      end
  | _ => Some (l, k)
  end.

(** The properties a read of [v[k]] looks at. *)
Definition cells_of (st : state) (v : value) (k : string)
  : list (loc * string) :=
  match v with
  | VObj l =>
      match own_prop st l k with
      | Some (PProxy key) =>
          match own_prop st l "$data" with
          | Some (PData (VObj ld)) => [(l, k); (l, "$data"); (ld, key)]
          | _ => [(l, k); (l, "$data")]
          end
      | _ => [(l, k)]
      end
  | _ => []
  end.

(** The same along a list of segments. *)
Fixpoint walk_cells (st : state) (v : value) (segs : list string)
  : list (loc * string) :=
  match segs with
  | [] => []
  | k :: rest =>
      cells_of st v k ++
      match field_of st v k with
      | Some (x, _) => walk_cells st x rest
      | None => []
      end
  end.

(** ** class Compile: binding an input

    What [replace] does for an [<input>] that carries [v-model="key"], before
    it registers the listener (source lines 170-177): the initial
    [node.value = value], then the tracker whose callback is
    [newVal => { node.value = newVal }].  The node belongs to the outside
    world, so an assignment to [node.value] is an [Emit]. *)
Definition bind_model (d : nat) (vm : value) (key : string) : M unit :=
  value <- reduce_path d (split_key key) vm ;;
  log (EEmit value) ;;;
  _ <- Watcher_constructor d vm key cb_emit ;;
  ret tt.

(** The key [_proxy] stands in the list before another key: the accessor
    that [_proxy] defines for it shadows the method for the keys after. *)
Fixpoint proxy_shadowed (keys : list string) : bool :=
  match keys with
  | [] => false
  | k :: rest =>
      match rest with
      | [] => false
      | _ :: _ => String.eqb k "_proxy" || proxy_shadowed rest
      end
  end.

(** [new Vue({ data: { _proxy: 1, n: 2 } })], before the call: the data at
    location 0, the options at 1. *)
Definition ex_shadowed_method : state :=
  mkState
    [ mkObj false [("_proxy", PData (VNum 1)); ("n", PData (VNum 2))];
      mkObj false [("data", PData (VObj 0))] ]
    [] 0 None [].

(** [ex_two_trackers] after the construction of a tracker on the
    unresolvable path [x.y] has raised: the context holds that tracker. *)
Definition ex_leaked : state :=
  snd (Watcher_constructor 2 (VObj 0) "x.y" cb_emit ex_two_trackers).

(** * Proofs *)

(** ** The scenarios of the specification, run on the model *)

(** [convert(D); new Tracker(D, "count", v => log.push(v))] logs 1; then
    [D.count = 1] logs nothing and [D.count = 2] logs 2. *)
Example counter_scenario :
  let s1 := run_ops 2 [OObserve (VObj 0); ONewWatcher (VObj 0) "count" cb_emit]
              ex_counter in
  let s2 := run_op 2 (OSet (VObj 0) "count" (VNum 1)) s1 in
  let s3 := run_op 2 (OSet (VObj 0) "count" (VNum 2)) s2 in
  emitted (trace s1) = [VNum 1] /\
  emitted (trace s2) = [VNum 1] /\
  emitted (trace s3) = [VNum 1; VNum 2].
Proof. vm_compute. repeat split. Qed.

(** A tracker on [a.b] is called once with 5 and recorded by the fields [a]
    and [b]; [D.a.b = 6] calls it once with 6; [D.a = D.a] calls nothing. *)
Example nested_scenario :
  let s1 := run_ops 3 [OObserve (VObj 0); ONewWatcher (VObj 0) "a.b" cb_emit]
              ex_nested in
  let s2 := run_op 3 (OSet (VObj 1) "b" (VNum 6)) s1 in
  let s3 := run_op 3 (OSet (VObj 0) "a" (VObj 1)) s2 in
  emitted (trace s1) = [VNum 5] /\
  own_prop s1 1 "b" = Some (PReactive (VNum 5) 0) /\
  own_prop s1 0 "a" = Some (PReactive (VObj 1) 1) /\
  w_id <$> Dep_subs s1 0 = [0] /\ w_id <$> Dep_subs s1 1 = [0] /\
  emitted (new_events s1 s2) = [VNum 6] /\
  new_events s2 s3 = [].
Proof. vm_compute. repeat split. Qed.

(** ** Strict equality and own-property tables *)

Lemma strict_eq_true (a b : value) : strict_eq a b = true <-> a = b.
Proof.
  destruct a, b; simpl; split; intros H; try discriminate; try reflexivity.
  - apply Bool.eqb_prop in H. congruence.
  - injection H as ->. apply Bool.eqb_reflx.
  - apply Z.eqb_eq in H. congruence.
  - injection H as ->. apply Z.eqb_refl.
  - apply String.eqb_eq in H. congruence.
  - injection H as ->. apply String.eqb_refl.
  - apply Nat.eqb_eq in H. congruence.
  - injection H as ->. apply Nat.eqb_refl.
Qed.

Lemma strict_eq_false (a b : value) : strict_eq a b = false <-> a <> b.
Proof.
  rewrite <- strict_eq_true. destruct (strict_eq a b); split; congruence.
Qed.

Lemma lookup_define (k k' : string) (p : prop) (ps : list (string * prop)) :
  lookup_prop k' (define_prop k p ps) =
  if String.eqb k' k then Some p else lookup_prop k' ps.
Proof.
  induction ps as [|[k0 p0] ps IH]; simpl.
  - destruct (String.eqb_spec k' k); reflexivity.
  - destruct (String.eqb_spec k k0) as [->|Hne]; simpl.
    + destruct (String.eqb_spec k' k0); reflexivity.
    + destruct (String.eqb_spec k' k0) as [->|Hne'].
      * destruct (String.eqb_spec k0 k); congruence.
      * exact IH.
Qed.

Lemma lookup_prop_keys (k : string) (ps : list (string * prop)) :
  is_Some (lookup_prop k ps) <-> In k (map fst ps).
Proof.
  induction ps as [|[k0 p0] ps IH]; simpl.
  - split; [intros [? ?]; discriminate | tauto].
  - destruct (String.eqb_spec k k0) as [->|Hne].
    + split; eauto.
    + rewrite IH. split; [tauto | intros [?|?]; congruence].
Qed.

Lemma keys_define (k : string) (p : prop) (ps : list (string * prop)) :
  is_Some (lookup_prop k ps) -> map fst (define_prop k p ps) = map fst ps.
Proof.
  induction ps as [|[k0 p0] ps IH]; simpl.
  - intros [? ?]; discriminate.
  - destruct (String.eqb_spec k k0) as [->|Hne]; simpl; intros H.
    + reflexivity.
    + f_equal. auto.
Qed.

Lemma own_prop_keys (st : state) (l : loc) (k : string) :
  is_Some (own_prop st l k) <-> In k (Object_keys st l).
Proof.
  unfold own_prop, Object_keys. destruct (heap st !! l).
  - apply lookup_prop_keys.
  - simpl. split; [intros [? ?]; discriminate | tauto].
Qed.

Lemma own_prop_defineProperty (st : state) (l l' : loc) (k k' : string)
    (p : prop) :
  own_prop (snd (defineProperty l k p st)) l' k' =
  if Nat.eqb l' l && String.eqb k' k
  then match heap st !! l with Some _ => Some p | None => None end
  else own_prop st l' k'.
Proof.
  unfold own_prop, defineProperty. cbn [snd heap with_heap].
  destruct (Nat.eqb_spec l' l) as [->|Hne]; cbn [andb].
  - rewrite list_lookup_alter_eq.
    destruct (heap st !! l) as [o|]; cbn [fmap option_fmap option_map props].
    + apply lookup_define.
    + destruct (String.eqb k' k); reflexivity.
  - rewrite list_lookup_alter_ne by congruence. reflexivity.
Qed.

Lemma Object_keys_defineProperty (st : state) (l l' : loc) (k : string)
    (p : prop) :
  is_Some (own_prop st l k) ->
  Object_keys (snd (defineProperty l k p st)) l' = Object_keys st l'.
Proof.
  unfold own_prop, Object_keys, defineProperty. cbn [snd heap with_heap].
  intros H. destruct (Nat.eq_dec l' l) as [->|Hne].
  - rewrite list_lookup_alter_eq.
    destruct (heap st !! l) as [o|]; cbn [fmap option_fmap option_map props];
      [|reflexivity].
    apply keys_define, H.
  - rewrite list_lookup_alter_ne by congruence. reflexivity.
Qed.

(** ** Rules of the program logic *)

Section Keeps.
Variable P : state -> Prop.
Variable R : state -> state -> Prop.
Hypothesis R_refl : forall st, R st st.
Hypothesis R_trans : forall s1 s2 s3, R s1 s2 -> R s2 s3 -> R s1 s3.

Lemma keeps_ret {A} (a : A) : keeps P R (ret a).
Proof. intros st H. simpl. auto. Qed.

Lemma keeps_throw {A} (e : exn) : keeps P R (@throw A e).
Proof. intros st H. simpl. auto. Qed.

Lemma keeps_bind {A B} (m : M A) (f : A -> M B) :
  keeps P R m -> (forall a, keeps P R (f a)) -> keeps P R (bind m f).
Proof.
  intros Hm Hf st H. unfold bind.
  destruct (Hm st H) as [H1 H2].
  destruct (m st) as [[a|e] st1]; simpl in *.
  - destruct (Hf a st1 H1) as [H3 H4]. eauto.
  - auto.
Qed.

Lemma keeps_forEach {A} (l : list A) (f : A -> M unit) :
  (forall x, keeps P R (f x)) -> keeps P R (forEach l f).
Proof.
  intros Hf. induction l as [|x l IH]; simpl.
  - apply keeps_ret.
  - apply keeps_bind; auto.
Qed.

End Keeps.

(** Decompose a [keeps] goal along the structure of the program, closing
    the leaves with [prim]. *)
Ltac keeps_with refl trans prim :=
  repeat first
    [ solve [prim]
    | apply (keeps_ret _ _ refl)
    | apply (keeps_throw _ _ refl)
    | apply (keeps_bind _ _ trans)
    | apply (keeps_forEach _ _ refl trans)
    | match goal with |- forall _, keeps _ _ _ => intro end ].

(** [this._proxy(key)] keeps what both of its outcomes keep. *)
Lemma keeps_call_proxy (P : state -> Prop) (R : state -> state -> Prop)
    (d : nat) (this : loc) (key : string) :
  keeps P R (Vue_proxy this key) ->
  keeps P R (bind (get_field d (VObj this) "_proxy")
               (fun f => @throw unit (TypeErrorCall f "_proxy"))) ->
  keeps P R (call_proxy d this key).
Proof.
  intros H1 H2 st HP. unfold call_proxy.
  destruct (own_prop st this "_proxy"); [apply H2 | apply H1]; exact HP.
Qed.




(** ** What reads, callbacks and updates leave alone *)


Lemma reads_refl st : reads st st.
Proof. unfold reads; auto. Qed.

Lemma reads_trans s1 s2 s3 : reads s1 s2 -> reads s2 s3 -> reads s1 s3.
Proof. unfold reads. intuition congruence. Qed.

Lemma frame_refl st : frame st st.
Proof. unfold frame; auto. Qed.

Lemma frame_trans s1 s2 s3 : frame s1 s2 -> frame s2 s3 -> frame s1 s3.
Proof. unfold frame. intuition congruence. Qed.

Lemma reads_frame st st' : reads st st' -> frame st st'.
Proof. unfold reads, frame. tauto. Qed.

Lemma invoked_app (e1 e2 : list event) :
  invoked (e1 ++ e2) = invoked e1 ++ invoked e2.
Proof.
  induction e1 as [|[w|w v c|v] e1 IH]; simpl; auto. f_equal; auto.
Qed.

Lemma called_app (e1 e2 : list event) :
  called (e1 ++ e2) = called e1 ++ called e2.
Proof.
  induction e1 as [|[w|w v c|v] e1 IH]; simpl; auto. f_equal; auto.
Qed.

Lemma quiet_refl st : quiet st st.
Proof. exists []. rewrite app_nil_r. auto. Qed.

Lemma quiet_trans s1 s2 s3 : quiet s1 s2 -> quiet s2 s3 -> quiet s1 s3.
Proof.
  intros (e1 & H1 & I1 & C1) (e2 & H2 & I2 & C2). exists (e1 ++ e2).
  rewrite H2, H1, <- app_assoc, invoked_app, called_app, I1, I2, C1, C2. auto.
Qed.

Lemma reads_quiet st st' : reads st st' -> quiet st st'.
Proof.
  intros (_ & _ & _ & H & _). exists []. rewrite app_nil_r. auto.
Qed.

Lemma length_alter_deps (f : list watcher -> list watcher) (dep : nat)
    (ds : list (list watcher)) :
  length (alter f dep ds) = length ds.
Proof. apply length_alter. Qed.

Lemma reactive_get_reads val dep : keeps any_state reads (reactive_get val dep).
Proof.
  intros st _. split; [exact I|]. unfold reactive_get, reads, bind, get_target.
  destruct (target st) eqn:E; simpl; rewrite ?length_alter_deps; auto.
Qed.

Lemma get_field_reads d o k : keeps any_state reads (get_field d o k).
Proof.
  revert o k. induction d as [|d IH]; intros o k st HP;
    destruct o; simpl; try (split; [exact I | apply reads_refl]);
    destruct (own_prop st _ k) as [[v|v dep|key]|];
    try (split; [exact I | apply reads_refl]);
    try (apply (reactive_get_reads v dep st HP)).
  apply (keeps_bind any_state reads reads_trans); [apply IH | intro; apply IH | exact HP].
Qed.

Lemma reduce_path_reads d segs v : keeps any_state reads (reduce_path d segs v).
Proof.
  revert v. induction segs as [|k segs IH]; intros v; simpl.
  - apply (keeps_ret _ _ reads_refl).
  - apply (keeps_bind _ _ reads_trans); [apply get_field_reads | auto].
Qed.

Lemma log_frame e : keeps any_state frame (log e).
Proof. intros st _. split; [exact I|]. unfold frame. simpl. auto. Qed.

Lemma get_target_reads : keeps any_state reads get_target.
Proof. intros st _. split; [exact I | apply reads_refl]. Qed.

Lemma keeps_weaken {A} (R1 R2 : state -> state -> Prop) (m : M A) :
  (forall s s', R1 s s' -> R2 s s') ->
  keeps any_state R1 m -> keeps any_state R2 m.
Proof. intros HR H st HP. destruct (H st HP). auto. Qed.

Lemma get_field_frame d o k : keeps any_state frame (get_field d o k).
Proof. apply (keeps_weaken reads frame), get_field_reads. apply reads_frame. Qed.

Lemma reduce_path_frame d segs v :
  keeps any_state frame (reduce_path d segs v).
Proof. apply (keeps_weaken reads frame), reduce_path_reads. apply reads_frame. Qed.

Lemma get_target_frame : keeps any_state frame get_target.
Proof. apply (keeps_weaken reads frame), get_target_reads. apply reads_frame. Qed.

Lemma run_script_frame d s : keeps any_state frame (run_script d s).
Proof.
  induction s as [|e|v s IH|o key k IH]; simpl;
    keeps_with frame_refl frame_trans
      ltac:(auto using log_frame, get_field_frame).
Qed.

Lemma run_script_quiet d s : keeps any_state quiet (run_script d s).
Proof.
  induction s as [|e|v s IH|o key k IH]; simpl;
    keeps_with quiet_refl quiet_trans ltac:(auto).
  - intros st _. split; [exact I|]. exists [EEmit v]. simpl. auto.
  - apply (keeps_weaken reads quiet), get_field_reads. apply reads_quiet.
Qed.

Lemma call_cb_frame d w v : keeps any_state frame (call_cb d w v).
Proof.
  unfold call_cb. keeps_with frame_refl frame_trans
    ltac:(auto using log_frame, run_script_frame, get_target_frame).
Qed.

Lemma Watcher_update_frame d w : keeps any_state frame (Watcher_update d w).
Proof.
  unfold Watcher_update. keeps_with frame_refl frame_trans
    ltac:(auto using log_frame, call_cb_frame, reduce_path_frame).
Qed.

Lemma Dep_notify_frame d dep : keeps any_state frame (Dep_notify d dep).
Proof.
  unfold Dep_notify. keeps_with frame_refl frame_trans
    ltac:(auto using Watcher_update_frame).
  intros st _. split; [exact I | apply frame_refl].
Qed.

(** ** Reads outside a discovery pass *)

Lemma get_field_no_target d o k st :
  target st = None -> snd (get_field d o k st) = st.
Proof.
  revert o k st. induction d as [|d IH]; intros o k st Ht;
    destruct o; simpl; try reflexivity;
    destruct (own_prop st _ k) as [[v|v dep|key]|]; try reflexivity;
    try (unfold reactive_get, bind, get_target; rewrite Ht; reflexivity).
  unfold bind. pose proof (IH (VObj l) "$data" st Ht) as H1.
  destruct (get_field d (VObj l) "$data" st) as [[a|e] st1]; simpl in *; subst.
  - apply IH, Ht.
  - reflexivity.
Qed.

(** ** The tracking context around construction (C1) *)

(** What every run of the constructor leaves, by outcome. *)
Lemma Watcher_constructor_outcome d vm key cb st :
  let this := mkWatcher (next_wid st) vm key cb in
  let r := Watcher_constructor d vm key cb st in
  heap (snd r) = heap st /\ next_wid (snd r) = S (next_wid st) /\
  match fst r with
  | Ok t => t = this /\ target (snd r) = None
  | Err _ => target (snd r) = Some this
  end.
Proof.
  unfold Watcher_constructor, bind, set_target. cbn zeta.
  set (this := mkWatcher (next_wid st) vm key cb).
  set (st0 := with_target (Some this) (with_next_wid (S (next_wid st)) st)).
  destruct (Watcher_update_frame d this st0 I) as [_ (Hh & Ht & Hn & _)].
  destruct (Watcher_update d this st0) as [[[]|e] st1]; simpl in *; auto.
Qed.

(** C1, as amended.  The context is cleared exactly when the discovery pass
    and the initial callback return: then no later read registers anything.
    When either raises, the constructor is left with the context still
    holding the tracker under construction (callbacks here build no
    tracker of their own). *)
Theorem context_cleared_only_on_return d vm key cb st :
  let r := Watcher_constructor d vm key cb st in
  match fst r with
  | Ok _ =>
      target (snd r) = None /\
      forall d' o k, snd (get_field d' o k (snd r)) = snd r
  | Err _ => target (snd r) = Some (mkWatcher (next_wid st) vm key cb)
  end.
Proof.
  cbn zeta.
  pose proof (Watcher_constructor_outcome d vm key cb st) as (_ & _ & H).
  cbn zeta in H.
  destruct (fst (Watcher_constructor d vm key cb st)) as [t|e].
  - destruct H as [_ Ht]. split; [exact Ht|].
    intros. apply get_field_no_target. exact Ht.
  - exact H.
Qed.

(** C1 fails as stated: building a tracker on the unresolvable path [x.y]
    raises, the context keeps the tracker, and the next read of the
    unrelated field [a] records it as a subscriber. *)
Lemma context_leaks_on_failed_construction :
  let r := Watcher_constructor 2 (VObj 0) "x.y" cb_emit ex_converted in
  fst r = Err (TypeErrorRead VUndef "y") /\
  w_id <$> target (snd r) = Some 0 /\
  Dep_subs (snd r) 0 = [] /\
  w_id <$> Dep_subs (snd (get_field 2 (VObj 0) "a" (snd r))) 0 = [0].
Proof. vm_compute. repeat split. Qed.

(** ** Equal-value writes (C8) *)

(** C8.  Assigning to a converted field a value strictly equal to the one it
    holds returns at once and leaves the whole store as it was: the stored
    value, every subscriber list, the tracking context and the log. *)
Theorem equal_write_is_noop d l k cur dep v st :
  own_prop st l k = Some (PReactive cur dep) ->
  strict_eq cur v = true ->
  set_field d (VObj l) k v st = (Ok tt, st).
Proof.
  intros Hp Heq. destruct d; simpl; rewrite Hp; unfold reactive_set;
    rewrite Heq; reflexivity.
Qed.

Lemma equal_write_is_noop_witness :
  set_field 2 (VObj 0) "a" (VNum 1) ex_two_trackers = (Ok tt, ex_two_trackers).
Proof.
  apply (equal_write_is_noop 2 0 "a" (VNum 1) 0); reflexivity.
Defined.

(** ** Subscriber lists under reads *)

Lemma subs_grow_refl st : subs_grow st st.
Proof. intros dep. reflexivity. Qed.

Lemma subs_grow_trans s1 s2 s3 :
  subs_grow s1 s2 -> subs_grow s2 s3 -> subs_grow s1 s3.
Proof. intros H1 H2 dep. etransitivity; [apply H1 | apply H2]. Qed.

Lemma Dep_subs_addSub dep w st dep' :
  Dep_subs (snd (Dep_addSub dep w st)) dep' =
  if Nat.eqb dep' dep && Nat.ltb dep (length (deps st))
  then Dep_subs st dep ++ [w] else Dep_subs st dep'.
Proof.
  unfold Dep_subs, Dep_addSub. cbn [snd deps with_deps].
  destruct (Nat.eqb_spec dep' dep) as [->|Hne]; cbn [andb].
  - rewrite list_lookup_alter_eq.
    destruct (Nat.ltb_spec dep (length (deps st))) as [Hlt|Hge].
    + destruct (lookup_lt_is_Some_2 _ _ Hlt) as [s Hs]. rewrite Hs. reflexivity.
    + rewrite (lookup_ge_None_2 _ _ Hge). reflexivity.
  - rewrite list_lookup_alter_ne by congruence. reflexivity.
Qed.

Lemma Dep_addSub_grow dep w : keeps any_state subs_grow (Dep_addSub dep w).
Proof.
  intros st _. split; [exact I|]. intros dep'. rewrite Dep_subs_addSub.
  destruct (Nat.eqb_spec dep' dep) as [->|Hne]; cbn [andb]; [|reflexivity].
  destruct (Nat.ltb dep (length (deps st))); [|reflexivity].
  apply prefix_app_r. reflexivity.
Qed.

Lemma reactive_get_grow val dep :
  keeps any_state subs_grow (reactive_get val dep).
Proof.
  unfold reactive_get.
  keeps_with subs_grow_refl subs_grow_trans ltac:(auto using Dep_addSub_grow).
  - intros st _. split; [exact I | apply subs_grow_refl].
  - destruct a; keeps_with subs_grow_refl subs_grow_trans
      ltac:(auto using Dep_addSub_grow).
Qed.

Lemma get_field_grow d o k : keeps any_state subs_grow (get_field d o k).
Proof.
  revert o k. induction d as [|d IH]; intros o k st HP;
    destruct o; simpl; try (split; [exact I | apply subs_grow_refl]);
    destruct (own_prop st _ k) as [[v|v dep|key]|];
    try (split; [exact I | apply subs_grow_refl]);
    try (apply (reactive_get_grow v dep st HP)).
  apply (keeps_bind any_state subs_grow subs_grow_trans);
    [apply IH | intro; apply IH | exact HP].
Qed.

Lemma run_script_grow d s : keeps any_state subs_grow (run_script d s).
Proof.
  induction s as [|e|v s IH|o key k IH]; simpl;
    keeps_with subs_grow_refl subs_grow_trans
      ltac:(auto using get_field_grow).
  intros st _. split; [exact I | intros dep; reflexivity].
Qed.

(** ** Resolution of a key path *)

Lemma reduce_path_app d l1 l2 v st :
  reduce_path d (l1 ++ l2) v st =
  bind (reduce_path d l1 v) (reduce_path d l2) st.
Proof.
  revert v st. induction l1 as [|k l1 IH]; intros v st; simpl.
  - reflexivity.
  - unfold bind.
    destruct (get_field d v k st) as [[a|e] st1].
    + rewrite IH. reflexivity.
    + reflexivity.
Qed.

Lemma get_field_absent d a k st :
  absent a = true -> get_field d a k st = (Err (TypeErrorRead a k), st).
Proof. destruct d, a; simpl; intros H; try discriminate; reflexivity. Qed.

Lemma reduce_path_absent d root segs i st a k st1 :
  absent_at d root segs i st a k st1 ->
  reduce_path d segs root st = (Err (TypeErrorRead a k), st1).
Proof.
  intros (Hpre & Ha & Hk).
  rewrite <- (take_drop_middle segs i k Hk), reduce_path_app.
  unfold bind. rewrite Hpre. simpl. unfold bind.
  rewrite (get_field_absent d a k st1 Ha). reflexivity.
Qed.

Lemma new_events_app st st' evs :
  trace st' = trace st ++ evs -> new_events st st' = evs.
Proof. unfold new_events. intros ->. apply drop_app_length. Qed.

Lemma Watcher_update_absent d w i a k st st1 :
  absent_at d (w_vm w) (split_key (w_key w)) i (entered w st) a k st1 ->
  Watcher_update d w st = (Err (TypeErrorRead a k), st1).
Proof.
  intros H. apply reduce_path_absent in H.
  unfold Watcher_update, bind, log. fold (entered w st). rewrite H. reflexivity.
Qed.

(** ** Unresolvable key paths (C4) *)

(** C4, as amended.  When resolution meets an absent value [a] with segment
    [k] still to read, [update()] and the constructor raise the runtime's
    [TypeError] for reading [k] of [a]; the constructor returns no
    tracker. *)
Theorem absent_segment_raises_TypeError d i a k :
  (forall w st st1,
     absent_at d (w_vm w) (split_key (w_key w)) i (entered w st) a k st1 ->
     Watcher_update d w st = (Err (TypeErrorRead a k), st1)) /\
  (forall vm key cb st st1,
     absent_at d vm (split_key key) i
       (discovering (mkWatcher (next_wid st) vm key cb) st) a k st1 ->
     Watcher_constructor d vm key cb st = (Err (TypeErrorRead a k), st1)).
Proof.
  split.
  - intros w st st1 H. apply (Watcher_update_absent d w i a k st st1 H).
  - intros vm key cb st st1 H. unfold Watcher_constructor, bind, set_target.
    cbn zeta. set (this := mkWatcher (next_wid st) vm key cb) in *.
    rewrite (Watcher_update_absent d this i a k _ st1 H). reflexivity.
Qed.

Lemma absent_segment_raises_TypeError_witness :
  Watcher_update 2 (mkWatcher 7 (VObj 0) "b.x.y" cb_emit) ex_converted =
    (Err (TypeErrorRead VUndef "y"),
     entered (mkWatcher 7 (VObj 0) "b.x.y" cb_emit) ex_converted) /\
  fst (Watcher_constructor 2 (VObj 1) "x.y" cb_emit ex_converted) =
    Err (TypeErrorRead VUndef "y").
Proof.
  split.
  - apply (proj1 (absent_segment_raises_TypeError 2 2 VUndef "y")).
    split; [|split]; vm_compute; reflexivity.
  - rewrite (proj2 (absent_segment_raises_TypeError 2 1 VUndef "y")
               (VObj 1) "x.y" cb_emit ex_converted
               (discovering (mkWatcher 0 (VObj 1) "x.y" cb_emit) ex_converted)).
    + reflexivity.
    + split; [|split]; vm_compute; reflexivity.
Defined.

(** C4 fails as stated: two resolutions that differ in root object, key
    path and failing segment index raise one and the same error value, so
    the error identifies none of the three. *)
Lemma resolution_error_is_anonymous :
  fst (Watcher_constructor 2 (VObj 1) "x.y" cb_emit ex_converted) =
    Err (TypeErrorRead VUndef "y") /\
  fst (Watcher_constructor 2 (VObj 0) "b.x.y" cb_emit ex_converted) =
    Err (TypeErrorRead VUndef "y") /\
  (exists s1, absent_at 2 (VObj 1) (split_key "x.y") 1
     (discovering (mkWatcher 0 (VObj 1) "x.y" cb_emit) ex_converted)
     VUndef "y" s1) /\
  (exists s2, absent_at 2 (VObj 0) (split_key "b.x.y") 2
     (discovering (mkWatcher 0 (VObj 0) "b.x.y" cb_emit) ex_converted)
     VUndef "y" s2).
Proof.
  split; [vm_compute; reflexivity|]. split; [vm_compute; reflexivity|]. split.
  - exists (discovering (mkWatcher 0 (VObj 1) "x.y" cb_emit) ex_converted).
    split; [|split]; vm_compute; reflexivity.
  - exists (snd (reduce_path 2 ["b"; "x"] (VObj 0)
              (discovering (mkWatcher 0 (VObj 0) "b.x.y" cb_emit)
                 ex_converted))).
    split; [|split]; vm_compute; reflexivity.
Qed.

(** ** The initial callback and the tracking context (C3) *)

Lemma reduce_path_run d segs v st r st1 :
  reduce_path d segs v st = (r, st1) -> reads st st1.
Proof.
  intros E. destruct (reduce_path_reads d segs v st I) as [_ H].
  rewrite E in H. exact H.
Qed.

Lemma run_script_read_reactive d l k k' x dep st :
  own_prop st l k = Some (PReactive x dep) ->
  dep < length (deps st) ->
  forall this, target st = Some this ->
  Dep_subs st dep ++ [this] `prefix_of`
    Dep_subs (snd (run_script d (ReadField (VObj l) k k') st)) dep.
Proof.
  intros Hp Hlt this Ht. simpl. unfold bind at 1.
  assert (Hg : get_field d (VObj l) k st =
               (Ok x, snd (Dep_addSub dep this st))).
  { destruct d; simpl; rewrite Hp; unfold reactive_get, bind, get_target;
      rewrite Ht; reflexivity. }
  rewrite Hg.
  destruct (run_script_grow d (k' x) (snd (Dep_addSub dep this st)) I)
    as [_ H].
  specialize (H dep). rewrite Dep_subs_addSub in H.
  rewrite Nat.eqb_refl in H. cbn [andb] in H.
  destruct (Nat.ltb_spec dep (length (deps st))); [exact H | lia].
Qed.

(** C3, as amended.  When the key path resolves to [v], the initial
    callback is entered while the tracking context still holds the tracker
    under construction, and the context is cleared only once the callback
    has returned; the read of a converted field with which the callback
    begins therefore records the tracker. *)
Theorem callback_runs_inside_context d vm key cb st v st1 :
  let this := mkWatcher (next_wid st) vm key cb in
  let r := Watcher_constructor d vm key cb st in
  reduce_path d (split_key key) vm (discovering this st) = (Ok v, st1) ->
  (exists evs,
     new_events st (snd r) =
       EUpdate (w_id this) :: ECallback (w_id this) v (Some (w_id this)) :: evs
     /\ called evs = []) /\
  (is_ok (fst r) = true -> target (snd r) = None) /\
  (forall l k k' x dep,
     cb v = ReadField (VObj l) k k' ->
     own_prop st1 l k = Some (PReactive x dep) ->
     dep < length (deps st1) ->
     Dep_subs st1 dep ++ [this] `prefix_of` Dep_subs (snd r) dep).
Proof.
  intros this r Hres. subst r.
  pose proof (reduce_path_run _ _ _ _ _ _ Hres) as (Hh & Ht & Hn & Htr & Hl).
  unfold Watcher_constructor, Watcher_update, bind, set_target, log.
  cbn zeta. fold this. fold (entered this (with_target (Some this)
    (with_next_wid (S (next_wid st)) st))).
  change (entered this (with_target (Some this)
    (with_next_wid (S (next_wid st)) st))) with (discovering this st).
  change (w_key this) with key. change (w_vm this) with vm.
  rewrite Hres. unfold call_cb, bind, get_target, log. rewrite Ht.
  change (w_cb this v) with (cb v).
  cbn [discovering target with_trace with_target fmap option_fmap option_map].
  set (st2 := with_trace _ st1).
  pose proof (run_script_quiet d (cb v) st2 I) as [_ (evs & He & Hi & Hc)].
  pose proof (run_script_frame d (cb v) st2 I) as [_ (Hh2 & Ht2 & _)].
  assert (Hgrow : forall l k k' x dep,
     cb v = ReadField (VObj l) k k' ->
     own_prop st1 l k = Some (PReactive x dep) ->
     dep < length (deps st1) ->
     Dep_subs st1 dep ++ [this] `prefix_of`
       Dep_subs (snd (run_script d (cb v) st2)) dep).
  { intros l k k' x dep Hcb Hp Hlt. rewrite Hcb.
    apply (run_script_read_reactive d l k k' x dep st2 Hp Hlt this).
    unfold st2. cbn [target with_trace]. rewrite Ht. reflexivity. }
  assert (Htrace : trace (snd (run_script d (cb v) st2)) =
     trace st ++ EUpdate (next_wid st)
       :: ECallback (next_wid st) v (Some (next_wid st)) :: evs).
  { rewrite He. unfold st2. cbn [trace with_trace]. rewrite Htr.
    cbn [discovering trace with_trace this w_id].
    rewrite <- !app_assoc. reflexivity. }
  destruct (run_script d (cb v) st2) as [[[]|e] st3]; cbn [fst snd] in *.
  - split; [|split].
    + exists evs. split; [|exact Hc]. apply new_events_app. exact Htrace.
    + reflexivity.
    + exact Hgrow.
  - split; [|split].
    + exists evs. split; [|exact Hc]. apply new_events_app. exact Htrace.
    + discriminate.
    + exact Hgrow.
Qed.

Lemma callback_runs_inside_context_witness :
  let r := Watcher_constructor 2 (VObj 0) "a" (cb_read (VObj 1) "c")
             ex_converted in
  (exists evs,
     new_events ex_converted (snd r) =
       EUpdate 0 :: ECallback 0 (VNum 1) (Some 0) :: evs /\ called evs = []) /\
  target (snd r) = None.
Proof.
  cbn zeta.
  destruct (callback_runs_inside_context 2 (VObj 0) "a" (cb_read (VObj 1) "c")
              ex_converted (VNum 1)
              (snd (reduce_path 2 ["a"] (VObj 0)
                 (discovering (mkWatcher 0 (VObj 0) "a" (cb_read (VObj 1) "c"))
                    ex_converted))))
    as (H1 & H2 & _).
  - vm_compute. reflexivity.
  - split; [exact H1|]. apply H2. vm_compute. reflexivity.
Defined.

(** C3 fails as stated: the initial callback of a tracker on [a] is entered
    with the context still pointing at that tracker, so its read of the
    field [c], which the key path never traverses, subscribes it to [c]. *)
Lemma initial_callback_sees_active_context :
  let r := Watcher_constructor 2 (VObj 0) "a" (cb_read (VObj 1) "c")
             ex_converted in
  is_ok (fst r) = true /\
  new_events ex_converted (snd r) =
    [EUpdate 0; ECallback 0 (VNum 1) (Some 0)] /\
  own_prop ex_converted 1 "c" = Some (PReactive (VNum 2) 1) /\
  Dep_subs ex_converted 1 = [] /\
  w_id <$> Dep_subs (snd r) 1 = [0].
Proof. vm_compute. repeat split. Qed.

(** ** The fan-out of [notify()] (C2, C7) *)

Lemma forEach_app {A} (l1 l2 : list A) (f : A -> M unit) st :
  forEach (l1 ++ l2) f st = bind (forEach l1 f) (fun _ => forEach l2 f) st.
Proof.
  revert st. induction l1 as [|x l1 IH]; intros st; simpl.
  - reflexivity.
  - unfold bind. destruct (f x st) as [[[]|e] st1].
    + rewrite IH. reflexivity.
    + reflexivity.
Qed.

(** One [update()] logs its own entry first, then at most its callback's
    entry, and the callback's entry whenever it returns. *)
Lemma Watcher_update_events d w st :
  exists evs,
    trace (snd (Watcher_update d w st)) = trace st ++ EUpdate (w_id w) :: evs /\
    invoked evs = [] /\
    (is_ok (fst (Watcher_update d w st)) = true -> called evs = [w_id w]).
Proof.
  unfold Watcher_update, bind, log. fold (entered w st).
  destruct (reduce_path d (split_key (w_key w)) (w_vm w) (entered w st))
    as [[v|e] st1] eqn:Hres;
    apply reduce_path_run in Hres; destruct Hres as (_ & _ & _ & Htr & _).
  - unfold call_cb, bind, get_target, log.
    set (st2 := with_trace _ st1).
    pose proof (run_script_quiet d (w_cb w v) st2 I) as [_ (evs & He & Hi & Hc)].
    exists (ECallback (w_id w) v (w_id <$> target st1) :: evs).
    split; [|split].
    + destruct (run_script d (w_cb w v) st2) as [[[]|e] st3];
        cbn [fst snd] in *; rewrite He; unfold st2; cbn [trace with_trace];
        rewrite Htr; unfold entered; cbn [trace with_trace];
        rewrite <- !app_assoc; reflexivity.
    + simpl. exact Hi.
    + intros _. simpl. rewrite Hc. reflexivity.
  - exists []. cbn [fst snd is_ok]. rewrite Htr. unfold entered.
    cbn [trace with_trace]. split; [reflexivity|]. split; [reflexivity|].
    discriminate.
Qed.

Lemma forEach_update_events d l st r st' :
  forEach l (Watcher_update d) st = (r, st') ->
  exists evs,
    trace st' = trace st ++ evs /\
    invoked evs `prefix_of` (w_id <$> l) /\
    (is_ok r = true -> invoked evs = w_id <$> l /\ called evs = w_id <$> l).
Proof.
  revert st r st'. induction l as [|w l IH]; intros st r st' E; simpl in E.
  - injection E as <- <-. exists []. rewrite app_nil_r. repeat split; reflexivity.
  - unfold bind in E.
    destruct (Watcher_update_events d w st) as (e1 & H1 & I1 & C1).
    destruct (Watcher_update d w st) as [[[]|e] st1]; cbn [fst snd] in *.
    + destruct (IH _ _ _ E) as (e2 & H2 & P2 & O2).
      exists (EUpdate (w_id w) :: e1 ++ e2). split; [|split].
      * rewrite H2, H1, <- app_assoc. reflexivity.
      * cbn [invoked fmap list_fmap]. rewrite invoked_app, I1.
        apply prefix_cons. exact P2.
      * intros Hok. destruct (O2 Hok) as [O3 O4].
        cbn [invoked called fmap list_fmap].
        rewrite invoked_app, called_app, I1, (C1 eq_refl), O3, O4.
        split; reflexivity.
    + injection E as <- <-. exists (EUpdate (w_id w) :: e1).
      split; [exact H1|]. split; [|discriminate].
      cbn [invoked fmap list_fmap]. rewrite I1. apply prefix_cons, prefix_nil.
Qed.

(** C2, as amended.  [notify()] isolates nothing: when the tracker [t]
    raises after the trackers [l1] before it returned, [notify()] raises
    the same exception from the store [t] left, and of the recorded
    trackers only [l1] and [t] have had [update()] entered; none of [l2],
    recorded after [t], is notified. *)
Theorem notify_stops_at_first_raise d dep st l1 t l2 st1 e st2 :
  Dep_subs st dep = l1 ++ t :: l2 ->
  forEach l1 (Watcher_update d) st = (Ok tt, st1) ->
  Watcher_update d t st1 = (Err e, st2) ->
  Dep_notify d dep st = (Err e, st2) /\
  invoked (new_events st st2) = (w_id <$> l1) ++ [w_id t].
Proof.
  intros Hsubs Hl1 Ht. split.
  - unfold Dep_notify, bind. rewrite Hsubs, forEach_app. unfold bind.
    rewrite Hl1. simpl. unfold bind. rewrite Ht. reflexivity.
  - destruct (forEach_update_events d l1 st _ _ Hl1) as (e1 & H1 & _ & O1).
    destruct (O1 eq_refl) as [O2 _].
    destruct (Watcher_update_events d t st1) as (e2 & H2 & I2 & _).
    rewrite Ht in H2. cbn [snd] in H2.
    rewrite (new_events_app st st2 (e1 ++ EUpdate (w_id t) :: e2)).
    + rewrite invoked_app. cbn [invoked]. rewrite I2, O2. reflexivity.
    + rewrite H2, H1, <- app_assoc. reflexivity.
Qed.

Lemma notify_stops_at_first_raise_witness :
  Dep_notify 2 0 ex_two_stored =
    (Err (Thrown (VStr "boom")),
     snd (Watcher_update 2 ex_tracker0 ex_two_stored)) /\
  invoked (new_events ex_two_stored
             (snd (Watcher_update 2 ex_tracker0 ex_two_stored))) =
    (w_id <$> []) ++ [w_id ex_tracker0].
Proof.
  apply (notify_stops_at_first_raise 2 0 ex_two_stored [] ex_tracker0
           [ex_tracker1] ex_two_stored);
    vm_compute; reflexivity.
Defined.

(** C2 fails as stated: with two trackers recorded on [a], the first of
    which throws when handed 2, the write [a = 2] raises out of the
    fan-out and the second tracker's [update()] is never entered. *)
Lemma raising_tracker_starves_the_rest :
  let r := set_field 2 (VObj 0) "a" (VNum 2) ex_two_trackers in
  w_id <$> Dep_subs ex_two_trackers 0 = [0; 1] /\
  fst r = Err (Thrown (VStr "boom")) /\
  invoked (new_events ex_two_trackers (snd r)) = [0] /\
  peek (snd r) 0 "a" = Some (VNum 2).
Proof. vm_compute. repeat split. Qed.

Lemma write_enters_updates_in_order d l k cur dep v st r st' :
  own_prop st l k = Some (PReactive cur dep) ->
  strict_eq cur v = false ->
  set_field d (VObj l) k v st = (r, st') ->
  invoked (new_events st st') `prefix_of` (w_id <$> Dep_subs st dep) /\
  (r = Ok tt ->
   invoked (new_events st st') = w_id <$> Dep_subs st dep /\
   called (new_events st st') = w_id <$> Dep_subs st dep).
Proof.
  intros Hp Hne E.
  assert (E' : reactive_set d l k cur dep v st = (r, st')).
  { destruct d; simpl in E; rewrite Hp in E; exact E. }
  unfold reactive_set in E'. rewrite Hne in E'.
  unfold bind, defineProperty, Dep_notify, bind in E'.
  set (st0 := with_heap _ st) in E'.
  change (Dep_subs st0 dep) with (Dep_subs st dep) in E'.
  destruct (forEach_update_events d _ st0 r st' E') as (evs & H & Hpre & Hok).
  change (trace st0) with (trace st) in H.
  rewrite (new_events_app st st' evs H). split; [exact Hpre|].
  intros ->. apply Hok. reflexivity.
Qed.

(** One [update()] enters at most the callback of its own tracker. *)
Lemma Watcher_update_called d w st :
  exists evs,
    trace (snd (Watcher_update d w st)) = trace st ++ EUpdate (w_id w) :: evs /\
    invoked evs = [] /\
    called evs `prefix_of` [w_id w].
Proof.
  unfold Watcher_update, bind, log. fold (entered w st).
  destruct (reduce_path d (split_key (w_key w)) (w_vm w) (entered w st))
    as [[v|e] st1] eqn:Hres;
    apply reduce_path_run in Hres; destruct Hres as (_ & _ & _ & Htr & _).
  - unfold call_cb, bind, get_target, log.
    set (st2 := with_trace _ st1).
    pose proof (run_script_quiet d (w_cb w v) st2 I) as [_ (evs & He & Hi & Hc)].
    exists (ECallback (w_id w) v (w_id <$> target st1) :: evs).
    split; [|split].
    + destruct (run_script d (w_cb w v) st2) as [[[]|e] st3];
        cbn [fst snd] in *; rewrite He; unfold st2; cbn [trace with_trace];
        rewrite Htr; unfold entered; cbn [trace with_trace];
        rewrite <- !app_assoc; reflexivity.
    + simpl. exact Hi.
    + simpl. rewrite Hc. reflexivity.
  - exists []. cbn [fst snd]. rewrite Htr. unfold entered.
    cbn [trace with_trace]. split; [reflexivity|]. split; [reflexivity|].
    apply prefix_nil.
Qed.

(** The callbacks a fan-out enters are those of the trackers whose
    [update()] it entered, in that order; the last of these may have
    raised before its callback. *)
Lemma forEach_update_called d l st r st' :
  forEach l (Watcher_update d) st = (r, st') ->
  called (new_events st st') `prefix_of` invoked (new_events st st').
Proof.
  intros E.
  assert (H : exists evs,
    trace st' = trace st ++ evs /\ called evs `prefix_of` invoked evs).
  { revert st r st' E. induction l as [|w l IH]; intros st r st' E;
      simpl in E.
    - injection E as <- <-. exists []. rewrite app_nil_r.
      split; reflexivity.
    - unfold bind in E.
      destruct (Watcher_update_events d w st) as (e1 & H1 & I1 & C1).
      destruct (Watcher_update_called d w st) as (e1' & H1' & _ & P1).
      assert (e1' = e1).
      { rewrite H1 in H1'. apply app_inv_head in H1'. congruence. }
      subst e1'.
      destruct (Watcher_update d w st) as [[[]|e] st1]; cbn [fst snd] in *.
      + destruct (IH _ _ _ E) as (e2 & H2 & P2).
        exists (EUpdate (w_id w) :: e1 ++ e2). split.
        * rewrite H2, H1, <- app_assoc. reflexivity.
        * cbn [invoked called]. rewrite invoked_app, called_app, I1,
            (C1 eq_refl). cbn [app]. apply prefix_cons. exact P2.
      + injection E as <- <-. exists (EUpdate (w_id w) :: e1).
        split; [exact H1|]. cbn [invoked called]. rewrite I1. exact P1. }
  destruct H as (evs & Htr & Hp).
  rewrite (new_events_app st st' evs Htr). exact Hp.
Qed.




(** ** Static dependency discovery (C6) *)

Lemma same_memberships_refl i st : same_memberships i st st.
Proof. intros dep. reflexivity. Qed.

Lemma same_memberships_trans i s1 s2 s3 :
  same_memberships i s1 s2 -> same_memberships i s2 s3 ->
  same_memberships i s1 s3.
Proof. intros H1 H2 dep. rewrite H2. apply H1. Qed.

Lemma Dep_subs_constructor st dep :
  Dep_subs (snd (Dep_constructor st)) dep = Dep_subs st dep.
Proof.
  unfold Dep_subs, Dep_constructor. cbn [snd deps with_deps].
  destruct (Nat.lt_ge_cases dep (length (deps st))) as [Hlt|Hge].
  - rewrite lookup_app_l by exact Hlt. reflexivity.
  - rewrite lookup_app_r by exact Hge.
    rewrite (lookup_ge_None_2 (deps st) dep Hge).
    destruct (dep - length (deps st)) as [|n]; reflexivity.
Qed.

(** Steps that touch neither subscriber lists nor the context. *)
Lemma keeps_idle_inert {A} i (m : M A) :
  (forall st, deps (snd (m st)) = deps st /\
              target (snd (m st)) = target st /\
              next_wid (snd (m st)) = next_wid st) ->
  keeps (idle i) (same_memberships i) m.
Proof.
  intros H st [Hn Ht]. destruct (H st) as (Hd & Htg & Hnw). split.
  - unfold idle. rewrite Htg, Hnw. auto.
  - intros dep. unfold memberships, Dep_subs. rewrite Hd. reflexivity.
Qed.

Lemma log_idle i e : keeps (idle i) (same_memberships i) (log e).
Proof. apply keeps_idle_inert. intros st. simpl. auto. Qed.

Lemma get_target_idle i : keeps (idle i) (same_memberships i) get_target.
Proof. apply keeps_idle_inert. intros st. simpl. auto. Qed.

Lemma defineProperty_idle i l k p :
  keeps (idle i) (same_memberships i) (defineProperty l k p).
Proof. apply keeps_idle_inert. intros st. simpl. auto. Qed.

Lemma Dep_constructor_idle i :
  keeps (idle i) (same_memberships i) Dep_constructor.
Proof.
  intros st Hi. split; [exact Hi|]. intros dep. unfold memberships.
  rewrite Dep_subs_constructor. reflexivity.
Qed.

Lemma Dep_addSub_idle i dep w :
  w_id w <> i -> keeps (idle i) (same_memberships i) (Dep_addSub dep w).
Proof.
  intros Hw st Hi. split; [exact Hi|]. intros dep'. unfold memberships.
  rewrite Dep_subs_addSub.
  destruct (Nat.eqb dep' dep && Nat.ltb dep (length (deps st))) eqn:E;
    [|reflexivity].
  apply andb_true_iff in E. destruct E as [E _].
  apply Nat.eqb_eq in E. subst dep'. rewrite filter_app.
  replace (filter (fun w0 => has_id i w0 = true) [w]) with (@nil watcher).
  - apply app_nil_r.
  - symmetry. rewrite filter_cons_False; [reflexivity|].
    unfold has_id. intros E. apply Nat.eqb_eq in E. contradiction.
Qed.

Ltac keeps_idle i prim :=
  keeps_with (same_memberships_refl i) (same_memberships_trans i) prim.

Lemma reactive_get_idle i val dep :
  keeps (idle i) (same_memberships i) (reactive_get val dep).
Proof.
  intros st Hi. unfold reactive_get, bind, get_target.
  destruct (target st) as [w|] eqn:Ht.
  - assert (Hw : w_id w <> i).
    { destruct Hi as [_ Hi]. rewrite Ht in Hi. simpl in Hi. congruence. }
    destruct (Dep_addSub_idle i dep w Hw st Hi) as [H1 H2]. split; assumption.
  - simpl. split; [exact Hi | apply same_memberships_refl].
Qed.

Lemma get_field_idle i d o k :
  keeps (idle i) (same_memberships i) (get_field d o k).
Proof.
  revert o k. induction d as [|d IH]; intros o k st HP;
    destruct o; simpl;
    try (split; [exact HP | apply same_memberships_refl]);
    destruct (own_prop st _ k) as [[v|v dep|key]|];
    try (split; [exact HP | apply same_memberships_refl]);
    try (apply (reactive_get_idle i v dep st HP)).
  apply (keeps_bind (idle i) (same_memberships i) (same_memberships_trans i));
    [apply IH | intro; apply IH | exact HP].
Qed.

Lemma reduce_path_idle i d segs v :
  keeps (idle i) (same_memberships i) (reduce_path d segs v).
Proof.
  revert v. induction segs as [|k segs IH]; intros v; simpl;
    keeps_idle i ltac:(auto using get_field_idle).
Qed.

Lemma run_script_idle i d s :
  keeps (idle i) (same_memberships i) (run_script d s).
Proof.
  induction s as [|e|v s IH|o key k IH]; simpl;
    keeps_idle i ltac:(auto using get_field_idle, log_idle).
Qed.

Lemma Watcher_update_idle i d w :
  keeps (idle i) (same_memberships i) (Watcher_update d w).
Proof.
  unfold Watcher_update, call_cb.
  keeps_idle i ltac:(auto using log_idle, reduce_path_idle, run_script_idle,
                       get_target_idle).
Qed.

Lemma Dep_notify_idle i d dep :
  keeps (idle i) (same_memberships i) (Dep_notify d dep).
Proof.
  unfold Dep_notify. keeps_idle i ltac:(auto using Watcher_update_idle).
  apply keeps_idle_inert. intros st. simpl. auto.
Qed.

Lemma set_field_idle i d o k v :
  keeps (idle i) (same_memberships i) (set_field d o k v).
Proof.
  revert o k. induction d as [|d IH]; intros o k st HP;
    destruct o; simpl;
    try (split; [exact HP | apply same_memberships_refl]);
    destruct (own_prop st _ k) as [[x|x dep|key]|];
    try (apply (defineProperty_idle i _ k (PData v) st HP));
    try (split; [exact HP | apply same_memberships_refl]);
    try (revert st HP; unfold reactive_set; destruct (strict_eq x v);
         keeps_idle i ltac:(auto using defineProperty_idle, Dep_notify_idle)).
  pose proof (keeps_bind (idle i) (same_memberships i)
                (same_memberships_trans i)
                (get_field d (VObj l) "$data")
                (fun data => set_field d data key v)
                (get_field_idle i d _ _) (fun a => IH a key) st HP) as H.
  unfold bind in H. exact H.
Qed.

Lemma observe_idle i d data :
  keeps (idle i) (same_memberships i) (observe d data).
Proof.
  revert data. induction d as [|d IH]; intros data st HP;
    destruct data; simpl;
    try (split; [exact HP | apply same_memberships_refl]).
  revert HP. generalize (Object_keys st l). intros keys. revert st.
  change (keeps (idle i) (same_memberships i)
            (forEach keys (fun key =>
               bind (get_field d (VObj l) key)
                 (fun val => defineReactive (observe d) l key val)))).
  unfold defineReactive.
  keeps_idle i ltac:(auto using get_field_idle, Dep_constructor_idle,
                       defineProperty_idle).
Qed.

Lemma Watcher_constructor_idle i d vm key cb :
  keeps (idle i) (same_memberships i) (Watcher_constructor d vm key cb).
Proof.
  intros st [Hn Ht]. unfold Watcher_constructor. cbn zeta.
  set (this := mkWatcher (next_wid st) vm key cb).
  set (st0 := with_target (Some this) (with_next_wid (S (next_wid st)) st)).
  assert (H0 : idle i st0).
  { split; simpl; [lia|]. intros E. injection E as E. lia. }
  assert (Hm : keeps (idle i) (same_memberships i)
                 (Watcher_update d this ;;; set_target None ;;; ret this)).
  { keeps_idle i ltac:(auto using Watcher_update_idle).
    intros s [Hs _]. split; [split; [exact Hs | discriminate]
                            | intros dep; reflexivity]. }
  destruct (Hm st0 H0) as [H1 H2]. unfold bind at 1. unfold set_target at 1.
  split; [exact H1|]. intros dep. rewrite H2. reflexivity.
Qed.

Lemma keys_of_idle i v : keeps (idle i) (same_memberships i) (keys_of v).
Proof. destruct v; apply keeps_idle_inert; intros st; simpl; auto. Qed.

Lemma call_proxy_idle i d this key :
  keeps (idle i) (same_memberships i) (call_proxy d this key).
Proof.
  apply keeps_call_proxy; [apply defineProperty_idle|].
  keeps_idle i ltac:(auto using get_field_idle).
Qed.

Lemma Vue_constructor_idle i d options :
  keeps (idle i) (same_memberships i) (Vue_constructor d options).
Proof.
  intros st Hi. unfold Vue_constructor. cbn zeta.
  set (st0 := with_heap _ st).
  assert (H0 : idle i st0) by exact Hi.
  match goal with |- context [snd (?m st0)] =>
    assert (Hm : keeps (idle i) (same_memberships i) m) end.
  { unfold Observer_constructor.
    keeps_idle i ltac:(auto using get_field_idle, set_field_idle,
                         call_proxy_idle, observe_idle, keys_of_idle). }
  destruct (Hm st0 H0) as [H1 H2]. split; [exact H1|].
  intros dep. rewrite H2. reflexivity.
Qed.

Lemma run_op_idle i d o st :
  idle i st -> idle i (run_op d o st) /\ same_memberships i st (run_op d o st).
Proof.
  intros Hi. destruct o; simpl.
  - apply (get_field_idle i d o k st Hi).
  - apply (set_field_idle i d o k v st Hi).
  - apply (Watcher_update_idle i d w st Hi).
  - apply (Watcher_constructor_idle i d vm key cb st Hi).
  - apply (observe_idle i d data st Hi).
  - apply (Vue_constructor_idle i d options st Hi).
Qed.

Lemma run_ops_idle i d ops st :
  idle i st ->
  idle i (run_ops d ops st) /\ same_memberships i st (run_ops d ops st).
Proof.
  revert st. induction ops as [|o ops IH]; intros st Hi; simpl.
  - split; [exact Hi | apply same_memberships_refl].
  - destruct (run_op_idle i d o st Hi) as [H1 H2].
    destruct (IH _ H1) as [H3 H4]. split; [exact H3|].
    eapply same_memberships_trans; eassumption.
Qed.




(** ** Conversion ([observe]) *)

Lemma prop_evolves_refl n p : prop_evolves n p p.
Proof. destruct p; simpl; auto. Qed.

Lemma prop_evolves_trans n n' p1 p2 p3 :
  n <= n' -> prop_evolves n p1 p2 -> prop_evolves n' p2 p3 ->
  prop_evolves n p1 p3.
Proof.
  intros Hn. destruct p1 as [q1|], p2 as [q2|], p3 as [q3|]; simpl;
    try tauto.
  intros [->|(v & dep & -> & Hd & Hv)] [->|(v' & dep' & -> & Hd' & Hv')].
  - left. reflexivity.
  - right. exists v', dep'. repeat split; [lia | exact Hv'].
  - right. exists v, dep. repeat split; [exact Hd | exact Hv].
  - right. exists v', dep'. repeat split; [lia|].
    intros v0 H0. rewrite (Hv _ H0). apply Hv'. reflexivity.
Qed.

Lemma converts_refl st : converts st st.
Proof.
  unfold converts. repeat split; auto. intros. apply prop_evolves_refl.
Qed.

Lemma converts_trans s1 s2 s3 :
  converts s1 s2 -> converts s2 s3 -> converts s1 s3.
Proof.
  intros (T1 & N1 & R1 & L1 & K1 & A1 & P1) (T2 & N2 & R2 & L2 & K2 & A2 & P2).
  unfold converts.
  split; [congruence|]. split; [congruence|]. split; [congruence|].
  split; [lia|]. split; [|split].
  - intros l. rewrite K2. apply K1.
  - intros l. rewrite A2. apply A1.
  - intros l k. eapply prop_evolves_trans; [exact L1 | apply P1 | apply P2].
Qed.

Lemma same_heap_own_prop st st' l k :
  heap st' = heap st -> own_prop st' l k = own_prop st l k.
Proof. unfold own_prop. intros ->. reflexivity. Qed.

Lemma same_heap_keys st st' l :
  heap st' = heap st -> Object_keys st' l = Object_keys st l.
Proof. unfold Object_keys. intros ->. reflexivity. Qed.

Lemma reads_converts st st' : reads st st' -> converts st st'.
Proof.
  intros (Hh & Ht & Hn & Htr & Hl). unfold converts.
  repeat split; auto; try lia.
  - intros l. apply same_heap_keys, Hh.
  - intros l. rewrite Hh. reflexivity.
  - intros l k. rewrite (same_heap_own_prop st st' l k Hh).
    apply prop_evolves_refl.
Qed.

Lemma converts_peek st st' l k v :
  converts st st' -> peek st l k = Some v -> peek st' l k = Some v.
Proof.
  intros (_ & _ & _ & _ & _ & _ & P). specialize (P l k). unfold peek.
  destruct (own_prop st l k) as [q|], (own_prop st' l k) as [q'|];
    simpl in P; try tauto; try discriminate.
  destruct P as [->|(v' & dep & -> & _ & Hv)]; [auto|].
  intros H. simpl. rewrite (Hv _ H). reflexivity.
Qed.

Lemma converts_reactive st st' l k :
  converts st st' ->
  is_reactive (own_prop st l k) -> is_reactive (own_prop st' l k).
Proof.
  intros (_ & _ & _ & _ & _ & _ & P). specialize (P l k).
  destruct (own_prop st l k) as [q|], (own_prop st' l k) as [q'|];
    simpl in *; try tauto.
  destruct P as [->|(v' & dep & -> & _)]; auto.
Qed.

Lemma converts_is_Some st st' l k :
  converts st st' ->
  is_Some (own_prop st l k) -> is_Some (own_prop st' l k).
Proof.
  intros (_ & _ & _ & _ & K & _). rewrite !own_prop_keys, K. auto.
Qed.

Lemma get_field_peek d l k st q v0 :
  own_prop st l k = Some q -> peek_prop q = Some v0 ->
  fst (get_field d (VObj l) k st) = Ok v0.
Proof.
  intros Hp Hq. destruct d; simpl; rewrite Hp; destruct q; simpl in Hq;
    try discriminate; injection Hq as ->; try reflexivity;
    unfold reactive_get, bind, get_target; destruct (target st); reflexivity.
Qed.

Lemma get_field_run d o k st r st' :
  get_field d o k st = (r, st') -> reads st st'.
Proof.
  intros E. destruct (get_field_reads d o k st I) as [_ H].
  rewrite E in H. exact H.
Qed.

Lemma is_array_defineProperty l k p st l' :
  is_array <$> heap (snd (defineProperty l k p st)) !! l' =
  is_array <$> heap st !! l'.
Proof.
  unfold defineProperty. cbn [snd heap with_heap].
  destruct (Nat.eq_dec l' l) as [->|Hne].
  - rewrite list_lookup_alter_eq. destruct (heap st !! l); reflexivity.
  - rewrite list_lookup_alter_ne by congruence. reflexivity.
Qed.

(** One [defineReactive] on an existing key, given what the nested
    [observe] does. *)
Lemma defineReactive_converts (obs : value -> M unit) l key val st :
  (forall s, converts s (snd (obs val s))) ->
  is_Some (own_prop st l key) ->
  (forall v0, peek st l key = Some v0 -> v0 = val) ->
  converts st (snd (defineReactive obs l key val st)).
Proof.
  intros Hobs Hsome Hval. unfold defineReactive, bind.
  pose proof (Hobs st) as Hc.
  destruct (obs val st) as [[[]|e] sb]; cbn [snd] in *; [|exact Hc].
  unfold Dep_constructor.
  set (sc := with_deps (deps sb ++ [[]]) sb).
  pose proof (converts_is_Some st sb l key Hc Hsome) as Hsome'.
  destruct Hc as (T1 & N1 & R1 & L1 & K1 & A1 & P1).
  unfold converts. repeat split.
  - exact T1.
  - exact N1.
  - exact R1.
  - cbn [snd defineProperty deps with_heap with_deps sc].
    rewrite length_app. simpl. lia.
  - intros l'. rewrite (Object_keys_defineProperty sc l l' key); [apply K1|].
    exact Hsome'.
  - intros l'. rewrite is_array_defineProperty. apply A1.
  - intros l' k'. rewrite own_prop_defineProperty.
    change (heap sc) with (heap sb). change (own_prop sc l' k') with (own_prop sb l' k').
    destruct (Nat.eqb_spec l' l) as [->|Hne]; cbn [andb]; [|apply P1].
    destruct (String.eqb_spec k' key) as [->|Hne]; [|apply P1].
    destruct Hsome as [q Hq]. rewrite Hq.
    destruct Hsome' as [q' Hq']. unfold own_prop in Hq'.
    destruct (heap sb !! l); [|discriminate]. simpl. right.
    exists val, (length (deps sb)). repeat split; [exact L1|].
    intros v0 H0. apply Hval. unfold peek. rewrite Hq. exact H0.
Qed.

Lemma observe_body_converts d l key st :
  (forall v s, converts s (snd (observe d v s))) ->
  is_Some (own_prop st l key) ->
  converts st
    (snd (bind (get_field d (VObj l) key)
            (fun val => defineReactive (observe d) l key val) st)).
Proof.
  intros IH Hsome. unfold bind.
  destruct (get_field d (VObj l) key st) as [[val|e] sa] eqn:Hg.
  - pose proof (get_field_run _ _ _ _ _ _ Hg) as Hr.
    eapply converts_trans; [apply reads_converts, Hr|].
    apply defineReactive_converts.
    + intros s. apply IH.
    + eapply converts_is_Some; [apply reads_converts, Hr | exact Hsome].
    + intros v0 Hv0. unfold peek in Hv0.
      rewrite (same_heap_own_prop st sa l key (proj1 Hr)) in Hv0.
      destruct (own_prop st l key) as [q|] eqn:Hq; [|discriminate].
      pose proof (get_field_peek d l key st q v0 Hq Hv0) as H.
      rewrite Hg in H. simpl in H. congruence.
  - apply reads_converts, (get_field_run _ _ _ _ _ _ Hg).
Qed.

Lemma observe_keys_converts d l keys st :
  (forall v s, converts s (snd (observe d v s))) ->
  (forall k, In k keys -> is_Some (own_prop st l k)) ->
  converts st
    (snd (forEach keys
            (fun key => bind (get_field d (VObj l) key)
                          (fun val => defineReactive (observe d) l key val))
            st)).
Proof.
  intros IH. revert st. induction keys as [|key keys IHk]; intros st Hk.
  - apply converts_refl.
  - simpl. unfold bind at 1.
    pose proof (observe_body_converts d l key st IH (Hk key (or_introl eq_refl)))
      as Hb.
    destruct (bind (get_field d (VObj l) key) _ st) as [[[]|e] s1];
      cbn [snd] in *; [|exact Hb].
    eapply converts_trans; [exact Hb|]. apply IHk.
    intros k Hin. eapply converts_is_Some; [exact Hb|]. apply Hk. now right.
Qed.

Lemma observe_converts d data st : converts st (snd (observe d data st)).
Proof.
  revert data st. induction d as [|d IH]; intros data st;
    destruct data; simpl; try apply converts_refl.
  apply observe_keys_converts; [exact IH|].
  intros k Hin. apply own_prop_keys. exact Hin.
Qed.

Lemma converts_keys_iff st st' l k :
  converts st st' ->
  is_Some (own_prop st' l k) <-> is_Some (own_prop st l k).
Proof. intros (_ & _ & _ & _ & K & _). rewrite !own_prop_keys, K. tauto. Qed.

(** The last two steps of [defineReactive]: a fresh [Dep], then the
    accessor pair. *)
Lemma install_converts l key val st :
  is_Some (own_prop st l key) ->
  (forall v0, peek st l key = Some v0 -> v0 = val) ->
  converts st
    (snd (bind Dep_constructor
            (fun dep => defineProperty l key (PReactive val dep)) st)).
Proof.
  intros Hsome Hval.
  pose proof (defineReactive_converts (fun _ => ret tt) l key val st
                (fun s => converts_refl s) Hsome Hval) as H.
  exact H.
Qed.

Lemma install_reactive l key val st :
  is_Some (own_prop st l key) ->
  own_prop
    (snd (bind Dep_constructor
            (fun dep => defineProperty l key (PReactive val dep)) st)) l key =
  Some (PReactive val (length (deps st))).
Proof.
  intros [q Hq]. unfold bind, Dep_constructor.
  rewrite own_prop_defineProperty, Nat.eqb_refl, String.eqb_refl. cbn [andb].
  cbn [heap with_deps]. unfold own_prop in Hq.
  destruct (heap st !! l); [reflexivity | discriminate].
Qed.

Lemma observe_body_reactive d l key st st' :
  is_Some (own_prop st l key) ->
  bind (get_field d (VObj l) key)
    (fun val => defineReactive (observe d) l key val) st = (Ok tt, st') ->
  is_reactive (own_prop st' l key).
Proof.
  intros Hsome E. unfold bind in E.
  destruct (get_field d (VObj l) key st) as [[val|e] sa] eqn:Hg;
    [|discriminate].
  pose proof (reads_converts _ _ (get_field_run _ _ _ _ _ _ Hg)) as Hr.
  unfold defineReactive in E. unfold bind at 1 in E.
  pose proof (observe_converts d val sa) as Hc.
  destruct (observe d val sa) as [[[]|e] sb]; [|discriminate].
  cbn [snd] in Hc.
  assert (Hsb : is_Some (own_prop sb l key)).
  { eapply converts_is_Some; [exact Hc|].
    eapply converts_is_Some; [exact Hr | exact Hsome]. }
  pose proof (install_reactive l key val sb Hsb) as Hi.
  rewrite E in Hi. cbn [snd] in Hi. rewrite Hi. exact I.
Qed.

Lemma observe_keys_reactive d l keys st st' :
  (forall k, In k keys -> is_Some (own_prop st l k)) ->
  forEach keys
    (fun key => bind (get_field d (VObj l) key)
                  (fun val => defineReactive (observe d) l key val)) st =
    (Ok tt, st') ->
  forall k, In k keys -> is_reactive (own_prop st' l k).
Proof.
  revert st. induction keys as [|key keys IH]; intros st Hk E k Hin.
  - destruct Hin.
  - simpl in E. unfold bind at 1 in E.
    pose proof (observe_body_converts d l key st
                  (fun v s => observe_converts d v s)
                  (Hk key (or_introl eq_refl))) as Hb.
    destruct (bind (get_field d (VObj l) key) _ st) as [[[]|e] s1] eqn:E1;
      [|discriminate].
    cbn [snd] in Hb.
    pose proof (observe_keys_converts d l keys s1
                  (fun v s => observe_converts d v s)) as Hrest.
    assert (Hk1 : forall k0, In k0 keys -> is_Some (own_prop s1 l k0)).
    { intros k0 H0. eapply converts_is_Some; [exact Hb|]. apply Hk. now right. }
    specialize (Hrest Hk1). rewrite E in Hrest. cbn [snd] in Hrest.
    destruct Hin as [<-|Hin].
    + eapply converts_reactive; [exact Hrest|].
      apply (observe_body_reactive d l key st s1 (Hk key (or_introl eq_refl)) E1).
    + apply (IH s1 Hk1 E k Hin).
Qed.

Lemma observe_makes_reactive d l st st' :
  observe d (VObj l) st = (Ok tt, st') ->
  forall k, is_Some (own_prop st' l k) -> is_reactive (own_prop st' l k).
Proof.
  intros E k Hk. pose proof (observe_converts d (VObj l) st) as Hc.
  rewrite E in Hc. cbn [snd] in Hc.
  destruct d as [|d]; simpl in E; [discriminate|].
  apply (observe_keys_reactive d l (Object_keys st l) st st').
  - intros k0 H0. apply own_prop_keys. exact H0.
  - exact E.
  - apply own_prop_keys. apply (converts_keys_iff st st' l k Hc). exact Hk.
Qed.

(** The step of the loop that handles a given key, with the stores before
    and after it. *)
Lemma observe_keys_at d l keys st st' k :
  (forall k0, In k0 keys -> is_Some (own_prop st l k0)) ->
  forEach keys
    (fun key => bind (get_field d (VObj l) key)
                  (fun val => defineReactive (observe d) l key val)) st =
    (Ok tt, st') ->
  In k keys ->
  exists sa sb,
    converts st sa /\
    bind (get_field d (VObj l) k)
      (fun val => defineReactive (observe d) l k val) sa = (Ok tt, sb) /\
    converts sb st'.
Proof.
  revert st. induction keys as [|key keys IH]; intros st Hk E Hin.
  - destruct Hin.
  - simpl in E. unfold bind at 1 in E.
    pose proof (observe_body_converts d l key st
                  (fun v s => observe_converts d v s)
                  (Hk key (or_introl eq_refl))) as Hb.
    destruct (bind (get_field d (VObj l) key) _ st) as [[[]|e] s1] eqn:E1;
      [|discriminate].
    cbn [snd] in Hb.
    assert (Hk1 : forall k0, In k0 keys -> is_Some (own_prop s1 l k0)).
    { intros k0 H0. eapply converts_is_Some; [exact Hb|]. apply Hk. now right. }
    destruct Hin as [<-|Hin].
    + exists st, s1. split; [apply converts_refl|]. split; [exact E1|].
      pose proof (observe_keys_converts d l keys s1
                    (fun v s => observe_converts d v s) Hk1) as Hrest.
      rewrite E in Hrest. exact Hrest.
    + destruct (IH s1 Hk1 E Hin) as (sa & sb & H1 & H2 & H3).
      exists sa, sb. split; [|split; assumption].
      eapply converts_trans; eassumption.
Qed.

Lemma observe_reach_reactive st v l :
  reach st v l ->
  forall s d s',
    converts st s -> observe d v s = (Ok tt, s') ->
    forall k, is_Some (own_prop s' l k) -> is_reactive (own_prop s' l k).
Proof.
  induction 1 as [l|l0 k0 v l' Hpeek Hreach IH]; intros s d s' Hc E k Hk.
  - apply (observe_makes_reactive d l s s' E k Hk).
  - destruct d as [|d]; simpl in E; [discriminate|].
    assert (Hin : In k0 (Object_keys s l0)).
    { apply own_prop_keys. pose proof (converts_peek _ _ _ _ _ Hc Hpeek) as Hp.
      unfold peek in Hp. destruct (own_prop s l0 k0); [eauto | discriminate]. }
    destruct (observe_keys_at d l0 (Object_keys s l0) s s' k0
                (fun k1 H1 => proj2 (own_prop_keys s l0 k1) H1) E Hin)
      as (sa & sb & Hsa & Hbody & Hsb).
    unfold bind in Hbody.
    destruct (get_field d (VObj l0) k0 sa) as [[val|e] sa'] eqn:Hg;
      [|discriminate].
    pose proof (reads_converts _ _ (get_field_run _ _ _ _ _ _ Hg)) as Hr.
    assert (Hval : val = v).
    { pose proof (converts_peek _ _ _ _ _ (converts_trans _ _ _ Hc Hsa) Hpeek)
        as Hp.
      unfold peek in Hp. destruct (own_prop sa l0 k0) as [q|] eqn:Hq;
        [|discriminate].
      pose proof (get_field_peek d l0 k0 sa q v Hq Hp) as H.
      rewrite Hg in H. simpl in H. congruence. }
    subst val. unfold defineReactive in Hbody. unfold bind at 1 in Hbody.
    destruct (observe d v sa') as [[[]|e] sc] eqn:Hobs; [|discriminate].
    assert (Hc' : converts st sa').
    { eapply converts_trans; [|exact Hr].
      eapply converts_trans; eassumption. }
    assert (Hinst : converts sc sb).
    { assert (Hsome : is_Some (own_prop sc l0 k0)).
      { pose proof (observe_converts d v sa') as Ho. rewrite Hobs in Ho.
        eapply converts_is_Some; [exact Ho|].
        eapply converts_is_Some; [exact Hr|].
        apply own_prop_keys.
        destruct Hsa as (_ & _ & _ & _ & K & _). rewrite K. exact Hin. }
      pose proof (install_converts l0 k0 v sc Hsome) as Hi.
      rewrite Hbody in Hi. apply Hi.
      intros v0 H0.
      pose proof (observe_converts d v sa') as Ho. rewrite Hobs in Ho.
      pose proof (converts_peek _ _ _ _ _
                    (converts_trans _ _ _ Hc' Ho) Hpeek) as Hp.
      cbn [snd] in Hp. congruence. }
    pose proof (converts_trans _ _ _ Hinst Hsb) as Hfin.
    eapply converts_reactive; [exact Hfin|].
    apply (IH sa' d sc Hc' Hobs k).
    apply (converts_keys_iff sc s' l' k Hfin). exact Hk.
Qed.

(** ** Conversion returns on data without cycles *)

Lemma converts_no_proxy st st' : converts st st' -> no_proxy st -> no_proxy st'.
Proof.
  intros (_ & _ & _ & _ & _ & _ & P) Hnp l k key E.
  specialize (P l k). rewrite E in P.
  destruct (own_prop st l k) as [q|] eqn:Hq; simpl in P; [|exact P].
  destruct P as [<-|(v' & dep & Hx & _)]; [|discriminate].
  apply (Hnp l k key Hq).
Qed.

Lemma converts_peek_rev st st' l k v :
  no_proxy st -> converts st st' ->
  peek st' l k = Some v -> peek st l k = Some v.
Proof.
  intros Hnp (_ & _ & _ & _ & _ & _ & P). specialize (P l k). unfold peek.
  destruct (own_prop st l k) as [q|] eqn:Hq, (own_prop st' l k) as [q'|];
    simpl in P; try tauto; try discriminate.
  destruct P as [->|(v' & dep & -> & _ & Hv)]; [auto|].
  simpl. intros E. injection E as <-.
  destruct q as [v0|v0 dep0|key]; simpl.
  - rewrite (Hv v0 eq_refl). reflexivity.
  - rewrite (Hv v0 eq_refl). reflexivity.
  - exfalso. apply (Hnp l k key Hq).
Qed.

Lemma converts_nests st st' rk :
  no_proxy st -> converts st st' -> nests st rk -> nests st' rk.
Proof.
  intros Hnp Hc Hn l k l' Hp. apply (Hn l k l').
  apply (converts_peek_rev st st' l k _ Hnp Hc Hp).
Qed.

(** With a stack budget above the rank of the object, [observe] returns:
    it raises only on cyclic data or when the stack is too short for the
    nesting depth. *)
Lemma observe_returns rk d v st :
  no_proxy st -> nests st rk ->
  (forall l, v = VObj l -> rk l < d) ->
  fst (observe d v st) = Ok tt.
Proof.
  revert v st. induction d as [|d IH]; intros v st Hnp Hn Hd;
    destruct v as [| | | | |l]; try reflexivity.
  - specialize (Hd l eq_refl). lia.
  - simpl.
    assert (Hloop : forall keys s,
      converts st s ->
      (forall k, In k keys -> is_Some (own_prop s l k)) ->
      fst (forEach keys
             (fun key => bind (get_field d (VObj l) key)
                           (fun val => defineReactive (observe d) l key val))
             s) = Ok tt).
    { induction keys as [|key keys IHk]; intros s Hc Hk; [reflexivity|].
      simpl. unfold bind at 1.
      pose proof (observe_body_converts d l key s
                    (fun v0 s0 => observe_converts d v0 s0)
                    (Hk key (or_introl eq_refl))) as Hb.
      assert (Hok : fst (bind (get_field d (VObj l) key)
                (fun val => defineReactive (observe d) l key val) s) = Ok tt).
      { unfold bind. destruct (Hk key (or_introl eq_refl)) as [q Hq].
        pose proof (converts_no_proxy st s Hc Hnp) as Hnps.
        assert (Hpq : exists v0, peek_prop q = Some v0).
        { destruct q as [v0|v0 dep|key0]; simpl; eauto.
          exfalso. apply (Hnps l key key0 Hq). }
        destruct Hpq as [v0 Hv0].
        pose proof (get_field_peek d l key s q v0 Hq Hv0) as Hg.
        destruct (get_field d (VObj l) key s) as [[val|e] sa] eqn:Hg';
          simpl in Hg; [|discriminate].
        injection Hg as ->.
        pose proof (get_field_run _ _ _ _ _ _ Hg') as Hr.
        assert (Hca : converts st sa).
        { eapply converts_trans; [exact Hc | apply reads_converts, Hr]. }
        assert (Hobs : fst (observe d v0 sa) = Ok tt).
        { apply IH.
          - apply (converts_no_proxy st sa Hca Hnp).
          - apply (converts_nests st sa rk Hnp Hca Hn).
          - intros l' ->.
            assert (Hp : peek st l key = Some (VObj l')).
            { apply (converts_peek_rev st s l key _ Hnp Hc).
              unfold peek. rewrite Hq. exact Hv0. }
            specialize (Hn l key l' Hp). specialize (Hd l eq_refl). lia. }
        unfold defineReactive, bind.
        destruct (observe d v0 sa) as [[[]|e] sb]; [reflexivity|].
        simpl in Hobs. discriminate. }
      destruct (bind (get_field d (VObj l) key) _ s) as [[[]|e] s1];
        cbn [fst snd] in *; [|discriminate].
      apply IHk.
      - eapply converts_trans; eassumption.
      - intros k Hin. eapply converts_is_Some; [exact Hb|]. apply Hk. now right. }
    apply Hloop; [apply converts_refl|].
    intros k Hin. apply own_prop_keys. exact Hin.
Qed.

(** ** Subscriptions of converted fields *)

Lemma anything_refl st : anything st st.
Proof. exact I. Qed.

Lemma anything_trans s1 s2 s3 : anything s1 s2 -> anything s2 s3 -> anything s1 s3.
Proof. intros _ _. exact I. Qed.

Lemma deps_wf_same st st' :
  heap st' = heap st -> length (deps st') = length (deps st) ->
  deps_wf st -> deps_wf st'.
Proof.
  intros Hh Hl [B U]. split.
  - intros l k v dep. rewrite (same_heap_own_prop st st' l k Hh), Hl. apply B.
  - intros l k v dep l' k' v'.
    rewrite (same_heap_own_prop st st' l k Hh),
            (same_heap_own_prop st st' l' k' Hh). apply U.
Qed.

Lemma get_field_wf d o k : keeps deps_wf anything (get_field d o k).
Proof.
  intros st H. split; [|exact I].
  destruct (get_field_reads d o k st I) as [_ (Hh & _ & _ & _ & Hl)].
  apply (deps_wf_same st _ Hh Hl H).
Qed.

Lemma install_wf l key val :
  keeps deps_wf anything
    (bind Dep_constructor (fun dep => defineProperty l key (PReactive val dep))).
Proof.
  intros st [B U]. split; [|exact I]. unfold bind, Dep_constructor.
  set (sc := with_deps (deps st ++ [[]]) st).
  assert (Hlen : length (deps (snd (defineProperty l key
                   (PReactive val (length (deps st))) sc))) =
                 S (length (deps st))).
  { cbn [snd defineProperty deps with_heap with_deps sc].
    rewrite length_app. simpl. lia. }
  assert (Hown : forall l' k' v dep,
            own_prop (snd (defineProperty l key
              (PReactive val (length (deps st))) sc)) l' k' =
              Some (PReactive v dep) ->
            (l' = l /\ k' = key /\ dep = length (deps st)) \/
            (own_prop st l' k' = Some (PReactive v dep)
             /\ ~ (l' = l /\ k' = key))).
  { intros l' k' v dep. rewrite own_prop_defineProperty.
    change (heap sc) with (heap st).
    change (own_prop sc l' k') with (own_prop st l' k').
    destruct (Nat.eqb_spec l' l) as [->|Hne]; cbn [andb].
    - destruct (String.eqb_spec k' key) as [->|Hne].
      + destruct (heap st !! l); [|discriminate].
        intros E. injection E as <- <-. left. auto.
      + intros E. right. split; [exact E | tauto].
    - intros E. right. split; [exact E | tauto]. }
  split.
  - intros l' k' v dep E. rewrite Hlen.
    destruct (Hown _ _ _ _ E) as [(_ & _ & ->)|[E' _]]; [lia|].
    specialize (B _ _ _ _ E'). lia.
  - intros l1 k1 v1 dep l2 k2 v2 E1 E2.
    destruct (Hown _ _ _ _ E1) as [(-> & -> & ->)|[E1' _]];
      destruct (Hown _ _ _ _ E2) as [(-> & -> & Hd)|[E2' _]].
    + auto.
    + specialize (B _ _ _ _ E2'). lia.
    + specialize (B _ _ _ _ E1'). lia.
    + apply (U _ _ _ _ _ _ _ E1' E2').
Qed.

Lemma observe_wf d data : keeps deps_wf anything (observe d data).
Proof.
  revert data. induction d as [|d IH]; intros data st HP;
    destruct data; simpl; try (split; [exact HP | exact I]).
  revert HP. generalize (Object_keys st l). intros keys. revert st.
  change (keeps deps_wf anything
            (forEach keys (fun key =>
               bind (get_field d (VObj l) key)
                 (fun val => defineReactive (observe d) l key val)))).
  unfold defineReactive.
  keeps_with anything_refl anything_trans
    ltac:(auto using get_field_wf, install_wf).
Qed.

Lemma lookup_prop_In k ps p :
  lookup_prop k ps = Some p -> In (k, p) ps.
Proof.
  induction ps as [|[k0 p0] ps IH]; simpl; [discriminate|].
  destruct (String.eqb_spec k k0) as [->|Hne].
  - intros E. injection E as ->. now left.
  - intros E. right. auto.
Qed.

Lemma plain_heap_own_prop st l k p :
  plain_heap st = true -> own_prop st l k = Some p -> exists v, p = PData v.
Proof.
  unfold plain_heap, own_prop. intros Hp E.
  destruct (heap st !! l) as [o|] eqn:Ho; [|discriminate].
  rewrite forallb_forall in Hp.
  apply list_elem_of_lookup_2, list_elem_of_In in Ho.
  specialize (Hp o Ho). rewrite forallb_forall in Hp.
  specialize (Hp (k, p) (lookup_prop_In _ _ _ E)). simpl in Hp.
  destruct p; try discriminate. eauto.
Qed.

Lemma plain_heap_wf st : plain_heap st = true -> deps_wf st.
Proof.
  intros Hp. split.
  - intros l k v dep E.
    destruct (plain_heap_own_prop st l k _ Hp E) as [? ?]. discriminate.
  - intros l k v dep l' k' v' E.
    destruct (plain_heap_own_prop st l k _ Hp E) as [? ?]. discriminate.
Qed.

Lemma plain_heap_no_proxy st : plain_heap st = true -> no_proxy st.
Proof.
  intros Hp l k key E.
  destruct (plain_heap_own_prop st l k _ Hp E) as [? ?]. discriminate.
Qed.

(** ** Arrays under conversion (C5) *)

(** C5, as amended.  [observe] treats an array held by a field as any
    other object: once the conversion of plain data has returned, every
    element index of the array is an intercepted field holding that
    element, with a subscription that no other field shares. *)
Theorem array_elements_are_converted d l k a arr st st' :
  plain_heap st = true ->
  Observer_constructor d (VObj l) st = (Ok tt, st') ->
  peek st l k = Some (VObj a) ->
  heap st !! a = Some arr -> is_array arr = true ->
  is_array <$> heap st' !! a = Some true /\
  forall i, In i (Object_keys st a) ->
    exists v dep,
      own_prop st' a i = Some (PReactive v dep) /\
      peek st a i = Some v /\
      dep < length (deps st') /\
      forall l' k' v',
        own_prop st' l' k' = Some (PReactive v' dep) -> l' = a /\ k' = i.
Proof.
  unfold Observer_constructor. intros Hplain E Hpeek Harr Hflag.
  pose proof (observe_converts d (VObj l) st) as Hc.
  rewrite E in Hc. cbn [snd] in Hc.
  destruct (observe_wf d (VObj l) st (plain_heap_wf st Hplain)) as [[B U] _].
  rewrite E in B, U. cbn [snd] in B, U.
  split.
  - destruct Hc as (_ & _ & _ & _ & _ & A & _). rewrite A, Harr. simpl.
    rewrite Hflag. reflexivity.
  - intros i Hi.
    assert (Hsome : is_Some (own_prop st' a i)).
    { apply (converts_keys_iff st st' a i Hc), own_prop_keys, Hi. }
    pose proof (observe_reach_reactive st (VObj l) a
                  (reach_field st l k (VObj a) a Hpeek (reach_here st a))
                  st d st' (converts_refl st) E i Hsome) as Hre.
    destruct (own_prop st' a i) as [[|v dep|]|] eqn:Hown; try contradiction.
    exists v, dep. split; [reflexivity|].
    apply own_prop_keys in Hi. destruct Hi as [q Hq].
    destruct (plain_heap_own_prop st a i q Hplain Hq) as [v0 ->].
    assert (Hv : peek st a i = Some v0) by (unfold peek; rewrite Hq; reflexivity).
    pose proof (converts_peek st st' a i v0 Hc Hv) as Hv'.
    unfold peek in Hv'. rewrite Hown in Hv'. simpl in Hv'.
    injection Hv' as ->. split; [exact Hv|]. split.
    + apply (B a i v0 dep Hown).
    + intros l' k' v' E'. destruct (U _ _ _ _ _ _ _ E' Hown). auto.
Qed.

Lemma array_elements_are_converted_witness :
  is_array <$> heap ex_converted !! 2 = Some true /\
  forall i, In i (Object_keys ex_plain 2) ->
    exists v dep,
      own_prop ex_converted 2 i = Some (PReactive v dep) /\
      peek ex_plain 2 i = Some v /\
      dep < length (deps ex_converted) /\
      forall l' k' v',
        own_prop ex_converted l' k' = Some (PReactive v' dep) ->
        l' = 2 /\ k' = i.
Proof.
  apply (array_elements_are_converted 4 0 "list" 2
           (mkObj true [("0", PData (VNum 10)); ("1", PData (VNum 20))])
           ex_plain ex_converted);
    vm_compute; reflexivity.
Defined.

(** C5 fails as stated: converting [{ a: 1, b: { c: 2 }, list: [10, 20] }]
    turns both elements of the array into intercepted fields with
    subscriptions 3 and 4; a tracker on [list.0] is recorded in the
    element's subscription. *)
Lemma array_elements_become_fields :
  peek ex_plain 0 "list" = Some (VObj 2) /\
  is_array <$> heap ex_plain !! 2 = Some true /\
  own_prop ex_converted 2 "0" = Some (PReactive (VNum 10) 3) /\
  own_prop ex_converted 2 "1" = Some (PReactive (VNum 20) 4) /\
  w_id <$> Dep_subs
    (snd (Watcher_constructor 2 (VObj 0) "list.0" cb_emit ex_converted)) 3 =
    [0].
Proof. vm_compute. repeat split. Qed.

(** ** Read after write (C9) *)

Lemma Dep_notify_heap d dep st : heap (snd (Dep_notify d dep st)) = heap st.
Proof. destruct (Dep_notify_frame d dep st I) as [_ H]. apply H. Qed.

Lemma set_field_own_prop d l' k' x st :
  (forall key, own_prop st l' k' <> Some (PProxy key)) ->
  exists p',
    peek_prop p' = Some x /\
    (is_reactive (own_prop st l' k') -> is_reactive (Some p')) /\
    forall l k,
      own_prop (snd (set_field d (VObj l') k' x st)) l k =
      if Nat.eqb l l' && String.eqb k k'
      then match heap st !! l' with Some _ => Some p' | None => None end
      else own_prop st l k.
Proof.
  intros Hnp.
  assert (Hdata : exists p',
    peek_prop p' = Some x /\
    (is_reactive (own_prop st l' k') -> is_reactive (Some p')) /\
    forall l k,
      own_prop (snd (match own_prop st l' k' with
                     | Some (PReactive val dep) =>
                         reactive_set d l' k' val dep x st
                     | _ => defineProperty l' k' (PData x) st
                     end)) l k =
      if Nat.eqb l l' && String.eqb k k'
      then match heap st !! l' with Some _ => Some p' | None => None end
      else own_prop st l k).
  { destruct (own_prop st l' k') as [[v|cur dep|key]|] eqn:Hown.
    - exists (PData x). split; [reflexivity|]. split; [intros []|].
      intros l k. apply own_prop_defineProperty.
    - exists (PReactive x dep). split; [reflexivity|]. split; [auto|].
      intros l k. unfold reactive_set.
      destruct (strict_eq cur x) eqn:Heq.
      + apply strict_eq_true in Heq. subst cur. cbn [snd ret].
        destruct (Nat.eqb_spec l l') as [->|Hne]; cbn [andb]; [|reflexivity].
        destruct (String.eqb_spec k k') as [->|Hne]; [|reflexivity].
        rewrite Hown. unfold own_prop in Hown.
        destruct (heap st !! l'); [reflexivity | discriminate].
      + unfold bind. cbn [defineProperty].
        rewrite (same_heap_own_prop _ _ l k (Dep_notify_heap d dep _)).
        apply (own_prop_defineProperty st l' l k' k).
    - exfalso. apply (Hnp key). reflexivity.
    - exists (PData x). split; [reflexivity|]. split; [intros []|].
      intros l k. apply own_prop_defineProperty. }
  destruct Hdata as (p' & H1 & H2 & H3). exists p'. split; [exact H1|].
  split; [exact H2|]. intros l k. rewrite <- H3.
  destruct d; simpl; destruct (own_prop st l' k') as [[v|cur dep|key]|] eqn:Hown;
    try reflexivity; exfalso; apply (Hnp key); reflexivity.
Qed.

Lemma Watcher_constructor_heap d vm key cb st :
  heap (snd (Watcher_constructor d vm key cb st)) = heap st.
Proof. apply (Watcher_constructor_outcome d vm key cb st). Qed.

(** A converted field of plain data under one client operation. *)
Lemma run_op_field d o st l k v :
  is_vue_op o = false ->
  no_proxy st -> is_reactive (own_prop st l k) -> peek st l k = Some v ->
  no_proxy (run_op d o st) /\
  is_reactive (own_prop (run_op d o st) l k) /\
  peek (run_op d o st) l k = Some (last_write l k [o] v).
Proof.
  intros Hv Hnp Hre Hpk.
  assert (Hsame : forall s', heap s' = heap st ->
            no_proxy s' /\ is_reactive (own_prop s' l k) /\
            peek s' l k = Some v).
  { intros s' Hh. split; [|split].
    - intros l0 k0 key. rewrite (same_heap_own_prop st s' l0 k0 Hh). apply Hnp.
    - rewrite (same_heap_own_prop st s' l k Hh). exact Hre.
    - unfold peek. rewrite (same_heap_own_prop st s' l k Hh). exact Hpk. }
  destruct o as [o k0|o k0 x|w|vm key cb|data|options]; simpl in *.
  - apply Hsame. destruct (get_field_reads d o k0 st I) as [_ H]. apply H.
  - destruct o as [| | | | |l0]; try (apply Hsame; destruct d; reflexivity).
    destruct (set_field_own_prop d l0 k0 x st (fun key => Hnp l0 k0 key))
      as (p' & Hp1 & Hp2 & Hp3).
    split; [|split].
    + intros l1 k1 key. rewrite Hp3.
      destruct (Nat.eqb l1 l0 && String.eqb k1 k0); [|apply Hnp].
      destruct (heap st !! l0); [|discriminate].
      intros E. injection E as ->. discriminate.
    + rewrite Hp3. unfold peek in *.
      destruct (Nat.eqb_spec l l0) as [->|Hne]; cbn [andb]; [|exact Hre].
      destruct (String.eqb_spec k k0) as [->|Hne]; [|exact Hre].
      pose proof (Hp2 Hre) as Hr'. unfold own_prop in Hre.
      destruct (heap st !! l0); [exact Hr' | destruct Hre].
    + unfold peek in *. rewrite Hp3.
      destruct (Nat.eqb_spec l l0) as [->|Hne]; cbn [andb]; [|exact Hpk].
      destruct (String.eqb_spec k k0) as [->|Hne]; [|exact Hpk].
      unfold own_prop in Hre.
      destruct (heap st !! l0); [exact Hp1 | destruct Hre].
  - apply Hsame. destruct (Watcher_update_frame d w st I) as [_ H]. apply H.
  - apply Hsame, Watcher_constructor_heap.
  - unfold Observer_constructor.
    pose proof (observe_converts d data st) as Hc. split; [|split].
    + apply (converts_no_proxy _ _ Hc Hnp).
    + apply (converts_reactive _ _ _ _ Hc Hre).
    + apply (converts_peek _ _ _ _ _ Hc Hpk).
  - discriminate.
Qed.

Lemma last_write_cons l k o ops v :
  last_write l k (o :: ops) v = last_write l k ops (last_write l k [o] v).
Proof. reflexivity. Qed.

Lemma run_ops_field d ops st l k v :
  data_ops ops = true ->
  no_proxy st -> is_reactive (own_prop st l k) -> peek st l k = Some v ->
  is_reactive (own_prop (run_ops d ops st) l k) /\
  peek (run_ops d ops st) l k = Some (last_write l k ops v).
Proof.
  revert st v. induction ops as [|o ops IH]; intros st v Hops Hnp Hre Hpk.
  - split; assumption.
  - simpl in Hops. apply andb_true_iff in Hops. destruct Hops as [Ho Hops].
    apply negb_true_iff in Ho.
    destruct (run_op_field d o st l k v Ho Hnp Hre Hpk) as (H1 & H2 & H3).
    rewrite last_write_cons. apply (IH _ _ Hops H1 H2 H3).
Qed.



(** ** The proxies of a [Vue] instance (C10) *)

Lemma get_field_data d l k st v :
  own_prop st l k = Some (PData v) -> get_field d (VObj l) k st = (Ok v, st).
Proof. intros H. destruct d; simpl; rewrite H; reflexivity. Qed.

Lemma set_field_absent d l k v st :
  own_prop st l k = None ->
  set_field d (VObj l) k v st = defineProperty l k (PData v) st.
Proof. intros H. destruct d; simpl; rewrite H; reflexivity. Qed.

Lemma own_prop_alloc st o l k :
  l < length (heap st) ->
  own_prop (with_heap (heap st ++ [o]) st) l k = own_prop st l k.
Proof.
  intros Hl. unfold own_prop. cbn [heap with_heap].
  rewrite lookup_app_l by exact Hl. reflexivity.
Qed.

Lemma Object_keys_alloc st o l :
  l < length (heap st) ->
  Object_keys (with_heap (heap st ++ [o]) st) l = Object_keys st l.
Proof.
  intros Hl. unfold Object_keys. cbn [heap with_heap].
  rewrite lookup_app_l by exact Hl. reflexivity.
Qed.

Lemma Object_keys_defineProperty_ne st l l' k p :
  l' <> l -> Object_keys (snd (defineProperty l k p st)) l' = Object_keys st l'.
Proof.
  intros Hne. unfold Object_keys, defineProperty. cbn [snd heap with_heap].
  rewrite list_lookup_alter_ne by congruence. reflexivity.
Qed.

Lemma heap_defineProperty_Some st l k p l' :
  is_Some (heap (snd (defineProperty l k p st)) !! l') <->
  is_Some (heap st !! l').
Proof.
  unfold defineProperty. cbn [snd heap with_heap].
  rewrite !lookup_lt_is_Some, length_alter. tauto.
Qed.

(** What the loop [keys.forEach(key => this._proxy(key))] leaves. *)
Lemma forEach_proxy keys vm st :
  is_Some (heap st !! vm) ->
  fst (forEach keys (Vue_proxy vm) st) = Ok tt /\
  forall l k,
    own_prop (snd (forEach keys (Vue_proxy vm) st)) l k =
    if Nat.eqb l vm && existsb (String.eqb k) keys
    then Some (PProxy k) else own_prop st l k.
Proof.
  revert st. induction keys as [|key keys IH]; intros st Hvm.
  - simpl. split; [reflexivity|]. intros l k.
    rewrite andb_false_r. reflexivity.
  - simpl. unfold bind, Vue_proxy at 1 3.
    set (s1 := snd (defineProperty vm key (PProxy key) st)).
    change (defineProperty vm key (PProxy key) st) with (Ok tt, s1).
    assert (Hvm1 : is_Some (heap s1 !! vm)).
    { apply heap_defineProperty_Some. exact Hvm. }
    destruct (IH s1 Hvm1) as [Hok Hown]. split; [exact Hok|].
    intros l k. rewrite Hown. unfold s1. rewrite own_prop_defineProperty.
    destruct Hvm as [o Ho]. rewrite Ho.
    destruct (Nat.eqb_spec l vm) as [->|Hne]; cbn [andb]; [|reflexivity].
    destruct (existsb (String.eqb k) keys) eqn:Hex.
    + rewrite orb_true_r. reflexivity.
    + rewrite orb_false_r.
      destruct (String.eqb_spec k key) as [->|Hne]; reflexivity.
Qed.

(** A loop of [this._proxy(key)] calls that returns has found the method
    of the class at every call. *)
Lemma forEach_call_proxy_ok d keys vm st st' :
  forEach keys (call_proxy d vm) st = (Ok tt, st') ->
  forEach keys (Vue_proxy vm) st = (Ok tt, st').
Proof.
  revert st. induction keys as [|key keys IH]; intros st E; [exact E|].
  cbn [forEach] in *. unfold bind in *. unfold call_proxy at 1 in E.
  destruct (own_prop st vm "_proxy").
  - unfold bind, throw in E.
    destruct (get_field d (VObj vm) "_proxy" st) as [[f|e] s1]; discriminate.
  - destruct (Vue_proxy vm key st) as [[[]|e] s1]; [|discriminate].
    apply IH. exact E.
Qed.

Lemma existsb_eqb_In k keys :
  existsb (String.eqb k) keys = true <-> In k keys.
Proof.
  rewrite existsb_exists. split.
  - intros (x & Hin & E). apply String.eqb_eq in E. subst. exact Hin.
  - intros Hin. exists k. split; [exact Hin | apply String.eqb_refl].
Qed.

(** C10.  After [new Vue(options)] has run its first three steps over an
    options object whose [data] is an object, every own key of [data] is
    on the instance as an accessor that stores no value: reading it is
    reading [this.$data[key]], assigning to it is assigning to
    [this.$data[key]], and that field of [data] is intercepted; unless
    [data] itself has a key [$data], [this.$data] is [data]. *)
Theorem instance_mirrors_data d lo ld st vm st' :
  lo < length (heap st) -> ld < length (heap st) ->
  peek st lo "data" = Some (VObj ld) ->
  Vue_constructor d (VObj lo) st = (Ok vm, st') ->
  forall k, In k (Object_keys st ld) ->
    own_prop st' vm k = Some (PProxy k) /\
    is_reactive (own_prop st' ld k) /\
    (forall d',
       get_field (S d') (VObj vm) k st' =
       bind (get_field d' (VObj vm) "$data")
         (fun data => get_field d' data k) st') /\
    (forall d' x,
       set_field (S d') (VObj vm) k x st' =
       bind (get_field d' (VObj vm) "$data")
         (fun data => set_field d' data k x) st') /\
    (~ In "$data" (Object_keys st ld) ->
     peek st' vm "$data" = Some (VObj ld)).
Proof.
  intros Hlo Hld Hdata E k Hk.
  unfold Vue_constructor in E. cbn zeta in E.
  set (this := length (heap st)) in *.
  set (s0 := with_heap (heap st ++ [mkObj false []]) st) in E.
  unfold bind at 1 in E.
  assert (Hthis0 : is_Some (heap s0 !! this)).
  { apply lookup_lt_is_Some. unfold s0. cbn [heap with_heap].
    rewrite length_app. simpl. unfold this. lia. }
  assert (Hfresh : forall k0, own_prop s0 this k0 = None).
  { intros k0. unfold own_prop, s0. cbn [heap with_heap].
    rewrite lookup_app_r by (unfold this; lia).
    unfold this. rewrite Nat.sub_diag. reflexivity. }
  rewrite (set_field_absent d this "$options" (VObj lo) s0 (Hfresh _)) in E.
  set (s1 := snd (defineProperty this "$options" (PData (VObj lo)) s0)) in E.
  change (defineProperty this "$options" (PData (VObj lo)) s0)
    with (Ok tt, s1) in E.
  cbv beta iota in E. unfold bind at 1 in E.
  (* options.data *)
  assert (Hpk1 : peek s1 lo "data" = Some (VObj ld)).
  { unfold peek, s1. rewrite own_prop_defineProperty.
    destruct (Nat.eqb_spec lo this) as [Heq|_]; [unfold this in Heq; lia|].
    cbn [andb]. unfold s0. rewrite own_prop_alloc by exact Hlo. exact Hdata. }
  destruct (get_field d (VObj lo) "data" s1) as [[data|e] s2] eqn:Hg1;
    [|discriminate].
  assert (Hdata1 : data = VObj ld).
  { unfold peek in Hpk1.
    destruct (own_prop s1 lo "data") as [q|] eqn:Hq; [|discriminate].
    pose proof (get_field_peek d lo "data" s1 q _ Hq Hpk1) as H.
    rewrite Hg1 in H. simpl in H. congruence. }
  subst data.
  pose proof (get_field_run _ _ _ _ _ _ Hg1) as (Hh2 & _).
  (* this.$data = options.data *)
  unfold bind at 1 in E.
  assert (Hnone2 : own_prop s2 this "$data" = None).
  { rewrite (same_heap_own_prop s1 s2 this "$data" Hh2). unfold s1.
    rewrite own_prop_defineProperty, Nat.eqb_refl. cbn [andb].
    replace (String.eqb "$data" "$options") with false by reflexivity.
    apply Hfresh. }
  rewrite (set_field_absent d this "$data" (VObj ld) s2 Hnone2) in E.
  set (s3 := snd (defineProperty this "$data" (PData (VObj ld)) s2)) in E.
  change (defineProperty this "$data" (PData (VObj ld)) s2)
    with (Ok tt, s3) in E.
  cbv beta iota in E. unfold bind at 1 in E.
  assert (Hthis2 : is_Some (heap s2 !! this)).
  { rewrite Hh2. unfold s1. apply heap_defineProperty_Some. exact Hthis0. }
  assert (Hown3 : own_prop s3 this "$data" = Some (PData (VObj ld))).
  { unfold s3. rewrite own_prop_defineProperty, Nat.eqb_refl, String.eqb_refl.
    cbn [andb]. destruct Hthis2 as [o Ho]. rewrite Ho. reflexivity. }
  rewrite (get_field_data d this "$data" s3 _ Hown3) in E.
  (* new Observer(this.$data) *)
  unfold bind at 1 in E. unfold Observer_constructor in E.
  destruct (observe d (VObj ld) s3) as [[[]|e] s4] eqn:Hobs; [|discriminate].
  pose proof (observe_converts d (VObj ld) s3) as Hc.
  rewrite Hobs in Hc. cbn [snd] in Hc.
  (* Object.keys(this.$data) *)
  unfold bind at 1 in E.
  assert (Hpk4 : peek s4 this "$data" = Some (VObj ld)).
  { apply (converts_peek _ _ _ _ _ Hc). unfold peek. rewrite Hown3. reflexivity. }
  destruct (get_field d (VObj this) "$data" s4) as [[data|e] s5] eqn:Hg4;
    [|discriminate].
  assert (Hdata4 : data = VObj ld).
  { unfold peek in Hpk4.
    destruct (own_prop s4 this "$data") as [q|] eqn:Hq; [|discriminate].
    pose proof (get_field_peek d this "$data" s4 q _ Hq Hpk4) as H.
    rewrite Hg4 in H. simpl in H. congruence. }
  subst data.
  pose proof (get_field_run _ _ _ _ _ _ Hg4) as (Hh5 & _).
  unfold bind at 1 in E. cbn [keys_of] in E. unfold bind at 1 in E.
  assert (Hne : ld <> this) by (unfold this; lia).
  assert (Hkeys : Object_keys s5 ld = Object_keys st ld).
  { rewrite (same_heap_keys s4 s5 ld Hh5).
    destruct Hc as (_ & _ & _ & _ & K & _). rewrite K. unfold s3.
    rewrite Object_keys_defineProperty_ne by exact Hne.
    rewrite (same_heap_keys s1 s2 ld Hh2). unfold s1.
    rewrite Object_keys_defineProperty_ne by exact Hne.
    apply Object_keys_alloc. exact Hld. }
  rewrite Hkeys in E.
  assert (Hthis5 : is_Some (heap s5 !! this)).
  { rewrite Hh5. apply lookup_lt_is_Some.
    destruct Hc as (_ & _ & _ & _ & _ & A & _). specialize (A this).
    destruct (heap s4 !! this) as [o|] eqn:Ho.
    - apply lookup_lt_is_Some. eauto.
    - exfalso. assert (Hs : is_Some (heap s3 !! this)).
      { unfold s3. apply heap_defineProperty_Some. exact Hthis2. }
      destruct Hs as [o3 Ho3]. rewrite Ho3 in A. discriminate. }
  destruct (forEach_proxy (Object_keys st ld) this s5 Hthis5) as [Hok Hown].
  destruct (forEach (Object_keys st ld) (call_proxy d this) s5)
    as [[[]|e] s6] eqn:Hfe; [|discriminate].
  apply forEach_call_proxy_ok in Hfe. rewrite Hfe in Hok, Hown.
  cbn [fst snd] in *. injection E as <- <-.
  assert (Hex : existsb (String.eqb k) (Object_keys st ld) = true)
    by (apply existsb_eqb_In; exact Hk).
  assert (H1 : own_prop s6 this k = Some (PProxy k)).
  { rewrite Hown, Nat.eqb_refl, Hex. reflexivity. }
  split; [exact H1|]. split; [|split; [|split]].
  - rewrite Hown. destruct (Nat.eqb_spec ld this) as [Heq|_]; [contradiction|].
    cbn [andb]. rewrite (same_heap_own_prop s4 s5 ld k Hh5).
    apply (observe_makes_reactive d ld s3 s4 Hobs).
    apply (converts_keys_iff s3 s4 ld k Hc), own_prop_keys.
    unfold s3. rewrite Object_keys_defineProperty_ne by exact Hne.
    rewrite (same_heap_keys s1 s2 ld Hh2). unfold s1.
    rewrite Object_keys_defineProperty_ne by exact Hne.
    unfold s0. rewrite Object_keys_alloc by exact Hld. exact Hk.
  - intros d'. simpl. rewrite H1. reflexivity.
  - intros d' x. simpl. rewrite H1. unfold bind.
    destruct (get_field d' (VObj this) "$data" s6) as [[a|e] s7]; reflexivity.
  - intros Hnd. unfold peek. rewrite Hown, Nat.eqb_refl. cbn [andb].
    destruct (existsb (String.eqb "$data") (Object_keys st ld)) eqn:Hx.
    + apply existsb_eqb_In in Hx. contradiction.
    + rewrite (same_heap_own_prop s4 s5 this "$data" Hh5). exact Hpk4.
Qed.

Lemma instance_mirrors_data_witness :
  own_prop ex_instance 5 "a" = Some (PProxy "a") /\
  is_reactive (own_prop ex_instance 0 "a") /\
  (forall d',
     get_field (S d') (VObj 5) "a" ex_instance =
     bind (get_field d' (VObj 5) "$data")
       (fun data => get_field d' data "a") ex_instance) /\
  (forall d' x,
     set_field (S d') (VObj 5) "a" x ex_instance =
     bind (get_field d' (VObj 5) "$data")
       (fun data => set_field d' data "a" x) ex_instance) /\
  (~ In "$data" (Object_keys ex_plain 0) ->
   peek ex_instance 5 "$data" = Some (VObj 0)).
Proof.
  apply (instance_mirrors_data 4 3 0 ex_plain 5 ex_instance).
  - vm_compute. lia.
  - vm_compute. lia.
  - vm_compute. reflexivity.
  - vm_compute. reflexivity.
  - vm_compute. left. reflexivity.
Defined.

(** * Further properties of the code *)

(** ** Key paths: [key.split('.')] *)

Lemma split_on_cons c s : exists h t, split_on c s = h :: t.
Proof.
  destruct s as [|a s]; simpl; [eauto|].
  destruct (Ascii.eqb a c); [eauto|]. destruct (split_on c s); eauto.
Qed.

Lemma concat_cons_char sep a h t :
  String.concat sep (String a h :: t) = String a (String.concat sep (h :: t)).
Proof. destruct t; reflexivity. Qed.

(** X1.  Splitting a key path never yields an empty list of segments, no
    segment contains a dot, and joining the segments with dots gives the key
    path back. *)
Theorem split_key_joins_back key :
  split_key key <> [] /\
  forallb dot_free (split_key key) = true /\
  String.concat "." (split_key key) = key.
Proof.
  unfold split_key. split; [|split].
  - destruct (split_on_cons "."%char key) as (h & t & E). rewrite E. discriminate.
  - induction key as [|a s IH]; [reflexivity|]. simpl.
    destruct (Ascii.eqb a "."%char) eqn:Ea; [exact IH|].
    destruct (split_on_cons "."%char s) as (h & t & E). rewrite E in *.
    simpl in *. rewrite Ea. exact IH.
  - induction key as [|a s IH]; [reflexivity|]. simpl.
    destruct (Ascii.eqb_spec a "."%char) as [->|Hne].
    + destruct (split_on_cons "."%char s) as (h & t & E). rewrite E in *.
      change (String.concat "." ("" :: h :: t))
        with (String "."%char (String.concat "." (h :: t))).
      rewrite IH. reflexivity.
    + destruct (split_on_cons "."%char s) as (h & t & E). rewrite E in *.
      rewrite concat_cons_char, IH. reflexivity.
Qed.

(** ** Which trackers a subscription gains *)

Lemma tracks_refl st : tracks st st.
Proof.
  split; [reflexivity|]. intros dep. exists []. rewrite app_nil_r. auto.
Qed.

Lemma tracks_trans s1 s2 s3 : tracks s1 s2 -> tracks s2 s3 -> tracks s1 s3.
Proof.
  intros [T1 H1] [T2 H2]. split; [congruence|]. intros dep.
  destruct (H1 dep) as (e1 & E1 & F1). destruct (H2 dep) as (e2 & E2 & F2).
  exists (e1 ++ e2). split.
  - rewrite E2, E1, app_assoc. reflexivity.
  - apply Forall_app. split; [exact F1|]. rewrite T1 in F2. exact F2.
Qed.

(** Steps that touch neither subscriber lists nor the context. *)
Lemma keeps_tracks_inert {A} (m : M A) :
  (forall st, deps (snd (m st)) = deps st /\ target (snd (m st)) = target st) ->
  keeps any_state tracks m.
Proof.
  intros H st _. split; [exact I|]. destruct (H st) as [Hd Ht].
  split; [exact Ht|]. intros dep. exists []. unfold Dep_subs.
  rewrite Hd, app_nil_r. auto.
Qed.

Lemma log_tracks e : keeps any_state tracks (log e).
Proof. apply keeps_tracks_inert. intros st. simpl. auto. Qed.

Lemma defineProperty_tracks l k p : keeps any_state tracks (defineProperty l k p).
Proof. apply keeps_tracks_inert. intros st. simpl. auto. Qed.

Lemma get_target_tracks : keeps any_state tracks get_target.
Proof. apply keeps_tracks_inert. intros st. simpl. auto. Qed.

Lemma keys_of_tracks v : keeps any_state tracks (keys_of v).
Proof. destruct v; apply keeps_tracks_inert; intros st; simpl; auto. Qed.

Lemma Dep_constructor_tracks : keeps any_state tracks Dep_constructor.
Proof.
  intros st _. split; [exact I|]. split; [reflexivity|]. intros dep.
  exists []. rewrite Dep_subs_constructor, app_nil_r. auto.
Qed.

Lemma reactive_get_tracks val dep : keeps any_state tracks (reactive_get val dep).
Proof.
  intros st _. split; [exact I|]. unfold reactive_get, bind, get_target.
  destruct (target st) as [w|] eqn:Ht; cbn [snd ret].
  - change (tracks st (snd (Dep_addSub dep w st))).
    split; [reflexivity|]. intros dep'. rewrite Dep_subs_addSub.
    destruct (Nat.eqb dep' dep && Nat.ltb dep (length (deps st))) eqn:E.
    + apply andb_true_iff in E. destruct E as [E _].
      apply Nat.eqb_eq in E. subst dep'. exists [w]. split; [reflexivity|].
      constructor; [exact Ht | constructor].
    + exists []. rewrite app_nil_r. auto.
  - apply tracks_refl.
Qed.

Ltac keeps_tracks prim := keeps_with tracks_refl tracks_trans prim.

Lemma get_field_tracks d o k : keeps any_state tracks (get_field d o k).
Proof.
  revert o k. induction d as [|d IH]; intros o k st HP;
    destruct o; simpl; try (split; [exact I | apply tracks_refl]);
    destruct (own_prop st _ k) as [[v|v dep|key]|];
    try (split; [exact I | apply tracks_refl]);
    try (apply (reactive_get_tracks v dep st HP)).
  apply (keeps_bind any_state tracks tracks_trans);
    [apply IH | intro; apply IH | exact HP].
Qed.

Lemma reduce_path_tracks d segs v : keeps any_state tracks (reduce_path d segs v).
Proof.
  revert v. induction segs as [|k segs IH]; intros v; simpl;
    keeps_tracks ltac:(auto using get_field_tracks).
Qed.

Lemma run_script_tracks d s : keeps any_state tracks (run_script d s).
Proof.
  induction s as [|e|v s IH|o key k IH]; simpl;
    keeps_tracks ltac:(auto using get_field_tracks, log_tracks).
Qed.

Lemma Watcher_update_tracks d w : keeps any_state tracks (Watcher_update d w).
Proof.
  unfold Watcher_update, call_cb.
  keeps_tracks ltac:(auto using log_tracks, reduce_path_tracks,
                       run_script_tracks, get_target_tracks).
Qed.

Lemma Dep_notify_tracks d dep : keeps any_state tracks (Dep_notify d dep).
Proof.
  unfold Dep_notify. keeps_tracks ltac:(auto using Watcher_update_tracks).
  apply keeps_tracks_inert. intros st. simpl. auto.
Qed.

Lemma set_field_tracks d o k v : keeps any_state tracks (set_field d o k v).
Proof.
  revert o k. induction d as [|d IH]; intros o k st HP;
    destruct o; simpl;
    try (split; [exact I | apply tracks_refl]);
    destruct (own_prop st _ k) as [[x|x dep|key]|];
    try (apply (defineProperty_tracks _ k (PData v) st HP));
    try (split; [exact I | apply tracks_refl]);
    try (revert st HP; unfold reactive_set; destruct (strict_eq x v);
         keeps_tracks ltac:(auto using defineProperty_tracks, Dep_notify_tracks)).
  pose proof (keeps_bind any_state tracks tracks_trans
                (get_field d (VObj l) "$data")
                (fun data => set_field d data key v)
                (get_field_tracks d _ _) (fun a => IH a key) st HP) as H.
  unfold bind in H. exact H.
Qed.

Lemma observe_tracks d data : keeps any_state tracks (observe d data).
Proof.
  revert data. induction d as [|d IH]; intros data st HP;
    destruct data; simpl; try (split; [exact I | apply tracks_refl]).
  revert HP. generalize (Object_keys st l). intros keys. revert st.
  change (keeps any_state tracks
            (forEach keys (fun key =>
               bind (get_field d (VObj l) key)
                 (fun val => defineReactive (observe d) l key val)))).
  unfold defineReactive.
  keeps_tracks ltac:(auto using get_field_tracks, Dep_constructor_tracks,
                       defineProperty_tracks).
Qed.

Lemma call_proxy_tracks d this key :
  keeps any_state tracks (call_proxy d this key).
Proof.
  apply keeps_call_proxy; [apply defineProperty_tracks|].
  keeps_tracks ltac:(auto using get_field_tracks).
Qed.

Lemma Vue_constructor_tracks d options :
  forall st, tracks st (snd (Vue_constructor d options st)).
Proof.
  intros st. unfold Vue_constructor. cbn zeta.
  set (st0 := with_heap _ st).
  match goal with |- context [snd (?m st0)] =>
    assert (Hm : keeps any_state tracks m) end.
  { unfold Observer_constructor.
    keeps_tracks ltac:(auto using get_field_tracks, set_field_tracks,
                         call_proxy_tracks, observe_tracks,
                         keys_of_tracks). }
  destruct (Hm st0 I) as [_ H]. exact H.
Qed.

Lemma run_op_tracks d o st :
  is_new_watcher o = false -> tracks st (run_op d o st).
Proof.
  intros Ho. destruct o as [v k|v k x|w|vm key cb|data|options]; simpl.
  - apply (get_field_tracks d v k st I).
  - apply (set_field_tracks d v k x st I).
  - apply (Watcher_update_tracks d w st I).
  - discriminate.
  - apply (observe_tracks d data st I).
  - apply Vue_constructor_tracks.
Qed.

(** X2.  A read, a write, an [update()] or a conversion, that is every
    operation of a client but the constructors, which build trackers,
    leaves [Dep.target] as it is and appends to a subscription only entries
    that are the tracker [Dep.target] holds at that moment: with no active
    context nothing is recorded, and with a stale one every record goes to
    the stale tracker. *)
Theorem only_the_active_tracker_is_recorded d o st :
  is_new_watcher o = false ->
  is_vue_op o = false ->
  target (run_op d o st) = target st /\
  forall dep, exists ext,
    Dep_subs (run_op d o st) dep = Dep_subs st dep ++ ext /\
    Forall (fun w => target st = Some w) ext.
Proof. intros Hw _. apply run_op_tracks. exact Hw. Qed.

Lemma only_the_active_tracker_is_recorded_witness :
  target (run_op 2 (OSet (VObj 0) "a" (VNum 5)) ex_leaked) =
    target ex_leaked /\
  forall dep, exists ext,
    Dep_subs (run_op 2 (OSet (VObj 0) "a" (VNum 5)) ex_leaked) dep =
      Dep_subs ex_leaked dep ++ ext /\
    Forall (fun w => target ex_leaked = Some w) ext.
Proof.
  apply (only_the_active_tracker_is_recorded
           2 (OSet (VObj 0) "a" (VNum 5)) ex_leaked);
    reflexivity.
Defined.

Lemma tracks_subs_grow st st' : tracks st st' -> subs_grow st st'.
Proof.
  intros [_ H] dep. destruct (H dep) as (ext & E & _). rewrite E.
  apply prefix_app_r. reflexivity.
Qed.

Lemma Watcher_constructor_grow d vm key cb st :
  subs_grow st (snd (Watcher_constructor d vm key cb st)).
Proof.
  unfold Watcher_constructor, bind, set_target. cbn zeta.
  set (this := mkWatcher (next_wid st) vm key cb).
  set (st0 := with_target (Some this) (with_next_wid (S (next_wid st)) st)).
  destruct (Watcher_update_tracks d this st0 I) as [_ H].
  apply tracks_subs_grow in H.
  destruct (Watcher_update d this st0) as [[[]|e] s1]; exact H.
Qed.

(** X3.  Subscriptions are append-only: over any sequence of reads, writes,
    updates, conversions and constructions, every [subs] array keeps the
    entries it had, in their order, as a prefix. Nothing ever unsubscribes a
    tracker. *)
Theorem subscriptions_are_append_only d ops st dep :
  Dep_subs st dep `prefix_of` Dep_subs (run_ops d ops st) dep.
Proof.
  revert st. induction ops as [|o ops IH]; intros st; simpl.
  - reflexivity.
  - etransitivity; [|apply IH].
    destruct (is_new_watcher o) eqn:Ho.
    + destruct o; try discriminate. apply Watcher_constructor_grow.
    + apply tracks_subs_grow, run_op_tracks, Ho.
Qed.

(** ** What a discovery pass records *)

Lemma record_heap t ds st : heap (record t ds st) = heap st.
Proof.
  destruct t as [w|]; [|reflexivity]. simpl. revert st.
  induction ds as [|dep ds IH]; intros st; simpl; [reflexivity|].
  rewrite IH. reflexivity.
Qed.

Lemma record_reads t ds st : reads st (record t ds st).
Proof.
  destruct t as [w|]; [|apply reads_refl]. simpl. revert st.
  induction ds as [|dep ds IH]; intros st; simpl; [apply reads_refl|].
  eapply reads_trans; [|apply IH]. unfold reads. simpl.
  rewrite length_alter_deps. auto.
Qed.

Lemma record_app t ds1 ds2 st :
  record t (ds1 ++ ds2) st = record t ds2 (record t ds1 st).
Proof. destruct t; simpl; [apply fold_left_app | reflexivity]. Qed.

Lemma same_heap_field_of st st' v k :
  heap st' = heap st -> field_of st' v k = field_of st v k.
Proof.
  intros H. destruct v; simpl; try reflexivity.
  rewrite (same_heap_own_prop st st' l k H).
  rewrite (same_heap_own_prop st st' l "$data" H).
  destruct (own_prop st l k) as [[x|x dep|key]|]; try reflexivity.
  destruct (own_prop st l "$data") as [[[| | | | |ld]|x dep|key']|];
    try reflexivity.
  rewrite (same_heap_own_prop st st' ld key H). reflexivity.
Qed.

Lemma same_heap_path_walk st st' v segs :
  heap st' = heap st -> path_walk st' v segs = path_walk st v segs.
Proof.
  intros H. revert v. induction segs as [|k segs IH]; intros v; simpl;
    [reflexivity|].
  rewrite (same_heap_field_of st st' v k H).
  destruct (field_of st v k) as [[x ds]|]; [|reflexivity].
  rewrite IH. reflexivity.
Qed.

Lemma get_stored d l k st x ds :
  stored (own_prop st l k) = Some (x, ds) ->
  get_field d (VObj l) k st = (Ok x, record (target st) ds st).
Proof.
  intros H. destruct d; simpl;
    destruct (own_prop st l k) as [[y|y dep|key]|]; simpl in H;
      try discriminate; injection H as <- <-;
      try (destruct (target st); reflexivity);
      unfold reactive_get, bind, get_target; destruct (target st); reflexivity.
Qed.

Lemma get_field_of d v k st x ds :
  field_of st v k = Some (x, ds) ->
  get_field (S d) v k st = (Ok x, record (target st) ds st).
Proof.
  intros H. destruct v as [| | | | |l]; simpl in H; try discriminate;
    try (injection H as <- <-; destruct (target st); reflexivity).
  destruct (own_prop st l k) as [[y|y dep|key]|] eqn:Hown;
    try (apply get_stored; rewrite Hown; exact H).
  destruct (own_prop st l "$data") as [[[| | | | |ld]|y dep|key']|] eqn:Hd;
    try discriminate.
  simpl. rewrite Hown. unfold bind.
  rewrite (get_field_data d l "$data" st _ Hd).
  apply get_stored. exact H.
Qed.

Lemma reduce_path_walk d segs v st y ds :
  path_walk st v segs = Some (y, ds) ->
  reduce_path (S d) segs v st = (Ok y, record (target st) ds st).
Proof.
  revert v st ds. induction segs as [|k segs IH]; intros v st ds H.
  - simpl in H. injection H as <- <-. destruct (target st); reflexivity.
  - simpl in H. destruct (field_of st v k) as [[x ds1]|] eqn:Hf; [|discriminate].
    destruct (path_walk st x segs) as [[z ds2]|] eqn:Hw; [|discriminate].
    injection H as <- <-. cbn [reduce_path]. unfold bind.
    rewrite (get_field_of d v k st x ds1 Hf).
    pose proof (record_reads (target st) ds1 st) as (Hh & Ht & _).
    rewrite (IH x (record (target st) ds1 st) ds2).
    + rewrite Ht, record_app. reflexivity.
    + rewrite (same_heap_path_walk st _ x segs Hh). exact Hw.
Qed.

Lemma Dep_subs_record w ds st dep :
  Forall (fun x => x < length (deps st)) ds ->
  Dep_subs (record (Some w) ds st) dep =
  Dep_subs st dep ++ replicate (count_occ Nat.eq_dec ds dep) w.
Proof.
  unfold record. revert st.
  induction ds as [|x ds IH]; intros st Hb; cbn [fold_left count_occ].
  - cbn [replicate]. rewrite app_nil_r. reflexivity.
  - apply Forall_cons in Hb. destruct Hb as [Hx Hb].
    rewrite IH.
    2:{ unfold Dep_addSub. cbn [snd deps with_deps].
        rewrite length_alter_deps. exact Hb. }
    rewrite Dep_subs_addSub.
    destruct (Nat.ltb_spec x (length (deps st))) as [_|Hge]; [|lia].
    destruct (Nat.eq_dec x dep) as [->|Hne].
    + rewrite Nat.eqb_refl. cbn [andb replicate].
      rewrite <- app_assoc. reflexivity.
    + destruct (Nat.eqb_spec dep x) as [E|_]; [congruence|]. reflexivity.
Qed.

Lemma run_script_silent d s st :
  silent s = true ->
  deps (snd (run_script d s st)) = deps st /\
  heap (snd (run_script d s st)) = heap st.
Proof.
  revert st. induction s as [|e|v s IH|o key k IH]; intros st H; simpl in *;
    try discriminate; auto.
  unfold bind, log.
  apply (IH (with_trace (trace st ++ [EEmit v]) st) H).
Qed.

(** X4.  A discovery pass records the tracker in the subscription of every
    converted field its key path traverses, once per traversal and in no
    other: when the key path resolves to [v] through the subscriptions [ds],
    and the callback reads no field, the constructor appends the tracker to
    each [subs] array as many times as that subscription occurs in [ds],
    hands [v] to the callback, and leaves the heap alone. *)
Theorem discovery_records_the_traversed_fields d vm key cb st v ds :
  path_walk st vm (split_key key) = Some (v, ds) ->
  Forall (fun dep => dep < length (deps st)) ds ->
  (forall x, silent (cb x) = true) ->
  let this := mkWatcher (next_wid st) vm key cb in
  let st' := snd (Watcher_constructor (S d) vm key cb st) in
  (forall dep,
     Dep_subs st' dep =
     Dep_subs st dep ++ replicate (count_occ Nat.eq_dec ds dep) this) /\
  heap st' = heap st /\
  exists evs,
    new_events st st' =
      EUpdate (w_id this) :: ECallback (w_id this) v (Some (w_id this)) :: evs.
Proof.
  intros Hw Hb Hs this st'. subst st'.
  assert (Hres : reduce_path (S d) (split_key key) vm (discovering this st) =
                 (Ok v, record (Some this) ds (discovering this st))).
  { apply (reduce_path_walk d (split_key key) vm (discovering this st) v ds).
    rewrite (same_heap_path_walk st (discovering this st)); [exact Hw|].
    reflexivity. }
  unfold Watcher_constructor, Watcher_update, bind, set_target, log.
  cbn zeta. fold this.
  change (with_trace _ (with_target (Some this) _))
    with (discovering this st).
  change (w_key this) with key. change (w_vm this) with vm.
  rewrite Hres. unfold call_cb, bind, get_target, log.
  change (w_cb this v) with (cb v).
  set (s1 := record (Some this) ds (discovering this st)).
  pose proof (record_reads (Some this) ds (discovering this st))
    as (Hh1 & Ht1 & _ & Htr1 & _). fold s1 in Hh1, Ht1, Htr1.
  rewrite Ht1. cbn [discovering target with_trace with_target fmap option_fmap option_map].
  set (s2 := with_trace _ s1).
  destruct (run_script_silent (S d) (cb v) s2 (Hs v)) as [Hd Hh].
  pose proof (run_script_quiet (S d) (cb v) s2 I) as [_ (evs & He & _)].
  assert (Hsubs : forall dep,
    Dep_subs (snd (run_script (S d) (cb v) s2)) dep =
    Dep_subs st dep ++ replicate (count_occ Nat.eq_dec ds dep) this).
  { intros dep. unfold Dep_subs at 1. rewrite Hd.
    change (default [] (deps s2 !! dep)) with (Dep_subs s1 dep).
    unfold s1. rewrite Dep_subs_record by exact Hb. reflexivity. }
  assert (Htrace : trace (snd (run_script (S d) (cb v) s2)) =
    trace st ++ EUpdate (next_wid st)
      :: ECallback (next_wid st) v (Some (next_wid st)) :: evs).
  { rewrite He. unfold s2. cbn [trace with_trace]. rewrite Htr1.
    cbn [discovering trace with_trace this w_id].
    rewrite <- !app_assoc. reflexivity. }
  assert (Hheap : heap (snd (run_script (S d) (cb v) s2)) = heap st).
  { rewrite Hh. unfold s2. cbn [heap with_trace]. rewrite Hh1. reflexivity. }
  destruct (run_script (S d) (cb v) s2) as [[[]|e] s3]; cbn [fst snd] in *;
    (split; [exact Hsubs|]; split; [exact Hheap|]; exists evs;
     apply new_events_app; exact Htrace).
Qed.

Lemma discovery_records_the_traversed_fields_witness :
  let this := mkWatcher (next_wid ex_instance) (VObj 5) "b.c" cb_emit in
  let st' := snd (Watcher_constructor 2 (VObj 5) "b.c" cb_emit ex_instance) in
  (forall dep,
     Dep_subs st' dep =
     Dep_subs ex_instance dep ++
     replicate (count_occ Nat.eq_dec [2; 1] dep) this) /\
  heap st' = heap ex_instance /\
  exists evs,
    new_events ex_instance st' =
      EUpdate (w_id this)
        :: ECallback (w_id this) (VNum 2) (Some (w_id this)) :: evs.
Proof.
  apply (discovery_records_the_traversed_fields
           1 (VObj 5) "b.c" cb_emit ex_instance (VNum 2) [2; 1]).
  - vm_compute. reflexivity.
  - repeat constructor.
  - intros x. reflexivity.
Defined.

Lemma run_script_no_target d s st :
  target st = None ->
  deps (snd (run_script d s st)) = deps st /\
  heap (snd (run_script d s st)) = heap st /\
  target (snd (run_script d s st)) = None.
Proof.
  revert st. induction s as [|e|v s IH|o key k IH]; intros st Ht; simpl; auto.
  - unfold bind, log.
    apply (IH (with_trace (trace st ++ [EEmit v]) st) Ht).
  - unfold bind. pose proof (get_field_no_target d o key st Ht) as E.
    destruct (get_field d o key st) as [[x|e] s1]; cbn [snd] in E; subst s1;
      cbn [snd]; auto.
Qed.

Lemma Watcher_update_resolved d w st v ds :
  path_walk st (w_vm w) (split_key (w_key w)) = Some (v, ds) ->
  target st = None ->
  let st' := snd (Watcher_update (S d) w st) in
  heap st' = heap st /\ deps st' = deps st /\ target st' = None /\
  exists evs,
    trace st' =
      trace st ++ EUpdate (w_id w) :: ECallback (w_id w) v None :: evs /\
    invoked evs = [] /\ called evs = [] /\
    forall x k, w_cb w v = Emit x k -> exists evs', evs = EEmit x :: evs'.
Proof.
  intros Hw Ht st'. subst st'.
  unfold Watcher_update, bind, log.
  set (s0 := with_trace (trace st ++ [EUpdate (w_id w)]) st).
  assert (Hres : reduce_path (S d) (split_key (w_key w)) (w_vm w) s0 =
                 (Ok v, s0)).
  { rewrite (reduce_path_walk d _ _ s0 v ds).
    - change (target s0) with (target st). rewrite Ht. reflexivity.
    - rewrite (same_heap_path_walk st s0); [exact Hw | reflexivity]. }
  rewrite Hres. unfold call_cb, bind, get_target, log.
  change (target s0) with (target st). rewrite Ht.
  cbn [fmap option_fmap option_map].
  set (s1 := with_trace _ s0).
  assert (Ht1 : target s1 = None) by exact Ht.
  destruct (run_script_no_target (S d) (w_cb w v) s1 Ht1) as (Hd & Hh & Htg).
  pose proof (run_script_quiet (S d) (w_cb w v) s1 I)
    as [_ (evs & He & Hi & Hc)].
  assert (Htrace : trace (snd (run_script (S d) (w_cb w v) s1)) =
    trace st ++ EUpdate (w_id w) :: ECallback (w_id w) v None :: evs).
  { rewrite He. unfold s1, s0. cbn [trace with_trace].
    rewrite <- !app_assoc. reflexivity. }
  assert (Hemit : forall x k, w_cb w v = Emit x k ->
                              exists evs', evs = EEmit x :: evs').
  { intros x k Hcb. rewrite Hcb in He. cbn [run_script] in He.
    unfold bind, log in He.
    destruct (run_script_quiet (S d) k
                (with_trace (trace s1 ++ [EEmit x]) s1) I)
      as [_ (evs' & He' & _)].
    exists evs'. rewrite He' in He. cbn [trace with_trace] in He.
    rewrite <- app_assoc in He. apply app_inv_head in He. symmetry. exact He. }
  destruct (run_script (S d) (w_cb w v) s1) as [[[]|e] s2]; cbn [fst snd] in *;
    (split; [rewrite Hh; reflexivity|]; split; [rewrite Hd; reflexivity|];
     split; [exact Htg|]; exists evs; split; [exact Htrace|];
     split; [exact Hi|]; split; [exact Hc | exact Hemit]).
Qed.

(** X5.  [update()] outside a discovery pass: when the key path of the
    tracker resolves to [v] and no tracking context is set, the callback is
    handed [v] with no context, whatever it reads records nothing, the heap
    and every [subs] array are as before, and no further tracker is run. *)
Theorem update_reports_the_resolved_value d w st v ds :
  path_walk st (w_vm w) (split_key (w_key w)) = Some (v, ds) ->
  target st = None ->
  let st' := snd (Watcher_update (S d) w st) in
  heap st' = heap st /\ deps st' = deps st /\ target st' = None /\
  exists evs,
    new_events st st' = EUpdate (w_id w) :: ECallback (w_id w) v None :: evs /\
    invoked evs = [] /\ called evs = [].
Proof.
  intros Hw Ht st'.
  destruct (Watcher_update_resolved d w st v ds Hw Ht)
    as (Hh & Hd & Htg & evs & Htr & Hi & Hc & _).
  split; [exact Hh|]. split; [exact Hd|]. split; [exact Htg|].
  exists evs. split; [|split; [exact Hi | exact Hc]].
  apply new_events_app. exact Htr.
Qed.

Lemma update_reports_the_resolved_value_witness :
  let st' := snd (Watcher_update 2 ex_tracker_bc ex_tracked_bc) in
  heap st' = heap ex_tracked_bc /\ deps st' = deps ex_tracked_bc /\
  target st' = None /\
  exists evs,
    new_events ex_tracked_bc st' =
      EUpdate (w_id ex_tracker_bc)
        :: ECallback (w_id ex_tracker_bc) (VNum 2) None :: evs /\
    invoked evs = [] /\ called evs = [].
Proof.
  apply (update_reports_the_resolved_value
           1 ex_tracker_bc ex_tracked_bc (VNum 2) [2; 1]);
    vm_compute; reflexivity.
Defined.

(** ** Instances over data that has a key [$data] *)

Lemma get_data_overflows d vm st :
  own_prop st vm "$data" = Some (PProxy "$data") ->
  get_field d (VObj vm) "$data" st = (Err RangeError, st).
Proof.
  intros H. induction d as [|d IH]; simpl; rewrite H; [reflexivity|].
  unfold bind. rewrite IH. reflexivity.
Qed.

(** X6.  When [_proxy] has run for the key [$data], the accessor of [$data]
    forwards to itself: every read and every write through a proxied key of
    the instance exhausts the call stack, whatever its size, and leaves the
    store untouched. *)
Theorem self_forwarding_data_overflows d vm k key st :
  own_prop st vm "$data" = Some (PProxy "$data") ->
  own_prop st vm k = Some (PProxy key) ->
  get_field d (VObj vm) k st = (Err RangeError, st) /\
  forall x, set_field d (VObj vm) k x st = (Err RangeError, st).
Proof.
  intros Hd Hk. destruct d as [|d]; simpl; rewrite Hk.
  - split; reflexivity.
  - unfold bind. rewrite (get_data_overflows d vm st Hd). split; reflexivity.
Qed.

Lemma self_forwarding_data_overflows_witness :
  get_field 9 (VObj 2) "n" ex_shadowing = (Err RangeError, ex_shadowing) /\
  forall x, set_field 9 (VObj 2) "n" x ex_shadowing =
            (Err RangeError, ex_shadowing).
Proof.
  apply (self_forwarding_data_overflows 9 2 "n" "n" ex_shadowing);
    vm_compute; reflexivity.
Defined.

(** ** [new Vue] without data *)

Lemma own_prop_fresh st k :
  own_prop (with_heap (heap st ++ [mkObj false []]) st) (length (heap st)) k =
  None.
Proof.
  unfold own_prop. cbn [heap with_heap].
  rewrite lookup_app_r by lia. rewrite Nat.sub_diag. reflexivity.
Qed.

Lemma own_prop_alloc_any st l k :
  own_prop (with_heap (heap st ++ [mkObj false []]) st) l k = own_prop st l k.
Proof.
  destruct (Nat.lt_ge_cases l (length (heap st))) as [Hlt|Hge].
  - apply own_prop_alloc. exact Hlt.
  - unfold own_prop. cbn [heap with_heap].
    rewrite (lookup_ge_None_2 (heap st) l Hge).
    rewrite lookup_app_r by exact Hge.
    destruct (l - length (heap st)) as [|n]; reflexivity.
Qed.

Lemma Object_keys_alloc_ne st o l :
  l <> length (heap st) ->
  Object_keys (with_heap (heap st ++ [o]) st) l = Object_keys st l.
Proof.
  intros Hne. destruct (Nat.lt_ge_cases l (length (heap st))) as [Hlt|Hge].
  - apply Object_keys_alloc. exact Hlt.
  - unfold Object_keys. cbn [heap with_heap].
    rewrite (lookup_ge_None_2 (heap st) l Hge).
    rewrite lookup_app_r by exact Hge.
    destruct (l - length (heap st)) as [|n] eqn:E; [lia|]. reflexivity.
Qed.

(** Steps 1 and 2 up to the call of [Observer], over an options object:
    the store they leave, and what is left to run. *)
Lemma Vue_constructor_stores d lo a ds st :
  lo < length (heap st) ->
  stored (own_prop st lo "data") = Some (a, ds) ->
  exists s3,
    Vue_constructor d (VObj lo) st =
      (Observer_constructor d a ;;;
       data'' <- get_field d (VObj (length (heap st))) "$data" ;;
       keys <- keys_of data'' ;;
       forEach keys (call_proxy d (length (heap st))) ;;;
       ret (length (heap st))) s3 /\
    (forall l k,
       own_prop s3 l k =
       if Nat.eqb l (length (heap st))
       then if String.eqb k "$options" then Some (PData (VObj lo))
            else if String.eqb k "$data" then Some (PData a)
            else None
       else own_prop st l k) /\
    (forall l, l <> length (heap st) -> Object_keys s3 l = Object_keys st l) /\
    length (deps s3) = length (deps st) /\
    target s3 = target st /\ trace s3 = trace st.
Proof.
  intros Hlo Hst.
  set (this := length (heap st)).
  set (s0 := with_heap (heap st ++ [mkObj false []]) st).
  set (s1 := snd (defineProperty this "$options" (PData (VObj lo)) s0)).
  set (s2 := record (target s1) ds s1).
  set (s3 := snd (defineProperty this "$data" (PData a) s2)).
  assert (Hne : lo <> this) by (unfold this; lia).
  assert (Hthis0 : is_Some (heap s0 !! this)).
  { apply lookup_lt_is_Some. unfold s0. cbn [heap with_heap].
    rewrite length_app. simpl. unfold this. lia. }
  assert (Hown1 : forall l k,
    own_prop s1 l k =
    if Nat.eqb l this && String.eqb k "$options" then Some (PData (VObj lo))
    else own_prop st l k).
  { intros l k. unfold s1. rewrite own_prop_defineProperty.
    destruct Hthis0 as [o0 Ho0]. rewrite Ho0. unfold s0.
    rewrite own_prop_alloc_any. reflexivity. }
  assert (Hh2 : heap s2 = heap s1) by apply record_heap.
  assert (Hthis2 : is_Some (heap s2 !! this)).
  { rewrite Hh2. unfold s1. apply heap_defineProperty_Some. exact Hthis0. }
  assert (Hnone : forall k, own_prop st this k = None).
  { intros k. unfold own_prop, this.
    rewrite (lookup_ge_None_2 (heap st) (length (heap st))); [reflexivity|lia]. }
  assert (Hown3 : forall l k,
    own_prop s3 l k =
    if Nat.eqb l this
    then if String.eqb k "$options" then Some (PData (VObj lo))
         else if String.eqb k "$data" then Some (PData a)
         else None
    else own_prop st l k).
  { intros l k. unfold s3. rewrite own_prop_defineProperty.
    destruct Hthis2 as [o2 Ho2]. rewrite Ho2.
    rewrite (same_heap_own_prop s1 s2 l k Hh2), Hown1.
    destruct (Nat.eqb_spec l this) as [->|Hl]; cbn [andb]; [|reflexivity].
    destruct (String.eqb_spec k "$data") as [->|Hk]; [reflexivity|].
    destruct (String.eqb k "$options"); [reflexivity | apply Hnone]. }
  exists s3. split; [|split; [exact Hown3|]; split; [|split; [|split]]].
  - unfold Vue_constructor. cbn zeta. fold this. fold s0.
    unfold bind at 1.
    rewrite (set_field_absent d this "$options" (VObj lo) s0
               (own_prop_fresh st _)).
    change (defineProperty this "$options" (PData (VObj lo)) s0)
      with (Ok tt, s1).
    cbv beta iota. unfold bind at 1.
    assert (Hst1 : stored (own_prop s1 lo "data") = Some (a, ds)).
    { rewrite Hown1. destruct (Nat.eqb_spec lo this) as [E|_];
        [contradiction | exact Hst]. }
    rewrite (get_stored d lo "data" s1 a ds Hst1). fold s2.
    unfold bind at 1.
    assert (Hnone2 : own_prop s2 this "$data" = None).
    { rewrite (same_heap_own_prop s1 s2 this "$data" Hh2), Hown1.
      rewrite Nat.eqb_refl. apply Hnone. }
    rewrite (set_field_absent d this "$data" a s2 Hnone2).
    change (defineProperty this "$data" (PData a) s2) with (Ok tt, s3).
    cbv beta iota. unfold bind at 1.
    assert (Hd3 : own_prop s3 this "$data" = Some (PData a)).
    { rewrite Hown3, Nat.eqb_refl. reflexivity. }
    rewrite (get_field_data d this "$data" s3 _ Hd3). reflexivity.
  - intros l Hl. unfold s3.
    rewrite Object_keys_defineProperty_ne by exact Hl.
    rewrite (same_heap_keys s1 s2 l Hh2). unfold s1.
    rewrite Object_keys_defineProperty_ne by exact Hl.
    apply Object_keys_alloc_ne. exact Hl.
  - destruct (record_reads (target s1) ds s1) as (_ & _ & _ & _ & Hl).
    exact Hl.
  - destruct (record_reads (target s1) ds s1) as (_ & Ht & _). exact Ht.
  - destruct (record_reads (target s1) ds s1) as (_ & _ & _ & Htr & _).
    exact Htr.
Qed.

(** X7.  [new Vue(options)] over an options object whose [data] is missing,
    [undefined] or [null]: the constructor stores it, [observe] returns at
    once, and [Object.keys(this.$data)] raises a [TypeError].  The store it
    leaves has the new instance with [$options] and [$data] as its only
    properties, both ordinary: no proxy is defined, no property of any
    other object is touched, and no subscription is created. *)
Theorem Vue_without_data_raises d lo a ds st :
  lo < length (heap st) ->
  stored (own_prop st lo "data") = Some (a, ds) ->
  absent a = true ->
  let r := Vue_constructor d (VObj lo) st in
  fst r = Err (TypeErrorObject a) /\
  (forall l k,
     own_prop (snd r) l k =
     if Nat.eqb l (length (heap st))
     then if String.eqb k "$options" then Some (PData (VObj lo))
          else if String.eqb k "$data" then Some (PData a)
          else None
     else own_prop st l k) /\
  length (deps (snd r)) = length (deps st).
Proof.
  intros Hlo Hst Habs r. subst r.
  destruct (Vue_constructor_stores d lo a ds st Hlo Hst)
    as (s3 & E & Hown & _ & Hdeps & _).
  assert (Hrun : Vue_constructor d (VObj lo) st = (Err (TypeErrorObject a), s3)).
  { rewrite E. unfold bind at 1. unfold Observer_constructor.
    assert (Hobs : observe d a s3 = (Ok tt, s3)).
    { destruct a; try discriminate; destruct d; reflexivity. }
    rewrite Hobs. unfold bind at 1.
    assert (Hd3 : own_prop s3 (length (heap st)) "$data" = Some (PData a)).
    { rewrite Hown, Nat.eqb_refl. reflexivity. }
    rewrite (get_field_data d _ "$data" s3 _ Hd3).
    unfold bind at 1. destruct a; try discriminate; reflexivity. }
  rewrite Hrun. cbn [fst snd].
  split; [reflexivity|]. split; [exact Hown | exact Hdeps].
Qed.

Lemma Vue_without_data_raises_witness :
  let r := Vue_constructor 4 (VObj 1) ex_plain in
  fst r = Err (TypeErrorObject VUndef) /\
  (forall l k,
     own_prop (snd r) l k =
     if Nat.eqb l (length (heap ex_plain))
     then if String.eqb k "$options" then Some (PData (VObj 1))
          else if String.eqb k "$data" then Some (PData VUndef)
          else None
     else own_prop ex_plain l k) /\
  length (deps (snd r)) = length (deps ex_plain).
Proof.
  apply (Vue_without_data_raises 4 1 VUndef [] ex_plain).
  - vm_compute. lia.
  - vm_compute. reflexivity.
  - reflexivity.
Defined.

(** ** What a write leaves alone *)

Lemma set_field_deps_length d l k x st :
  (forall key, own_prop st l k <> Some (PProxy key)) ->
  length (deps (snd (set_field d (VObj l) k x st))) = length (deps st).
Proof.
  intros Hnp.
  assert (H : length (deps (snd (match own_prop st l k with
                     | Some (PReactive val dep) =>
                         reactive_set d l k val dep x st
                     | _ => defineProperty l k (PData x) st
                     end))) = length (deps st)).
  { destruct (own_prop st l k) as [[v|cur dep|key]|]; try reflexivity.
    unfold reactive_set. destruct (strict_eq cur x); [reflexivity|].
    unfold bind. cbn [defineProperty].
    destruct (Dep_notify_frame d dep
                (with_heap
                   (alter (fun o => mkObj (is_array o)
                             (define_prop k (PReactive x dep) (props o)))
                      l (heap st)) st) I) as [_ (_ & _ & _ & Hl)].
    exact Hl. }
  rewrite <- H.
  destruct d; simpl; destruct (own_prop st l k) as [[v|cur dep|key]|] eqn:Hown;
    try reflexivity; exfalso; apply (Hnp key); reflexivity.
Qed.



(** ** Converting an object again *)

Lemma observe_fresh_dep d l st st' k :
  observe d (VObj l) st = (Ok tt, st') ->
  is_Some (own_prop st' l k) ->
  exists v dep,
    own_prop st' l k = Some (PReactive v dep) /\ length (deps st) <= dep.
Proof.
  intros E Hk. pose proof (observe_converts d (VObj l) st) as Hc.
  rewrite E in Hc. cbn [snd] in Hc.
  destruct d as [|d]; simpl in E; [discriminate|].
  assert (Hin : In k (Object_keys st l)).
  { apply own_prop_keys. apply (converts_keys_iff st st' l k Hc). exact Hk. }
  destruct (observe_keys_at d l (Object_keys st l) st st' k
              (fun k1 H1 => proj2 (own_prop_keys st l k1) H1) E Hin)
    as (sa & sb & Hsa & Hbody & Hsb).
  unfold bind in Hbody.
  destruct (get_field d (VObj l) k sa) as [[val|e] sa'] eqn:Hg;
    [|discriminate].
  pose proof (get_field_run _ _ _ _ _ _ Hg) as Hr.
  unfold defineReactive in Hbody. unfold bind at 1 in Hbody.
  pose proof (observe_converts d val sa') as Ho.
  destruct (observe d val sa') as [[[]|e] sc] eqn:Hobs; [|discriminate].
  cbn [snd] in Ho.
  assert (Hsome : is_Some (own_prop sc l k)).
  { eapply converts_is_Some; [exact Ho|].
    eapply converts_is_Some; [apply reads_converts, Hr|].
    eapply converts_is_Some; [exact Hsa|].
    apply own_prop_keys. exact Hin. }
  pose proof (install_reactive l k val sc Hsome) as Hi.
  pose proof (install_converts l k val sc Hsome) as Hlen.
  rewrite Hbody in Hi, Hlen. cbn [snd] in Hi, Hlen.
  assert (Hsc : length (deps st) <= length (deps sc)).
  { destruct Hsa as (_ & _ & _ & La & _), Hr as (_ & _ & _ & _ & Lr),
             Ho as (_ & _ & _ & Lo & _). lia. }
  destruct Hsb as (_ & _ & _ & _ & _ & _ & P). specialize (P l k).
  rewrite Hi in P.
  destruct (own_prop st' l k) as [q'|]; simpl in P; [|tauto].
  destruct P as [->|(v & dep & -> & Hd & _)].
  - exists val, (length (deps sc)). split; [reflexivity | exact Hsc].
  - exists v, dep. split; [reflexivity|].
    assert (Hsb : length (deps sc) <= length (deps sb)).
    { unfold bind, Dep_constructor, defineProperty in Hbody.
      injection Hbody as <-. cbn [deps with_heap with_deps].
      rewrite length_app. lia. }
    lia.
Qed.

(** X9.  Each run of [observe] over an object gives every field of the
    object a subscription of its own that did not exist before and, outside
    a discovery pass, has no subscriber: what earlier conversions recorded
    is not carried over, so a later write to the field enters no [update()]. *)
Theorem reconversion_starts_empty_subscriptions d l k st st' :
  target st = None ->
  observe d (VObj l) st = (Ok tt, st') ->
  is_Some (own_prop st' l k) ->
  exists v dep,
    own_prop st' l k = Some (PReactive v dep) /\
    length (deps st) <= dep /\
    Dep_subs st' dep = [] /\
    forall d' x,
      invoked (new_events st' (snd (set_field d' (VObj l) k x st'))) = [].
Proof.
  intros Ht E Hk.
  destruct (observe_fresh_dep d l st st' k E Hk) as (v & dep & Hown & Hd).
  exists v, dep. split; [exact Hown|]. split; [exact Hd|].
  assert (Hsubs : Dep_subs st' dep = []).
  { destruct (observe_tracks d (VObj l) st I) as [_ [_ H]].
    rewrite E in H. cbn [snd] in H.
    destruct (H dep) as (ext & Hext & Hall). rewrite Hext.
    unfold Dep_subs at 1. rewrite (lookup_ge_None_2 _ _ Hd). cbn [default].
    destruct ext as [|w ext]; [reflexivity|].
    apply Forall_cons in Hall. destruct Hall as [Hw _]. congruence. }
  split; [exact Hsubs|]. intros d' x.
  destruct (strict_eq v x) eqn:Heq.
  - assert (Hset : set_field d' (VObj l) k x st' = (Ok tt, st')).
    { destruct d'; simpl; rewrite Hown; unfold reactive_set; rewrite Heq;
        reflexivity. }
    rewrite Hset. cbn [snd]. rewrite (new_events_app st' st' []); [reflexivity|].
    rewrite app_nil_r. reflexivity.
  - destruct (write_enters_updates_in_order d' l k v dep x st'
                (fst (set_field d' (VObj l) k x st'))
                (snd (set_field d' (VObj l) k x st')) Hown Heq)
      as [Hpre _].
    { destruct (set_field d' (VObj l) k x st'); reflexivity. }
    rewrite Hsubs in Hpre. cbn [fmap list_fmap] in Hpre.
    apply prefix_nil_inv in Hpre. exact Hpre.
Qed.

Lemma reconversion_starts_empty_subscriptions_witness :
  exists v dep,
    own_prop ex_reconverted 0 "a" = Some (PReactive v dep) /\
    length (deps ex_two_trackers) <= dep /\
    Dep_subs ex_reconverted dep = [] /\
    forall d' x,
      invoked (new_events ex_reconverted
                 (snd (set_field d' (VObj 0) "a" x ex_reconverted))) = [].
Proof.
  apply (reconversion_starts_empty_subscriptions
           4 0 "a" ex_two_trackers ex_reconverted).
  - vm_compute. reflexivity.
  - vm_compute. reflexivity.
  - vm_compute. eauto.
Defined.

(** ** When conversion returns *)

Lemma ranked_nests st rk : ranked st rk = true -> nests st rk.
Proof.
  unfold ranked, nests, peek, own_prop. intros H l k l' Hp.
  destruct (heap st !! l) as [o|] eqn:Ho; [|discriminate].
  destruct (lookup_prop k (props o)) as [p|] eqn:Hl; [|discriminate].
  rewrite forallb_forall in H.
  assert (Hin : In (l, o) (imap pair (heap st))).
  { apply list_elem_of_In, elem_of_lookup_imap. eauto. }
  specialize (H (l, o) Hin). cbn [fst snd] in H.
  rewrite forallb_forall in H.
  specialize (H (k, p) (lookup_prop_In _ _ _ Hl)). cbn [snd] in H.
  rewrite Hp in H. apply Nat.ltb_lt. exact H.
Qed.

(** X10.  On data without proxies whose objects nest strictly, [observe]
    with a stack budget above the rank of its argument returns, and then
    every property of every object reachable from the argument is
    intercepted. *)
Theorem conversion_returns_on_acyclic_data rk d v st :
  no_proxy st -> nests st rk ->
  (forall l, v = VObj l -> rk l < d) ->
  exists st',
    observe d v st = (Ok tt, st') /\
    forall l k, reach st v l -> is_Some (own_prop st l k) ->
                is_reactive (own_prop st' l k).
Proof.
  intros Hnp Hn Hd.
  pose proof (observe_returns rk d v st Hnp Hn Hd) as Hok.
  pose proof (observe_converts d v st) as Hc.
  destruct (observe d v st) as [[[]|e] st'] eqn:E; [|discriminate].
  exists st'. split; [reflexivity|]. intros l k Hr Hk.
  apply (observe_reach_reactive st v l Hr st d st' (converts_refl st) E).
  apply (converts_is_Some st st' l k Hc Hk).
Qed.

Lemma conversion_returns_on_acyclic_data_witness :
  exists st',
    observe 4 (VObj 0) ex_plain = (Ok tt, st') /\
    forall l k, reach ex_plain (VObj 0) l -> is_Some (own_prop ex_plain l k) ->
                is_reactive (own_prop st' l k).
Proof.
  apply (conversion_returns_on_acyclic_data ex_rank 4 (VObj 0) ex_plain).
  - apply plain_heap_no_proxy. vm_compute. reflexivity.
  - apply ranked_nests. vm_compute. reflexivity.
  - intros l E. injection E as <-. vm_compute. lia.
Defined.

(** ** When conversion overflows *)

Lemma observe_body_eq d l key s v0 :
  peek s l key = Some v0 ->
  exists sa,
    reads s sa /\
    bind (get_field d (VObj l) key)
      (fun val => defineReactive (observe d) l key val) s =
    defineReactive (observe d) l key v0 sa.
Proof.
  intros Hp. unfold peek in Hp.
  destruct (own_prop s l key) as [q|] eqn:Hq; [|discriminate].
  pose proof (get_field_peek d l key s q v0 Hq Hp) as Hg.
  unfold bind.
  destruct (get_field d (VObj l) key s) as [[val|e] sa] eqn:Hg';
    simpl in Hg; [|discriminate].
  injection Hg as ->. exists sa. split; [|reflexivity].
  apply (get_field_run _ _ _ _ _ _ Hg').
Qed.

Lemma no_proxy_peek s l k :
  no_proxy s -> is_Some (own_prop s l k) -> exists v0, peek s l k = Some v0.
Proof.
  intros Hnp [q Hq]. unfold peek. rewrite Hq.
  destruct q as [v0|v0 dep|key]; simpl; eauto.
  exfalso. apply (Hnp l k key Hq).
Qed.

Lemma defineReactive_outcome d l key v0 sa :
  fst (defineReactive (observe d) l key v0 sa) = fst (observe d v0 sa).
Proof.
  unfold defineReactive, bind.
  destruct (observe d v0 sa) as [[[]|e] sb]; reflexivity.
Qed.

(** On data without proxies the only exception [observe] raises is the
    stack overflow. *)
Lemma observe_only_overflows d v s e :
  no_proxy s -> fst (observe d v s) = Err e -> e = RangeError.
Proof.
  revert v s. induction d as [|d IH]; intros v s Hnp;
    destruct v as [| | | | |l]; simpl; try discriminate; try congruence.
  assert (Hloop : forall keys s0,
    no_proxy s0 ->
    (forall k, In k keys -> is_Some (own_prop s0 l k)) ->
    fst (forEach keys
           (fun key => bind (get_field d (VObj l) key)
                         (fun val => defineReactive (observe d) l key val))
           s0) = Err e -> e = RangeError).
  { induction keys as [|key keys IHk]; intros s0 Hnp0 Hk; [discriminate|].
    simpl. unfold bind at 1.
    pose proof (observe_body_converts d l key s0
                  (fun v0 s1 => observe_converts d v0 s1)
                  (Hk key (or_introl eq_refl))) as Hb.
    destruct (no_proxy_peek s0 l key Hnp0 (Hk key (or_introl eq_refl)))
      as [v0 Hv0].
    destruct (observe_body_eq d l key s0 v0 Hv0) as (sa & Hr & Heq).
    assert (Hres : fst (bind (get_field d (VObj l) key)
                     (fun val => defineReactive (observe d) l key val) s0) =
                   fst (observe d v0 sa)).
    { rewrite Heq. apply defineReactive_outcome. }
    assert (Hnpa : no_proxy sa).
    { apply (converts_no_proxy s0 sa (reads_converts _ _ Hr) Hnp0). }
    destruct (bind (get_field d (VObj l) key) _ s0) as [[[]|e0] s1];
      cbn [fst snd] in *.
    - apply IHk.
      + apply (converts_no_proxy s0 s1 Hb Hnp0).
      + intros k Hin. eapply converts_is_Some; [exact Hb|]. apply Hk.
        now right.
    - intros E. injection E as ->. apply (IH v0 sa Hnpa). congruence. }
  apply Hloop; [exact Hnp|].
  intros k Hin. apply own_prop_keys. exact Hin.
Qed.

(** A stack budget that the nesting of the data reaches is exhausted. *)
Lemma observe_deep_overflows st d :
  no_proxy st ->
  forall v s, converts st s -> deep st d v ->
              fst (observe d v s) = Err RangeError.
Proof.
  intros Hnp. induction d as [|d IH]; intros v s Hc Hdeep.
  - inversion Hdeep; subst. reflexivity.
  - inversion Hdeep as [|n l k v' Hpk Hd']; subst. simpl.
    assert (Hloop : forall keys s0,
      converts st s0 -> In k keys ->
      (forall k0, In k0 keys -> is_Some (own_prop s0 l k0)) ->
      fst (forEach keys
             (fun key => bind (get_field d (VObj l) key)
                           (fun val => defineReactive (observe d) l key val))
             s0) = Err RangeError).
    { induction keys as [|key keys IHk]; intros s0 Hc0 Hin Hk; [destruct Hin|].
      simpl. unfold bind at 1.
      pose proof (converts_no_proxy st s0 Hc0 Hnp) as Hnp0.
      pose proof (observe_body_converts d l key s0
                    (fun v0 s1 => observe_converts d v0 s1)
                    (Hk key (or_introl eq_refl))) as Hb.
      destruct (no_proxy_peek s0 l key Hnp0 (Hk key (or_introl eq_refl)))
        as [v0 Hv0].
      destruct (observe_body_eq d l key s0 v0 Hv0) as (sa & Hr & Heq).
      assert (Hres : fst (bind (get_field d (VObj l) key)
                       (fun val => defineReactive (observe d) l key val) s0) =
                     fst (observe d v0 sa)).
      { rewrite Heq. apply defineReactive_outcome. }
      assert (Hca : converts st sa).
      { eapply converts_trans; [exact Hc0 | apply reads_converts, Hr]. }
      assert (Hnpa : no_proxy sa) by apply (converts_no_proxy st sa Hca Hnp).
      assert (Hhere : key = k -> fst (observe d v0 sa) = Err RangeError).
      { intros ->. pose proof (converts_peek _ _ _ _ _ Hc0 Hpk) as Hp.
        assert (v0 = v') by congruence. subst v0. apply IH; assumption. }
      destruct (bind (get_field d (VObj l) key) _ s0) as [[[]|e] s1];
        cbn [fst snd] in *.
      - apply IHk.
        + apply (converts_trans st s0 s1 Hc0 Hb).
        + destruct Hin as [Heqk|Hin]; [|exact Hin].
          specialize (Hhere Heqk). congruence.
        + intros k0 H0. eapply converts_is_Some; [exact Hb|]. apply Hk.
          now right.
      - f_equal. apply (observe_only_overflows d v0 sa e Hnpa). congruence. }
    apply Hloop; [exact Hc| |].
    + apply own_prop_keys. pose proof (converts_peek _ _ _ _ _ Hc Hpk) as Hp.
      unfold peek in Hp. destruct (own_prop s l k); [eauto | discriminate].
    + intros k0 Hin. apply own_prop_keys. exact Hin.
Qed.

Lemma deep_less st n v : deep st (S n) v -> deep st n v.
Proof.
  revert v. induction n as [|n IH]; intros v H.
  - inversion H; subst. constructor.
  - inversion H as [|m l k v' Hp Hd]; subst.
    apply (deep_field st n l k v' Hp). apply IH. exact Hd.
Qed.

Lemma deep_reach st n v l : reach st v l -> deep st n (VObj l) -> deep st n v.
Proof.
  induction 1 as [l|l0 k v l' Hp Hr IH]; intros Hd; [exact Hd|].
  apply deep_less. apply (deep_field st n l0 k v Hp). apply IH. exact Hd.
Qed.

(** X11.  [observe] has no guard against data that refers back to itself: on
    an object that lies on a cycle of field values it exhausts the call
    stack, whatever the size of the stack. *)
Theorem conversion_of_cyclic_data_overflows d l k v st :
  no_proxy st ->
  peek st l k = Some v -> reach st v l ->
  fst (observe d (VObj l) st) = Err RangeError.
Proof.
  intros Hnp Hp Hr.
  apply (observe_deep_overflows st d Hnp (VObj l) st (converts_refl st)).
  induction d as [|d IH]; [constructor|].
  apply (deep_field st d l k v Hp). apply (deep_reach st d v l Hr IH).
Qed.

Lemma conversion_of_cyclic_data_overflows_witness :
  fst (observe 7 (VObj 0) ex_cyclic) = Err RangeError.
Proof.
  apply (conversion_of_cyclic_data_overflows 7 0 "next" (VObj 1) ex_cyclic).
  - apply plain_heap_no_proxy. vm_compute. reflexivity.
  - vm_compute. reflexivity.
  - apply (reach_field ex_cyclic 1 "back" (VObj 0) 0).
    + vm_compute. reflexivity.
    + apply reach_here.
Defined.

(** ** One subscription per converted field *)

Lemma defineProperty_wf_plain l k p st :
  (forall v dep, p <> PReactive v dep) ->
  deps_wf st -> deps_wf (snd (defineProperty l k p st)).
Proof.
  intros Hp [B U].
  assert (Hold : forall l' k' v dep,
            own_prop (snd (defineProperty l k p st)) l' k' =
              Some (PReactive v dep) ->
            own_prop st l' k' = Some (PReactive v dep)).
  { intros l' k' v dep. rewrite own_prop_defineProperty.
    destruct (Nat.eqb l' l && String.eqb k' k); [|auto].
    destruct (heap st !! l); [|discriminate].
    intros E. injection E as ->. exfalso. apply (Hp v dep). reflexivity. }
  split.
  - intros l' k' v dep E. apply (B l' k' v dep (Hold _ _ _ _ E)).
  - intros l1 k1 v1 dep l2 k2 v2 E1 E2.
    apply (U _ _ _ _ _ _ _ (Hold _ _ _ _ E1) (Hold _ _ _ _ E2)).
Qed.

Lemma defineProperty_wf_same l k cur x dep st :
  own_prop st l k = Some (PReactive cur dep) ->
  deps_wf st -> deps_wf (snd (defineProperty l k (PReactive x dep) st)).
Proof.
  intros Hown [B U].
  assert (Hold : forall l' k' v dep',
            own_prop (snd (defineProperty l k (PReactive x dep) st)) l' k' =
              Some (PReactive v dep') ->
            exists v0, own_prop st l' k' = Some (PReactive v0 dep')).
  { intros l' k' v dep'. rewrite own_prop_defineProperty.
    destruct (Nat.eqb_spec l' l) as [->|Hne]; cbn [andb]; [|eauto].
    destruct (String.eqb_spec k' k) as [->|Hne]; [|eauto].
    destruct (heap st !! l); [|discriminate].
    intros E. injection E as <- <-. eauto. }
  split.
  - intros l' k' v dep' E. destruct (Hold _ _ _ _ E) as [v0 E0].
    apply (B l' k' v0 dep' E0).
  - intros l1 k1 v1 dep' l2 k2 v2 E1 E2.
    destruct (Hold _ _ _ _ E1) as [v1' E1'].
    destruct (Hold _ _ _ _ E2) as [v2' E2'].
    apply (U _ _ _ _ _ _ _ E1' E2').
Qed.

Lemma frame_wf st st' : frame st st' -> deps_wf st -> deps_wf st'.
Proof. intros (Hh & _ & _ & Hl). apply (deps_wf_same st st' Hh Hl). Qed.

Lemma reactive_set_wf d l k cur dep x st :
  own_prop st l k = Some (PReactive cur dep) ->
  deps_wf st -> deps_wf (snd (reactive_set d l k cur dep x st)).
Proof.
  intros Hown Hwf. unfold reactive_set.
  destruct (strict_eq cur x); [exact Hwf|]. unfold bind.
  pose proof (defineProperty_wf_same l k cur x dep st Hown Hwf) as H1.
  destruct (defineProperty l k (PReactive x dep) st) as [[[]|e] s1];
    cbn [snd] in *; [|exact H1].
  destruct (Dep_notify_frame d dep s1 I) as [_ Hf].
  apply (frame_wf s1 _ Hf H1).
Qed.

Lemma set_field_wf d o k x st :
  deps_wf st -> deps_wf (snd (set_field d o k x st)).
Proof.
  revert o k st. induction d as [|d IH]; intros o k st Hwf;
    destruct o as [| | | | |l]; simpl; try exact Hwf;
    destruct (own_prop st l k) as [[v|cur dep|key]|] eqn:Hown;
    try (apply defineProperty_wf_plain; [discriminate | exact Hwf]);
    try (apply (reactive_set_wf _ l k cur dep x st Hown Hwf));
    try exact Hwf.
  destruct (get_field_wf d (VObj l) "$data" st Hwf) as [H1 _].
  destruct (get_field d (VObj l) "$data" st) as [[data|e] s1];
    cbn [snd] in *; [|exact H1].
  apply IH. exact H1.
Qed.

Lemma Watcher_constructor_wf d vm key cb st :
  deps_wf st -> deps_wf (snd (Watcher_constructor d vm key cb st)).
Proof.
  intros Hwf. unfold Watcher_constructor, bind, set_target. cbn zeta.
  set (this := mkWatcher (next_wid st) vm key cb).
  set (st0 := with_target (Some this) (with_next_wid (S (next_wid st)) st)).
  assert (H0 : deps_wf st0) by exact Hwf.
  destruct (Watcher_update_frame d this st0 I) as [_ Hf].
  pose proof (frame_wf st0 _ Hf H0) as H1.
  destruct (Watcher_update d this st0) as [[[]|e] s1]; cbn [snd] in *;
    exact H1.
Qed.

Lemma Vue_constructor_wf d options st :
  deps_wf st -> deps_wf (snd (Vue_constructor d options st)).
Proof.
  intros [B U]. unfold Vue_constructor. cbn zeta.
  set (st0 := with_heap _ st).
  assert (H0 : deps_wf st0).
  { split.
    - intros l k v dep. unfold st0. rewrite own_prop_alloc_any. apply B.
    - intros l k v dep l' k' v'. unfold st0. rewrite !own_prop_alloc_any.
      apply U. }
  match goal with |- context [snd (?m st0)] =>
    assert (Hm : keeps deps_wf anything m) end.
  { unfold Observer_constructor.
    assert (Hset : forall o k x, keeps deps_wf anything (set_field d o k x)).
    { intros o k x s Hs. split; [apply set_field_wf, Hs | exact I]. }
    assert (Hpx : forall l k, keeps deps_wf anything (call_proxy d l k)).
    { intros l k. apply keeps_call_proxy.
      - intros s Hs. split; [|exact I].
        apply defineProperty_wf_plain; [discriminate | exact Hs].
      - keeps_with anything_refl anything_trans
          ltac:(auto using get_field_wf). }
    assert (Hkeys : forall v, keeps deps_wf anything (keys_of v)).
    { intros v s Hs. split; [|exact I]. destruct v; exact Hs. }
    keeps_with anything_refl anything_trans
      ltac:(auto using get_field_wf, observe_wf). }
  destruct (Hm st0 H0) as [H _]. exact H.
Qed.

Lemma run_op_wf d o st : deps_wf st -> deps_wf (run_op d o st).
Proof.
  intros Hwf. destruct o as [v k|v k x|w|vm key cb|data|options]; simpl.
  - apply (get_field_wf d v k st Hwf).
  - apply set_field_wf, Hwf.
  - destruct (Watcher_update_frame d w st I) as [_ Hf].
    apply (frame_wf st _ Hf Hwf).
  - apply Watcher_constructor_wf, Hwf.
  - apply (observe_wf d data st Hwf).
  - apply Vue_constructor_wf, Hwf.
Qed.

(** X12.  [defineReactive] creates the subscription of a field in its own
    closure and the setter keeps it: from plain data on, whatever a client
    does, every converted field refers to an existing subscription, and no
    two fields refer to the same one. *)
Theorem each_field_has_its_own_subscription d ops st :
  plain_heap st = true -> deps_wf (run_ops d ops st).
Proof.
  intros Hp. pose proof (plain_heap_wf st Hp) as Hwf. clear Hp.
  unfold run_ops. revert st Hwf.
  induction ops as [|o ops IH]; intros st Hwf; simpl; [exact Hwf|].
  apply IH. apply run_op_wf. exact Hwf.
Qed.

Lemma each_field_has_its_own_subscription_witness :
  deps_wf (run_ops 2 (ONewVue (VObj 3) :: ex_history) ex_plain).
Proof.
  apply (each_field_has_its_own_subscription
           2 (ONewVue (VObj 3) :: ex_history) ex_plain).
  vm_compute. reflexivity.
Defined.

(** ** Writing and reading through a proxy *)

(** X13.  The accessor pair of [_proxy] round-trips: an assignment to a
    proxied key of an instance whose [$data] holds another object stores the
    value in that object's field, also when a notified tracker throws, and a
    later read of the proxied key returns the value. *)
Theorem proxy_write_then_read d d' vm ld k key x st :
  own_prop st vm k = Some (PProxy key) ->
  peek st vm "$data" = Some (VObj ld) ->
  vm <> ld ->
  is_Some (heap st !! ld) ->
  (forall key', own_prop st ld key <> Some (PProxy key')) ->
  let st' := snd (set_field (S d) (VObj vm) k x st) in
  peek st' ld key = Some x /\
  fst (get_field (S d') (VObj vm) k st') = Ok x.
Proof.
  intros Hk Hdata Hne [o Ho] Hnp st'. subst st'.
  cbn [set_field]. rewrite Hk.
  unfold peek in Hdata.
  destruct (own_prop st vm "$data") as [q|] eqn:Hq; [|discriminate].
  pose proof (get_field_peek d vm "$data" st q _ Hq Hdata) as Hg.
  destruct (get_field d (VObj vm) "$data" st) as [[data|e] s1] eqn:Hg1;
    simpl in Hg; [|discriminate].
  injection Hg as ->.
  pose proof (get_field_run _ _ _ _ _ _ Hg1) as (Hh1 & _).
  assert (Hnp1 : forall key', own_prop s1 ld key <> Some (PProxy key')).
  { intros key'. rewrite (same_heap_own_prop st s1 ld key Hh1). apply Hnp. }
  destruct (set_field_own_prop d ld key x s1 Hnp1) as (p' & Hp & _ & Hown).
  set (s2 := snd (set_field d (VObj ld) key x s1)) in *.
  assert (Hfield : own_prop s2 ld key = Some p').
  { rewrite Hown, Nat.eqb_refl, String.eqb_refl, Hh1, Ho. reflexivity. }
  assert (Hvm : forall k0, own_prop s2 vm k0 = own_prop st vm k0).
  { intros k0. rewrite Hown.
    destruct (Nat.eqb_spec vm ld) as [E|_]; [contradiction|]. cbn [andb].
    apply (same_heap_own_prop st s1 vm k0 Hh1). }
  split.
  - unfold peek. rewrite Hfield. exact Hp.
  - cbn [get_field]. rewrite Hvm, Hk. unfold bind.
    assert (Hq2 : own_prop s2 vm "$data" = Some q) by (rewrite Hvm; exact Hq).
    pose proof (get_field_peek d' vm "$data" s2 q _ Hq2 Hdata) as Hg.
    destruct (get_field d' (VObj vm) "$data" s2) as [[data|e] s3] eqn:Hg3;
      simpl in Hg; [|discriminate].
    injection Hg as ->.
    pose proof (get_field_run _ _ _ _ _ _ Hg3) as (Hh3 & _).
    apply (get_field_peek d' ld key s3 p' x); [|exact Hp].
    rewrite (same_heap_own_prop s2 s3 ld key Hh3). exact Hfield.
Qed.

Lemma proxy_write_then_read_witness :
  let st' := snd (set_field 2 (VObj 5) "a" (VNum 9) ex_instance) in
  peek st' 0 "a" = Some (VNum 9) /\
  fst (get_field 2 (VObj 5) "a" st') = Ok (VNum 9).
Proof.
  apply (proxy_write_then_read 1 1 5 0 "a" "a" (VNum 9) ex_instance).
  - vm_compute. reflexivity.
  - vm_compute. reflexivity.
  - discriminate.
  - vm_compute. eauto.
  - intros key'. vm_compute. discriminate.
Defined.

(** ** [new Vue] over object data *)

Lemma peek_stored st l k v :
  peek st l k = Some v -> exists ds, stored (own_prop st l k) = Some (v, ds).
Proof.
  unfold peek. destruct (own_prop st l k) as [[x|x dep|key]|]; simpl;
    try discriminate; intros E; injection E as ->; eauto.
Qed.

Lemma converts_None st st' l k :
  converts st st' -> own_prop st l k = None -> own_prop st' l k = None.
Proof.
  intros (_ & _ & _ & _ & _ & _ & P) H. specialize (P l k). rewrite H in P.
  destruct (own_prop st' l k); [destruct P | reflexivity].
Qed.

(** Steps 1 to 3 over object data, up to the loop of [_proxy] calls. *)
Lemma Vue_constructor_loop d lo ld st :
  lo < length (heap st) -> ld < length (heap st) ->
  peek st lo "data" = Some (VObj ld) ->
  exists s3,
    (forall l k,
       own_prop s3 l k =
       if Nat.eqb l (length (heap st))
       then if String.eqb k "$options" then Some (PData (VObj lo))
            else if String.eqb k "$data" then Some (PData (VObj ld))
            else None
       else own_prop st l k) /\
    match observe d (VObj ld) s3 with
    | (Ok _, s4) =>
        exists s5,
          converts s3 s4 /\ heap s5 = heap s4 /\
          Vue_constructor d (VObj lo) st =
            (forEach (Object_keys st ld) (call_proxy d (length (heap st))) ;;;
             ret (length (heap st))) s5
    | (Err e, s4) => Vue_constructor d (VObj lo) st = (Err e, s4)
    end.
Proof.
  intros Hlo Hld Hdata. destruct (peek_stored _ _ _ _ Hdata) as [ds Hst].
  destruct (Vue_constructor_stores d lo (VObj ld) ds st Hlo Hst)
    as (s3 & E & Hown & Hkeys & _).
  set (this := length (heap st)) in *.
  exists s3. split; [exact Hown|].
  pose proof (observe_converts d (VObj ld) s3) as Hc.
  destruct (observe d (VObj ld) s3) as [[[]|e] s4] eqn:Hobs; cbn [snd] in Hc.
  2:{ rewrite E. unfold bind at 1. unfold Observer_constructor.
      rewrite Hobs. reflexivity. }
  assert (Hpk4 : peek s4 this "$data" = Some (VObj ld)).
  { apply (converts_peek _ _ _ _ _ Hc). unfold peek.
    rewrite Hown, Nat.eqb_refl. reflexivity. }
  unfold peek in Hpk4.
  destruct (own_prop s4 this "$data") as [q4|] eqn:Hq4; [|discriminate].
  pose proof (get_field_peek d this "$data" s4 q4 _ Hq4 Hpk4) as Hg.
  destruct (get_field d (VObj this) "$data" s4) as [[data|e] s5] eqn:Hg4;
    simpl in Hg; [|discriminate].
  injection Hg as ->.
  pose proof (get_field_run _ _ _ _ _ _ Hg4) as (Hh5 & _).
  exists s5. split; [exact Hc|]. split; [exact Hh5|].
  rewrite E. unfold bind at 1. unfold Observer_constructor. rewrite Hobs.
  unfold bind at 1. rewrite Hg4. unfold bind at 1. cbn [keys_of].
  assert (Hk5 : Object_keys s5 ld = Object_keys st ld).
  { rewrite (same_heap_keys s4 s5 ld Hh5).
    destruct Hc as (_ & _ & _ & _ & K & _). rewrite K.
    apply Hkeys. unfold this. lia. }
  rewrite Hk5. reflexivity.
Qed.

Lemma own_prop_Vue_proxy vm key st k :
  is_Some (heap st !! vm) ->
  own_prop (snd (Vue_proxy vm key st)) vm k =
  if String.eqb k key then Some (PProxy key) else own_prop st vm k.
Proof.
  intros [o Ho]. unfold Vue_proxy.
  rewrite own_prop_defineProperty, Nat.eqb_refl, Ho. reflexivity.
Qed.

(** While no accessor shadows the method, the loop is the loop of the
    method itself. *)
Lemma forEach_call_proxy_clear d keys vm st :
  is_Some (heap st !! vm) ->
  own_prop st vm "_proxy" = None ->
  proxy_shadowed keys = false ->
  forEach keys (call_proxy d vm) st = forEach keys (Vue_proxy vm) st.
Proof.
  revert st. induction keys as [|key keys IH]; intros st Hvm Hnone Hsh;
    [reflexivity|].
  cbn [forEach]. unfold bind. unfold call_proxy at 1. rewrite Hnone.
  destruct keys as [|k2 keys]; [reflexivity|].
  cbn [proxy_shadowed] in Hsh. apply orb_false_iff in Hsh.
  destruct Hsh as [Hkey Hsh].
  pose proof (own_prop_Vue_proxy vm key st "_proxy" Hvm) as Hown.
  rewrite String.eqb_sym, Hkey, Hnone in Hown.
  assert (Hvm1 : is_Some (heap (snd (Vue_proxy vm key st)) !! vm)).
  { unfold Vue_proxy. apply heap_defineProperty_Some. exact Hvm. }
  destruct (Vue_proxy vm key st) as [[[]|e] s1]; cbn [snd] in *;
    [|reflexivity].
  apply (IH s1 Hvm1 Hown Hsh).
Qed.

(** Once [_proxy] has run for the key [_proxy], the next call raises. *)
Lemma forEach_call_proxy_raises d keys vm st :
  is_Some (heap st !! vm) ->
  proxy_shadowed keys = true ->
  is_ok (fst (forEach keys (call_proxy d vm) st)) = false.
Proof.
  assert (Hstep : forall key s,
    is_Some (own_prop s vm "_proxy") ->
    is_ok (fst (call_proxy d vm key s)) = false).
  { intros key s [p Hp]. unfold call_proxy. rewrite Hp. unfold bind, throw.
    destruct (get_field d (VObj vm) "_proxy" s) as [[f|e] s']; reflexivity. }
  revert st. induction keys as [|key keys IH]; intros st Hvm Hsh;
    [discriminate|].
  destruct keys as [|k2 keys]; [discriminate|].
  change (proxy_shadowed (key :: k2 :: keys))
    with (String.eqb key "_proxy" || proxy_shadowed (k2 :: keys)) in Hsh.
  remember (k2 :: keys) as rest eqn:Hrest.
  cbn [forEach]. unfold bind.
  destruct (own_prop st vm "_proxy") as [p|] eqn:Hown.
  { pose proof (Hstep key st (ex_intro _ p Hown)) as H.
    destruct (call_proxy d vm key st) as [[[]|e] s1]; [discriminate|].
    reflexivity. }
  unfold call_proxy at 1. rewrite Hown.
  pose proof (own_prop_Vue_proxy vm key st "_proxy" Hvm) as Hown1.
  assert (Hvm1 : is_Some (heap (snd (Vue_proxy vm key st)) !! vm)).
  { unfold Vue_proxy. apply heap_defineProperty_Some. exact Hvm. }
  destruct (Vue_proxy vm key st) as [[[]|e] s1]; cbn [snd] in *;
    [|reflexivity].
  destruct (String.eqb_spec "_proxy" key) as [<-|Hne].
  - subst rest. cbn [forEach]. unfold bind.
    pose proof (Hstep k2 s1 (ex_intro _ _ Hown1)) as H.
    destruct (call_proxy d vm k2 s1) as [[[]|e] s2]; [discriminate|].
    reflexivity.
  - apply (IH s1 Hvm1).
    destruct (String.eqb_spec key "_proxy") as [->|_]; [contradiction|].
    exact Hsh.
Qed.

(** X14.  Steps 1 to 3 of [new Vue(options)] return the fresh instance when
    [options.data] is an object of a heap without proxies whose objects nest
    strictly, below the instance to be, the stack budget is above the rank
    of the data, and the data has no key [_proxy] standing before another
    key. *)
Theorem Vue_constructor_returns rk d lo ld st :
  lo < length (heap st) -> ld < length (heap st) ->
  peek st lo "data" = Some (VObj ld) ->
  no_proxy st -> nests st rk ->
  rk lo < rk (length (heap st)) -> rk ld < rk (length (heap st)) ->
  rk ld < d ->
  proxy_shadowed (Object_keys st ld) = false ->
  fst (Vue_constructor d (VObj lo) st) = Ok (length (heap st)).
Proof.
  intros Hlo Hld Hdata Hnp Hn Hrlo Hrld Hd Hsh.
  destruct (Vue_constructor_loop d lo ld st Hlo Hld Hdata)
    as (s3 & Hown3 & Hm).
  set (this := length (heap st)) in *.
  assert (Hnp3 : no_proxy s3).
  { intros l k key. rewrite Hown3.
    destruct (Nat.eqb l this); [|apply Hnp].
    destruct (String.eqb k "$options"); [discriminate|].
    destruct (String.eqb k "$data"); discriminate. }
  assert (Hn3 : nests s3 rk).
  { intros l k l'. unfold peek. rewrite Hown3.
    destruct (Nat.eqb_spec l this) as [->|Hl]; [|apply Hn].
    destruct (String.eqb k "$options");
      [intros E; injection E as <-; exact Hrlo|].
    destruct (String.eqb k "$data");
      [intros E; injection E as <-; exact Hrld | discriminate]. }
  pose proof (observe_returns rk d (VObj ld) s3 Hnp3 Hn3) as Hobs.
  destruct (observe d (VObj ld) s3) as [[[]|e] s4]; cbn [fst] in Hobs.
  2:{ assert (H : @Err unit e = Ok tt).
      { apply Hobs. intros l E. injection E as <-. exact Hd. }
      discriminate. }
  destruct Hm as (s5 & Hc & Hh5 & E). rewrite E.
  assert (Hthis5 : is_Some (heap s5 !! this)).
  { assert (H : is_Some (own_prop s5 this "$data")).
    { rewrite (same_heap_own_prop s4 s5 this "$data" Hh5).
      apply (converts_is_Some s3 s4 this "$data" Hc).
      rewrite Hown3, Nat.eqb_refl. eauto. }
    unfold own_prop in H. destruct (heap s5 !! this); [eauto|].
    destruct H as [? H]. discriminate. }
  assert (Hnone5 : own_prop s5 this "_proxy" = None).
  { rewrite (same_heap_own_prop s4 s5 this "_proxy" Hh5).
    apply (converts_None s3 s4 this "_proxy" Hc).
    rewrite Hown3, Nat.eqb_refl. reflexivity. }
  unfold bind.
  rewrite (forEach_call_proxy_clear d _ this s5 Hthis5 Hnone5 Hsh).
  destruct (forEach_proxy (Object_keys st ld) this s5 Hthis5) as [Hok _].
  destruct (forEach (Object_keys st ld) (Vue_proxy this) s5) as [[[]|e] s6];
    cbn [fst] in *; [reflexivity | discriminate].
Qed.

Lemma Vue_constructor_returns_witness :
  fst (Vue_constructor 4 (VObj 3) ex_plain) = Ok (length (heap ex_plain)).
Proof.
  apply (Vue_constructor_returns
           (fun l => match l with 0 => 1 | 3 => 2 | 5 => 3 | _ => 0 end)
           4 3 0 ex_plain).
  - vm_compute. lia.
  - vm_compute. lia.
  - vm_compute. reflexivity.
  - apply plain_heap_no_proxy. vm_compute. reflexivity.
  - apply ranked_nests. vm_compute. reflexivity.
  - vm_compute. lia.
  - vm_compute. lia.
  - vm_compute. lia.
  - vm_compute. reflexivity.
Defined.



(** ** The input listener *)

Lemma input_listener_eq d vm key text segs k :
  split_key key = segs ++ [k] ->
  input_listener d vm key text =
  bind (reduce_path d segs vm) (fun obj => set_field d obj k (VStr text)).
Proof.
  intros E. unfold input_listener. cbn zeta. rewrite E.
  rewrite length_app. cbn [length].
  replace (length segs + 1 - 1) with (length segs) by lia.
  rewrite take_app_length.
  rewrite (list_lookup_middle segs [] k (length segs) eq_refl).
  reflexivity.
Qed.

Lemma path_walk_app st v s1 s2 x d1 :
  path_walk st v s1 = Some (x, d1) ->
  path_walk st v (s1 ++ s2) =
  match path_walk st x s2 with
  | Some (y, d2) => Some (y, d1 ++ d2)
  | None => None
  end.
Proof.
  revert v d1. induction s1 as [|k s1 IH]; intros v d1 H.
  - simpl in H. injection H as -> <-. simpl.
    destruct (path_walk st x s2) as [[y d2]|]; reflexivity.
  - simpl in H. simpl.
    destruct (field_of st v k) as [[z dz]|]; [|discriminate].
    destruct (path_walk st z s1) as [[y dy]|] eqn:Hw; [|discriminate].
    injection H as -> <-. rewrite (IH z dy Hw).
    destruct (path_walk st x s2) as [[y d2]|]; [|reflexivity].
    rewrite app_assoc. reflexivity.
Qed.

Lemma field_of_stable st st' v k :
  (forall l0 k0, In (l0, k0) (cells_of st v k) ->
                 own_prop st' l0 k0 = own_prop st l0 k0) ->
  field_of st' v k = field_of st v k.
Proof.
  destruct v as [| | | | |l]; try reflexivity. cbn [cells_of field_of].
  intros H.
  assert (Hk' : own_prop st' l k = own_prop st l k).
  { apply H. destruct (own_prop st l k) as [[x|x dep|key]|];
      try (left; reflexivity).
    destruct (own_prop st l "$data") as [[[| | | | |ld]|y dep|key']|];
      left; reflexivity. }
  rewrite Hk'.
  destruct (own_prop st l k) as [[x|x dep|key]|]; try reflexivity.
  assert (Hd' : own_prop st' l "$data" = own_prop st l "$data").
  { apply H.
    destruct (own_prop st l "$data") as [[[| | | | |ld]|y dep|key']|];
      right; left; reflexivity. }
  rewrite Hd'.
  destruct (own_prop st l "$data") as [[[| | | | |ld]|y dep|key']|];
    try reflexivity.
  rewrite (H ld key (or_intror (or_intror (or_introl eq_refl)))).
  reflexivity.
Qed.

Lemma path_walk_stable st st' v segs :
  (forall l0 k0, In (l0, k0) (walk_cells st v segs) ->
                 own_prop st' l0 k0 = own_prop st l0 k0) ->
  path_walk st' v segs = path_walk st v segs.
Proof.
  revert v. induction segs as [|k segs IH]; intros v H; [reflexivity|].
  cbn [path_walk walk_cells] in *.
  rewrite (field_of_stable st st' v k).
  2:{ intros l0 k0 Hin. apply H. apply in_or_app. now left. }
  destruct (field_of st v k) as [[x dx]|]; [|reflexivity].
  rewrite (IH x); [reflexivity|].
  intros l0 k0 Hin. apply H. apply in_or_app. now right.
Qed.

Lemma same_heap_write_target st st' l k :
  heap st' = heap st -> write_target st' l k = write_target st l k.
Proof.
  intros H. unfold write_target.
  rewrite (same_heap_own_prop st st' l k H),
          (same_heap_own_prop st st' l "$data" H).
  destruct (own_prop st l k) as [[x|x dep|key]|]; try reflexivity.
  destruct (own_prop st l "$data") as [[[| | | | |ld]|y dep|key']|];
    try reflexivity.
  rewrite (same_heap_own_prop st st' ld key H). reflexivity.
Qed.

(** Where an assignment lands. *)
Lemma set_field_target d l k x st l' k' :
  write_target st l k = Some (l', k') ->
  is_Some (heap st !! l') ->
  exists p',
    peek_prop p' = Some x /\
    forall l0 k0,
      own_prop (snd (set_field (S d) (VObj l) k x st)) l0 k0 =
      if Nat.eqb l0 l' && String.eqb k0 k' then Some p'
      else own_prop st l0 k0.
Proof.
  unfold write_target. intros Hw [o Ho].
  assert (Hdirect : forall d0,
    (forall key, own_prop st l' k' <> Some (PProxy key)) ->
    exists p',
      peek_prop p' = Some x /\
      forall l0 k0,
        own_prop (snd (set_field d0 (VObj l') k' x st)) l0 k0 =
        if Nat.eqb l0 l' && String.eqb k0 k' then Some p'
        else own_prop st l0 k0).
  { intros d0 Hnp.
    destruct (set_field_own_prop d0 l' k' x st Hnp) as (p' & Hp & _ & Hown).
    exists p'. split; [exact Hp|]. intros l0 k0. rewrite Hown, Ho.
    reflexivity. }
  destruct (own_prop st l k) as [[v|v dep|key]|] eqn:Hk.
  - injection Hw as <- <-. apply Hdirect. intros key. congruence.
  - injection Hw as <- <-. apply Hdirect. intros key. congruence.
  - destruct (own_prop st l "$data") as [[[| | | | |ld]|y dep|key']|] eqn:Hd;
      try discriminate.
    destruct (Nat.eqb ld l); [discriminate|].
    cbn [set_field]. rewrite Hk. rewrite (get_field_data d l "$data" st _ Hd).
    destruct (own_prop st ld key) as [[v|v dep|key']|] eqn:Hf;
      try discriminate; injection Hw as <- <-; apply Hdirect;
      intros key'; congruence.
  - injection Hw as <- <-. apply Hdirect. intros key. congruence.
Qed.

Lemma field_of_written st l k l' k' p' x s2 :
  write_target st l k = Some (l', k') ->
  peek_prop p' = Some x ->
  (forall l0 k0,
     own_prop s2 l0 k0 =
     if Nat.eqb l0 l' && String.eqb k0 k' then Some p' else own_prop st l0 k0) ->
  exists ds, field_of s2 (VObj l) k = Some (x, ds).
Proof.
  unfold write_target. intros Hw Hp Hown.
  assert (Hst : exists ds, stored (Some p') = Some (x, ds)).
  { destruct p' as [v|v dep|key]; simpl in Hp; try discriminate;
      injection Hp as ->; simpl; eauto. }
  assert (Hdirect : l' = l -> k' = k -> exists ds,
            field_of s2 (VObj l) k = Some (x, ds)).
  { intros -> ->. cbn [field_of].
    rewrite Hown, Nat.eqb_refl, String.eqb_refl. cbn [andb].
    destruct p' as [v|v dep|key]; simpl in Hp; try discriminate.
    - exact Hst.
    - exact Hst. }
  destruct (own_prop st l k) as [[v|v dep|key]|] eqn:Hk;
    try (injection Hw as <- <-; apply Hdirect; reflexivity).
  destruct (own_prop st l "$data") as [[[| | | | |ld]|y dep|key']|] eqn:Hd;
    try discriminate.
  destruct (Nat.eqb_spec ld l) as [|Hne]; [discriminate|].
  assert (Ht : l' = ld /\ k' = key).
  { destruct (own_prop st ld key) as [[v|v dep|key']|];
      try discriminate; injection Hw as <- <-; auto. }
  destruct Ht as [-> ->]. cbn [field_of].
  assert (H1 : own_prop s2 l k = Some (PProxy key)).
  { rewrite Hown. destruct (Nat.eqb_spec l ld) as [E|_]; [congruence|].
    exact Hk. }
  assert (H2 : own_prop s2 l "$data" = Some (PData (VObj ld))).
  { rewrite Hown. destruct (Nat.eqb_spec l ld) as [E|_]; [congruence|].
    exact Hd. }
  assert (H3 : own_prop s2 ld key = Some p').
  { rewrite Hown, Nat.eqb_refl, String.eqb_refl. reflexivity. }
  rewrite H1, H2, H3. exact Hst.
Qed.



(** X16.  When the key path resolves, up to its last segment, to anything
    but an object, the listener raises a [TypeError] at the assignment and
    the heap stays as it was. *)
Theorem input_listener_needs_an_object d vm key text st segs k a ds :
  split_key key = segs ++ [k] ->
  path_walk st vm segs = Some (a, ds) ->
  (forall l, a <> VObj l) ->
  let r := input_listener (S d) vm key text st in
  fst r = Err (TypeErrorWrite a k) /\ heap (snd r) = heap st.
Proof.
  intros Hsplit Hwalk Hno r. subst r.
  rewrite (input_listener_eq (S d) vm key text segs k Hsplit).
  unfold bind. rewrite (reduce_path_walk d segs vm st a ds Hwalk).
  destruct a as [| | | | |l]; cbn [set_field fst snd];
    try (split; [reflexivity | apply record_heap]).
  contradiction (Hno l). reflexivity.
Qed.

Lemma input_listener_needs_an_object_witness :
  let r := input_listener 2 (VObj 5) "x.y" "seven" ex_instance in
  fst r = Err (TypeErrorWrite VUndef "y") /\ heap (snd r) = heap ex_instance.
Proof.
  apply (input_listener_needs_an_object
           1 (VObj 5) "x.y" "seven" ex_instance ["x"] "y" VUndef []).
  - vm_compute. reflexivity.
  - vm_compute. reflexivity.
  - intros l. discriminate.
Defined.

(** ** What notified trackers are handed *)

(** [update()] of a tracker whose key path resolves, in any tracking
    context. *)
Lemma Watcher_update_walk d w st v ds :
  path_walk st (w_vm w) (split_key (w_key w)) = Some (v, ds) ->
  let st' := snd (Watcher_update (S d) w st) in
  heap st' = heap st /\ target st' = target st /\
  exists evs,
    trace st' =
      trace st ++ EUpdate (w_id w)
        :: ECallback (w_id w) v (w_id <$> target st) :: evs /\
    forall x k, w_cb w v = Emit x k -> exists evs', evs = EEmit x :: evs'.
Proof.
  intros Hw st'. subst st'.
  unfold Watcher_update, bind, log.
  set (s0 := with_trace (trace st ++ [EUpdate (w_id w)]) st).
  assert (Hw0 : path_walk s0 (w_vm w) (split_key (w_key w)) = Some (v, ds)).
  { rewrite (same_heap_path_walk st s0); [exact Hw | reflexivity]. }
  rewrite (reduce_path_walk d _ _ s0 v ds Hw0).
  set (s0' := record (target s0) ds s0).
  destruct (record_reads (target s0) ds s0) as (Hh0 & Ht0 & _ & Htr0 & _).
  fold s0' in Hh0, Ht0, Htr0.
  unfold call_cb, bind, get_target, log. rewrite Ht0.
  change (target s0) with (target st).
  set (s1 := with_trace _ s0').
  destruct (run_script_frame (S d) (w_cb w v) s1 I) as [_ (Hh & Ht & _)].
  pose proof (run_script_quiet (S d) (w_cb w v) s1 I) as [_ (evs & He & _)].
  assert (Htrace : trace (snd (run_script (S d) (w_cb w v) s1)) =
    trace st ++ EUpdate (w_id w)
      :: ECallback (w_id w) v (w_id <$> target st) :: evs).
  { rewrite He. unfold s1. cbn [trace with_trace]. rewrite Htr0.
    unfold s0. cbn [trace with_trace]. rewrite <- !app_assoc. reflexivity. }
  assert (Hemit : forall x k, w_cb w v = Emit x k ->
                              exists evs', evs = EEmit x :: evs').
  { intros x k Hcb. rewrite Hcb in He. cbn [run_script] in He.
    unfold bind, log in He.
    destruct (run_script_quiet (S d) k
                (with_trace (trace s1 ++ [EEmit x]) s1) I)
      as [_ (evs' & He' & _)].
    exists evs'. rewrite He' in He. cbn [trace with_trace] in He.
    rewrite <- app_assoc in He. apply app_inv_head in He. symmetry. exact He. }
  destruct (run_script (S d) (w_cb w v) s1) as [[[]|e] s2]; cbn [fst snd] in *;
    (split; [rewrite Hh; exact Hh0|];
     split; [rewrite Ht; exact Ht0|];
     exists evs; split; [exact Htrace | exact Hemit]).
Qed.

Lemma forEach_update_delivers d ws st :
  let r := forEach ws (Watcher_update (S d)) st in
  heap (snd r) = heap st /\ target (snd r) = target st /\
  exists evs,
    trace (snd r) = trace st ++ evs /\
    (fst r = Ok tt ->
     forall w v ds,
       In w ws ->
       path_walk st (w_vm w) (split_key (w_key w)) = Some (v, ds) ->
       In (ECallback (w_id w) v (w_id <$> target st)) evs /\
       forall x k, w_cb w v = Emit x k -> In (EEmit x) evs).
Proof.
  revert st. induction ws as [|w ws IH]; intros st; cbn zeta.
  - split; [reflexivity|]. split; [reflexivity|]. exists [].
    rewrite app_nil_r. split; [reflexivity|]. intros _ w v ds [].
  - cbn [forEach]. unfold bind.
    destruct (Watcher_update_frame (S d) w st I) as [_ (Hh1 & Ht1 & _)].
    destruct (Watcher_update_events (S d) w st) as (e1 & Htr1 & _).
    pose proof (fun v ds H => Watcher_update_walk d w st v ds H) as Hres.
    cbn zeta in Hres.
    destruct (Watcher_update (S d) w st) as [[[]|e] s1]; cbn [fst snd] in *.
    + destruct (IH s1) as (Hh2 & Ht2 & e2 & Htr2 & Hin2). cbn zeta in *.
      split; [congruence|]. split; [congruence|].
      exists (EUpdate (w_id w) :: e1 ++ e2). split.
      { rewrite Htr2, Htr1, <- app_assoc. reflexivity. }
      intros Hok w0 v ds [<-|Hin] Hw.
      * destruct (Hres v ds Hw) as (_ & _ & evs & Htr & Hemit).
        rewrite Htr1 in Htr. apply app_inv_head in Htr.
        injection Htr as ->. split.
        { right. apply in_or_app. left. now left. }
        intros x k Hcb. destruct (Hemit x k Hcb) as [evs' ->].
        right. apply in_or_app. left. right. now left.
      * assert (Hw1 : path_walk s1 (w_vm w0) (split_key (w_key w0)) =
                      Some (v, ds)).
        { rewrite (same_heap_path_walk st s1); [exact Hw | exact Hh1]. }
        destruct (Hin2 Hok w0 v ds Hin Hw1) as [H1 H2]. rewrite Ht1 in H1.
        split.
        { right. apply in_or_app. right. exact H1. }
        intros x k Hcb. right. apply in_or_app. right. apply (H2 x k Hcb).
    + split; [exact Hh1|]. split; [exact Ht1|].
      exists (EUpdate (w_id w) :: e1).
      split; [exact Htr1 | discriminate].
Qed.

(** X17.  The setter stores the new value before it notifies: once a write
    of a different value to a converted field has returned, every tracker
    recorded in the subscription of the field has had its callback entered
    on the value its key path resolves to in the store the write leaves.
    The callback runs in the tracking context the write began in: none
    when [Dep.target] is unset, the stale tracker when a failed
    construction has left one. *)
Theorem notified_trackers_receive_the_new_value d l k cur dep x st st' w v ds :
  own_prop st l k = Some (PReactive cur dep) ->
  strict_eq cur x = false ->
  set_field (S d) (VObj l) k x st = (Ok tt, st') ->
  In w (Dep_subs st dep) ->
  path_walk st' (w_vm w) (split_key (w_key w)) = Some (v, ds) ->
  In (ECallback (w_id w) v (w_id <$> target st)) (new_events st st').
Proof.
  intros Hp Hne E Hin Hw.
  cbn [set_field] in E. rewrite Hp in E.
  unfold reactive_set in E. rewrite Hne in E.
  unfold bind, defineProperty, Dep_notify, bind in E.
  set (st0 := with_heap _ st) in E.
  change (Dep_subs st0 dep) with (Dep_subs st dep) in E.
  destruct (forEach_update_delivers d (Dep_subs st dep) st0)
    as (Hh & _ & evs & Htr & Hdel).
  cbn zeta in *. rewrite E in Hh, Htr, Hdel. cbn [fst snd] in *.
  change (trace st0) with (trace st) in Htr.
  change (target st0) with (target st) in Hdel.
  rewrite (new_events_app st st' evs Htr).
  apply (Hdel eq_refl w v ds Hin).
  rewrite <- (same_heap_path_walk st0 st'); [exact Hw | exact Hh].
Qed.

Lemma notified_trackers_receive_the_new_value_witness :
  In (ECallback (w_id ex_tracker1) (VNum 5) (w_id <$> target ex_leaked))
     (new_events ex_leaked
        (snd (set_field 2 (VObj 0) "a" (VNum 5) ex_leaked))).
Proof.
  apply (notified_trackers_receive_the_new_value
           1 0 "a" (VNum 1) 0 (VNum 5) ex_leaked
           (snd (set_field 2 (VObj 0) "a" (VNum 5) ex_leaked))
           ex_tracker1 (VNum 5) [0]).
  - vm_compute. reflexivity.
  - vm_compute. reflexivity.
  - vm_compute. reflexivity.
  - vm_compute. right. left. reflexivity.
  - vm_compute. reflexivity.
Defined.

(** ** What conversion leaves alone *)

(** X18.  Whether it returns or raises, [observe] changes no key list, no
    array flag and no stored value, turns no intercepted property back,
    creates subscriptions without removing any, and touches neither the
    tracking context nor the log. *)
Theorem conversion_preserves_the_data d data st :
  let st' := snd (observe d data st) in
  (forall l, Object_keys st' l = Object_keys st l) /\
  (forall l, is_array <$> heap st' !! l = is_array <$> heap st !! l) /\
  (forall l k v, peek st l k = Some v -> peek st' l k = Some v) /\
  (forall l k, is_reactive (own_prop st l k) ->
               is_reactive (own_prop st' l k)) /\
  length (deps st) <= length (deps st') /\
  target st' = target st /\ trace st' = trace st.
Proof.
  intros st'. pose proof (observe_converts d data st) as Hc. fold st' in Hc.
  pose proof Hc as (T & _ & R & L & K & A & _).
  split; [exact K|]. split; [exact A|]. split; [|split].
  - intros l k v. apply (converts_peek st st' l k v Hc).
  - intros l k. apply (converts_reactive st st' l k Hc).
  - split; [exact L|]. split; [exact T | exact R].
Qed.

(** ** Two-way binding, end to end *)

Lemma field_of_target st l k l' k' cur dep :
  write_target st l k = Some (l', k') ->
  own_prop st l' k' = Some (PReactive cur dep) ->
  field_of st (VObj l) k = Some (cur, [dep]).
Proof.
  unfold write_target. cbn [field_of]. intros Hw Hown.
  destruct (own_prop st l k) as [[v|v dep1|key]|] eqn:Hk;
    try (injection Hw as <- <-; congruence).
  - injection Hw as <- <-. rewrite Hk in Hown. injection Hown as -> ->.
    reflexivity.
  - destruct (own_prop st l "$data") as [[[| | | | |ld]|y dep1|key']|];
      try discriminate.
    destruct (Nat.eqb ld l); [discriminate|].
    destruct (own_prop st ld key) as [[v|v dep1|key']|] eqn:Hf;
      try discriminate; injection Hw as <- <-; rewrite Hf in Hown;
      try discriminate.
    injection Hown as -> ->. reflexivity.
Qed.

Lemma set_field_reactive_target d l k x st l' k' cur dep :
  write_target st l k = Some (l', k') ->
  own_prop st l' k' = Some (PReactive cur dep) ->
  exists d0,
    set_field (S (S d)) (VObj l) k x st = reactive_set (S d0) l' k' cur dep x st.
Proof.
  unfold write_target. intros Hw Hown.
  destruct (own_prop st l k) as [[v|v dep1|key]|] eqn:Hk;
    try (injection Hw as <- <-; congruence).
  - injection Hw as <- <-. exists (S d). cbn [set_field]. rewrite Hk.
    rewrite Hk in Hown. injection Hown as -> ->. reflexivity.
  - destruct (own_prop st l "$data") as [[[| | | | |ld]|y dep1|key']|] eqn:Hd;
      try discriminate.
    destruct (Nat.eqb ld l); [discriminate|].
    assert (Ht : l' = ld /\ k' = key).
    { destruct (own_prop st ld key) as [[v|v dep1|key']|];
        try discriminate; injection Hw as <- <-; auto. }
    destruct Ht as [-> ->]. exists d. cbn [set_field]. rewrite Hk.
    rewrite (get_field_data (S d) l "$data" st _ Hd).
    cbn [set_field]. rewrite Hown. reflexivity.
Qed.

Lemma record_deps w ds s s' :
  deps s = deps s' ->
  deps (record (Some w) ds s) = deps (record (Some w) ds s').
Proof.
  unfold record. revert s s'.
  induction ds as [|x ds IH]; intros s s' H; cbn [fold_left]; [exact H|].
  apply IH. unfold Dep_addSub. cbn [snd deps with_deps]. rewrite H.
  reflexivity.
Qed.

Lemma record_grows w ds s dep :
  Dep_subs s dep `prefix_of` Dep_subs (record (Some w) ds s) dep.
Proof.
  unfold record. revert s.
  induction ds as [|x ds IH]; intros s; cbn [fold_left]; [reflexivity|].
  etransitivity; [|apply IH].
  destruct (Dep_addSub_grow x w s I) as [_ H]. apply H.
Qed.

Lemma In_record w ds s dep :
  In dep ds -> dep < length (deps s) ->
  In w (Dep_subs (record (Some w) ds s) dep).
Proof.
  revert s. induction ds as [|x ds IH]; intros s Hin Hlt; [destruct Hin|].
  change (record (Some w) (x :: ds) s)
    with (record (Some w) ds (snd (Dep_addSub x w s))).
  destruct (Nat.eq_dec x dep) as [->|Hne].
  - destruct (record_grows w ds (snd (Dep_addSub dep w s)) dep) as [ext ->].
    apply in_or_app. left. rewrite Dep_subs_addSub, Nat.eqb_refl.
    destruct (Nat.ltb_spec dep (length (deps s))) as [_|Hge]; [|lia].
    cbn [andb]. apply in_or_app. right. now left.
  - destruct Hin as [E|Hin]; [contradiction|]. apply IH; [exact Hin|].
    unfold Dep_addSub. cbn [snd deps with_deps]. rewrite length_alter_deps.
    exact Hlt.
Qed.

Lemma In_emitted x evs : In (EEmit x) evs -> In x (emitted evs).
Proof.
  induction evs as [|e evs IH]; [intros []|].
  intros [->|Hin]; [now left|]. destruct e; simpl; auto.
Qed.

(** The constructor of a tracker whose callback only reports. *)
Lemma Watcher_constructor_emit d vm key st v ds :
  path_walk st vm (split_key key) = Some (v, ds) ->
  let this := mkWatcher (next_wid st) vm key cb_emit in
  let r := Watcher_constructor (S d) vm key cb_emit st in
  fst r = Ok this /\ heap (snd r) = heap st /\ target (snd r) = None /\
  deps (snd r) = deps (record (Some this) ds st) /\
  trace (snd r) =
    trace st ++ [EUpdate (w_id this);
                 ECallback (w_id this) v (Some (w_id this)); EEmit v].
Proof.
  intros Hw this r. subst r.
  assert (Hres : reduce_path (S d) (split_key key) vm (discovering this st) =
                 (Ok v, record (Some this) ds (discovering this st))).
  { apply (reduce_path_walk d (split_key key) vm (discovering this st) v ds).
    rewrite (same_heap_path_walk st (discovering this st)); [exact Hw|].
    reflexivity. }
  unfold Watcher_constructor, Watcher_update, bind, set_target, log.
  cbn zeta. fold this.
  change (with_trace _ (with_target (Some this) _))
    with (discovering this st).
  change (w_key this) with key. change (w_vm this) with vm.
  rewrite Hres. unfold call_cb, bind, get_target, log.
  change (w_cb this v) with (Emit v Done).
  set (s1 := record (Some this) ds (discovering this st)).
  pose proof (record_reads (Some this) ds (discovering this st))
    as (Hh1 & Ht1 & _ & Htr1 & _). fold s1 in Hh1, Ht1, Htr1.
  rewrite Ht1.
  cbn [discovering target with_trace with_target fmap option_fmap option_map
       run_script].
  unfold bind, log, ret. cbn [fst snd heap target deps trace with_trace
                               with_target].
  split; [reflexivity|]. split; [exact Hh1|]. split; [reflexivity|]. split.
  - unfold s1. apply record_deps. reflexivity.
  - rewrite Htr1. cbn [discovering trace with_trace this w_id].
    rewrite <- !app_assoc. reflexivity.
Qed.

Lemma bind_model_run d vm key st v ds :
  target st = None ->
  path_walk st vm (split_key key) = Some (v, ds) ->
  let this := mkWatcher (next_wid st) vm key cb_emit in
  let r := bind_model (S d) vm key st in
  fst r = Ok tt /\ heap (snd r) = heap st /\ target (snd r) = None /\
  deps (snd r) = deps (record (Some this) ds st) /\
  trace (snd r) =
    trace st ++ [EEmit v; EUpdate (w_id this);
                 ECallback (w_id this) v (Some (w_id this)); EEmit v].
Proof.
  intros Ht Hw this r. subst r.
  set (sA := with_trace (trace st ++ [EEmit v]) st).
  assert (HwA : path_walk sA vm (split_key key) = Some (v, ds)).
  { rewrite (same_heap_path_walk st sA); [exact Hw | reflexivity]. }
  destruct (Watcher_constructor_emit d vm key sA v ds HwA)
    as (Hok & Hh & Htg & Hd & Htr).
  cbn zeta in Hok, Hh, Htg, Hd, Htr.
  change (next_wid sA) with (next_wid st) in Hok, Hd, Htr.
  fold this in Hok, Hd, Htr.
  assert (E : bind_model (S d) vm key st =
              (Ok tt, snd (Watcher_constructor (S d) vm key cb_emit sA))).
  { unfold bind_model, bind.
    rewrite (reduce_path_walk d (split_key key) vm st v ds Hw), Ht.
    cbn [record]. unfold log. fold sA.
    destruct (Watcher_constructor (S d) vm key cb_emit sA) as [[t|e] s1];
      cbn [fst snd] in *; [reflexivity | discriminate]. }
  rewrite E. cbn [fst snd].
  split; [reflexivity|]. split; [exact Hh|]. split; [exact Htg|]. split.
  - rewrite Hd. apply record_deps. reflexivity.
  - rewrite Htr. unfold sA. cbn [trace with_trace].
    rewrite <- app_assoc. reflexivity.
Qed.


